(** * Verification of the prefix-search crawler (IvyHomes autocomplete extractor)

    A shallow embedding of the Python sources

    - [src/utils/rate_limiter.py]   (sliding-window rate limiter),
    - [src/api_client.py]           (HTTP client with retries),
    - [src/extractors/*.py]         (depth-first prefix crawler, checkpoints),

    followed by the properties of the specification, each stated over the
    embedded functions.

    Conventions.  Python [str] is [string] (one [ascii] per code point, so the
    model covers code points below 256; every character set of the sources is
    ASCII).  Python [int] is [Z].  Python [set] of [str] is [gset string].
    Clock readings ([time.time()]) are exact rationals [Q]: rounding of the
    floating-point clock is not modelled.  Everything outside the process
    (network, clock, disk faults) is an explicit world value threaded through
    the functions.  The client returns whatever JSON value the body gives
    it; the crawler is modelled at the result type the client is annotated
    with, a list of strings. *)

From Stdlib Require Import ZArith String Ascii List Lia QArith Lqa DecimalString.
From stdpp Require Import gmap strings list.

Set Warnings "-register-all,-clear-no-such-hyp".
Local Open Scope string_scope.

(** ** Python string primitives *)

(** [needle in hay] on strings: some suffix of [hay] starts with [needle]. *)
Fixpoint str_contains (needle hay : string) : bool :=
  String.prefix needle hay ||
  match hay with
  | EmptyString => false
  | String _ rest => str_contains needle rest
  end.

(** [s.startswith(p)]. *)
Definition startswith (p s : string) : bool := String.prefix p s.

(** [s.endswith(p)]: some suffix of [s] is [p]. *)
Fixpoint endswith (p s : string) : bool :=
  String.eqb p s ||
  match s with
  | EmptyString => false
  | String _ rest => endswith p rest
  end.

(** [len(s)]. *)
Definition len (s : string) : nat := String.length s.

(** A [for x in l: body] loop whose body may fail to return (out of fuel):
    the state is threaded left to right, and a failure stops the loop. *)
Fixpoint for_each {A S : Type} (l : list A) (body : A -> S -> option S) (s : S)
  : option S :=
  match l with
  | [] => Some s
  | x :: rest =>
      match body x s with
      | Some s' => for_each rest body s'
      | None => None
      end
  end.

(** ** JSON values, as [json.load] and [response.json()] produce them

    Numbers are integers (floats are not modelled).  An object is the list of
    its items in insertion order; Python dictionaries have unique keys, and
    [obj_get] reads the first item with the key. *)
Inductive json : Type :=
| JNull
| JBool (b : bool)
| JNum (n : Z)
| JStr (s : string)
| JArr (items : list json)
| JObj (fields : list (string * json)).

(** [key in d] and [d[key]] / [d.get(key)] on a parsed object. *)
Fixpoint obj_get (key : string) (fields : list (string * json)) : option json :=
  match fields with
  | [] => None
  | (k, v) :: rest => if String.eqb key k then Some v else obj_get key rest
  end.

Definition obj_has (key : string) (fields : list (string * json)) : bool :=
  match obj_get key fields with Some _ => true | None => false end.

(** *** [json.dump]: the text Python writes for a value

    Default separators and [ensure_ascii=True].  [indent = None] gives the
    compact form; [indent = Some n] the pretty-printed form, where [level] is
    the nesting depth of the value being printed. *)

Definition quote_char : ascii := ascii_of_nat 34.
Definition newline_char : ascii := ascii_of_nat 10.

Definition hex_digit (n : nat) : ascii :=
  nth n (list_ascii_of_string "0123456789abcdef") "0"%char.

(** One character of a string literal (ESCAPE_ASCII of [json.encoder]). *)
Definition escape_char (c : ascii) : string :=
  let n := nat_of_ascii c in
  if (n =? 34)%nat then String "\"%char (String quote_char EmptyString)
  else if (n =? 92)%nat then "\\"
  else if (n =? 10)%nat then "\n"
  else if (n =? 13)%nat then "\r"
  else if (n =? 9)%nat then "\t"
  else if (n =? 8)%nat then "\b"
  else if (n =? 12)%nat then "\f"
  else if (n <? 32)%nat || (126 <? n)%nat then
    "\u00" ++ String (hex_digit (n / 16)) (String (hex_digit (n mod 16)) EmptyString)
  else String c EmptyString.

Definition json_string (s : string) : string :=
  String quote_char
    (String.concat "" (map escape_char (list_ascii_of_string s))
     ++ String quote_char EmptyString).

Definition json_int (n : Z) : string := NilZero.string_of_int (Z.to_int n).

Definition spaces (n : nat) : string := string_of_list_ascii (repeat " "%char n).

(** The text between an opening bracket and the first item, between items,
    and before the closing bracket. *)
Definition newline_indent (indent : option nat) (level : nat) : string :=
  match indent with
  | None => ""
  | Some n => String newline_char (spaces (n * level))
  end.

Definition item_separator (indent : option nat) (level : nat) : string :=
  match indent with
  | None => ", "
  | Some _ => "," ++ newline_indent indent level
  end.

Fixpoint json_dumps (indent : option nat) (level : nat) (j : json) : string :=
  match j with
  | JNull => "null"
  | JBool true => "true"
  | JBool false => "false"
  | JNum n => json_int n
  | JStr s => json_string s
  | JArr [] => "[]"
  | JArr items =>
      "[" ++ newline_indent indent (S level)
      ++ String.concat (item_separator indent (S level))
           (map (json_dumps indent (S level)) items)
      ++ newline_indent indent level ++ "]"
  | JObj [] => "{}"
  | JObj fields =>
      "{" ++ newline_indent indent (S level)
      ++ String.concat (item_separator indent (S level))
           (map (fun kv => json_string (fst kv) ++ ": "
                           ++ json_dumps indent (S level) (snd kv)) fields)
      ++ newline_indent indent level ++ "}"
  end.

(** ** Crawl state and its persistence ([extractors/base_extractor.py]) *)

(** The three attributes [names], [visited_prefixes] and [request_count] of a
    [BaseExtractor], at their annotated types. *)
Record CrawlState : Type := mkState {
  names : gset string;
  visited_prefixes : gset string;
  request_count : Z
}.

(** The state [__init__] sets up before it looks for a checkpoint. *)
Definition initial_state : CrawlState :=
  {| names := ∅; visited_prefixes := ∅; request_count := 0 |}.

(** What the world does to one [open(path, 'w')] followed by [json.dump]:
    nothing goes wrong; [open] raises and the file is left alone; or [open]
    succeeds, which truncates the file, and an exception is raised once [k]
    characters of the text have reached it. *)
Inductive io_fault : Type :=
| NoFault
| OpenFails
| WriteFails (k : nat).

(** The content of a file after such a write; [None] is a missing file. *)
Definition write_file (fault : io_fault) (text : string) (old : option string)
  : option string :=
  match fault with
  | NoFault => Some text
  | OpenFails => old
  | WriteFails k => Some (String.substring 0 k text)
  end.

(** The process environment of one extractor: the outside world [W] (network,
    clock, causes of disk faults) and the two files it owns. *)
Record Env (W : Type) : Type := mkEnv {
  world : W;
  checkpoint_file : option string;
  results_file : option string
}.
Arguments mkEnv {W} _ _ _.
Arguments world {W} _.
Arguments checkpoint_file {W} _.
Arguments results_file {W} _.

(** The dictionary [_save_checkpoint] hands to [json.dump]; [list(set)] is
    the set's elements in some order, here the order of [elements]. *)
Definition checkpoint_json (st : CrawlState) : json :=
  JObj [ ("names", JArr (map JStr (elements (names st))));
         ("visited_prefixes", JArr (map JStr (elements (visited_prefixes st))));
         ("request_count", JNum (request_count st)) ].

(** The dictionary [_save_results] hands to [json.dump]. *)
Definition results_json (version : string) (st : CrawlState) : json :=
  JObj [ ("version", JStr version);
         ("names", JArr (map JStr (elements (names st))));
         ("request_count", JNum (request_count st));
         ("total_names", JNum (Z.of_nat (size (names st)))) ].

(** What [_load_checkpoint] finds: no file at the path; a file that [open] or
    [json.load] fails on; or a parsed JSON document. *)
Inductive checkpoint_read : Type :=
| NoCheckpoint
| ReadFails
| Parsed (doc : json).

(** Evaluation of a Python expression at the type the source annotates for
    it: a value of that type, an exception, or a value of another type, which
    Python accepts silently and this model does not follow further. *)
Inductive py (A : Type) : Type :=
| Val (a : A)
| Exn
| Foreign.
Arguments Val {A} _.
Arguments Exn {A}.
Arguments Foreign {A}.

(** The strings of a list of JSON values that are all strings. *)
Fixpoint all_strings (items : list json) : option (list string) :=
  match items with
  | [] => Some []
  | JStr s :: rest =>
      match all_strings rest with
      | Some l => Some (s :: l)
      | None => None
      end
  | _ :: _ => None
  end.

(** An array or an object among the items: [set(...)] raises TypeError
    (unhashable type) on it. *)
Definition unhashable (j : json) : bool :=
  match j with
  | JArr _ | JObj _ => true
  | _ => false
  end.

(** [set(v)] at type [Set[str]].  A string is iterated by characters and an
    object by keys; [None], booleans and numbers are not iterable. *)
Definition py_set (v : json) : py (gset string) :=
  match v with
  | JNull | JBool _ | JNum _ => Exn
  | JStr s => Val (list_to_set (map (fun c => String c EmptyString) (list_ascii_of_string s)))
  | JObj fields => Val (list_to_set (map fst fields))
  | JArr items =>
      match all_strings items with
      | Some l => Val (list_to_set l)
      | None => if existsb unhashable items then Exn else Foreign
      end
  end.

(** A value at type [int]; no conversion happens, so nothing raises. *)
Definition py_int_value (v : json) : py Z :=
  match v with
  | JNum n => Val n
  | _ => Foreign
  end.

(** [d.get(key, default)]. *)
Definition obj_get_default (key : string) (default : json) (fields : list (string * json)) : json :=
  match obj_get key fields with
  | Some v => v
  | None => default
  end.

(** [_load_checkpoint], run on the state [st] that [__init__] has just set
    up.  The three attributes are assigned one after the other inside one
    [try]; an exception leaves the assignments made before it in place, and
    the handler only logs. *)
Definition _load_checkpoint (found : checkpoint_read) (st : CrawlState) : py CrawlState :=
  match found with
  | NoCheckpoint => Val st
  | ReadFails => Val st
  | Parsed (JObj checkpoint) =>
      match py_set (obj_get_default "names" (JArr []) checkpoint) with
      | Exn => Val st
      | Foreign => Foreign
      | Val loaded_names =>
          let st1 := {| names := loaded_names;
                        visited_prefixes := visited_prefixes st;
                        request_count := request_count st |} in
          match py_set (obj_get_default "visited_prefixes" (JArr []) checkpoint) with
          | Exn => Val st1
          | Foreign => Foreign
          | Val loaded_visited =>
              let st2 := {| names := loaded_names;
                            visited_prefixes := loaded_visited;
                            request_count := request_count st |} in
              match py_int_value (obj_get_default "request_count" (JNum 0) checkpoint) with
              | Val n => Val {| names := loaded_names;
                                visited_prefixes := loaded_visited;
                                request_count := n |}
              | Exn => Val st2
              | Foreign => Foreign
              end
          end
      end
  | Parsed _ => Val st
  end.

(** The attributes of a freshly constructed extractor. *)
Definition init_extractor (found : checkpoint_read) : py CrawlState :=
  _load_checkpoint found initial_state.

(** ** The depth-first crawler ([BaseExtractor] and its three subclasses) *)

(** [get_character_set()] of [V1Extractor], [V2Extractor], [V3Extractor]. *)
Definition digits : list string := ["0"; "1"; "2"; "3"; "4"; "5"; "6"; "7"; "8"; "9"].
Definition letters : list string :=
  ["a"; "b"; "c"; "d"; "e"; "f"; "g"; "h"; "i"; "j"; "k"; "l"; "m";
   "n"; "o"; "p"; "q"; "r"; "s"; "t"; "u"; "v"; "w"; "x"; "y"; "z"].
Definition v1_character_set : list string := letters.
Definition v2_character_set : list string := digits ++ letters.
Definition v3_character_set : list string :=
  digits ++ letters ++ ["+"; "-"; "."] ++ [EmptyString].

(** [get_max_results()] of the three subclasses. *)
Definition v1_max_results : Z := 10.
Definition v2_max_results : Z := 12.
Definition v3_max_results : Z := 15.

(** The literal bound of [_dfs] on the length of a prefix. *)
Definition max_prefix_length : nat := 10.

(** The two filters of [_dfs] that return before the query. *)
Definition has_double_space (prefix : string) : bool := str_contains "  " prefix.

Definition has_boundary_space (prefix : string) : bool :=
  (startswith " " prefix || endswith " " prefix) && (1 <? len prefix)%nat.

Definition rejected (prefix : string) : bool :=
  has_double_space prefix || has_boundary_space prefix.

(** [self.visited_prefixes.add(prefix)]. *)
Definition mark_visited (prefix : string) (st : CrawlState) : CrawlState :=
  {| names := names st;
     visited_prefixes := visited_prefixes st ∪ {[ prefix ]};
     request_count := request_count st |}.

Section Extractor.

Context {W : Type}.

(** [self.version], [get_character_set()] and [get_max_results()]. *)
Variable version : string.
Variable character_set : list string.
Variable max_results : Z.

(** [self.rate_limiter.wait_if_needed(self.version)]: the world after the
    wait. *)
Variable rate_limit : W -> W.

(** [self.api_client.get_autocomplete_suggestions(query, self.version)], at
    the annotated result type [List[str]]: the answer and the world after. *)
Variable query_api : string -> W -> list string * W.

(** How the next write of a file goes. *)
Variable disk_fault : W -> io_fault * W.

(** [_save_checkpoint]: the file is opened for writing in place; whatever
    goes wrong is caught and logged. *)
Definition _save_checkpoint (st : CrawlState) (env : Env W) : Env W :=
  let (fault, w) := disk_fault (world env) in
  {| world := w;
     checkpoint_file :=
       write_file fault (json_dumps None 0 (checkpoint_json st)) (checkpoint_file env);
     results_file := results_file env |}.

(** [_save_results], with [indent=2]. *)
Definition _save_results (st : CrawlState) (env : Env W) : Env W :=
  let (fault, w) := disk_fault (world env) in
  {| world := w;
     checkpoint_file := checkpoint_file env;
     results_file :=
       write_file fault (json_dumps (Some 2%nat) 0 (results_json version st)) (results_file env) |}.

(** [get_suggestions]: one query, folded into the state, with a checkpoint
    every 20 requests. *)
Definition get_suggestions (query : string) (st : CrawlState) (env : Env W)
  : list string * CrawlState * Env W :=
  let (response, w) := query_api query (rate_limit (world env)) in
  let env1 := {| world := w;
                 checkpoint_file := checkpoint_file env;
                 results_file := results_file env |} in
  let st1 := {| names := names st ∪ list_to_set response;
                visited_prefixes := visited_prefixes st ∪ {[ query ]};
                request_count := request_count st + 1 |} in
  let env2 := if (request_count st1 mod 20 =? 0)%Z
              then _save_checkpoint st1 env1 else env1 in
  (response, st1, env2).

(** [_dfs].  [fuel] bounds the depth of the Python call stack; [None] means
    the bound was reached before the call returned. *)
Fixpoint _dfs (fuel : nat) (prefix : string) (s : CrawlState * Env W)
  : option (CrawlState * Env W) :=
  match fuel with
  | O => None
  | S fuel' =>
      let (st, env) := s in
      if bool_decide (prefix ∈ visited_prefixes st) then Some s
      else
        let st0 := mark_visited prefix st in
        if has_double_space prefix then Some (st0, env)
        else if has_boundary_space prefix then Some (st0, env)
        else
          let '(suggestions, st1, env1) := get_suggestions prefix st0 env in
          if (max_results <=? Z.of_nat (length suggestions))%Z then
            for_each character_set
              (fun char acc =>
                 let next_prefix := prefix ++ char in
                 if (len next_prefix <=? max_prefix_length)%nat
                 then _dfs fuel' next_prefix acc
                 else Some acc)
              (st1, env1)
          else Some (st1, env1)
  end.

(** [extract_names]: one traversal per character not yet visited, then the
    final checkpoint and the results file. *)
Definition extract_names (fuel : nat) (s : CrawlState * Env W)
  : option (CrawlState * Env W) :=
  match
    for_each character_set
      (fun char acc =>
         if bool_decide (char ∈ visited_prefixes (fst acc)) then Some acc
         else _dfs fuel char acc)
      s
  with
  | Some (st, env) => Some (st, _save_results st (_save_checkpoint st env))
  | None => None
  end.

(** A call stack this deep is enough for every call of [_dfs]: ten levels of
    growing prefixes, the root, and the call that finds its prefix visited. *)
Definition dfs_depth : nat := 2 + max_prefix_length.

(** The prefixes [_dfs prefix] recurses into when the page comes back full,
    in the order of the loop. *)
Definition children (prefix : string) : list string :=
  List.filter (fun next_prefix => (len next_prefix <=? max_prefix_length)%nat)
              (map (fun char => prefix ++ char) character_set).

(** Every string the traversal from [prefix] can reach with [depth] more
    characters: [prefix] itself and what its extensions reach. *)
Fixpoint reach (depth : nat) (prefix : string) : list string :=
  prefix ::
  match depth with
  | O => []
  | S depth' => flat_map (fun char => reach depth' (prefix ++ char)) character_set
  end.

End Extractor.

(** [1 + k + k^2 + ... + k^n], the size of a [k]-ary tree of depth [n]. *)
Fixpoint geometric (k n : nat) : nat :=
  match n with
  | O => 1
  | S n' => 1 + k * geometric k n'
  end.

(** Queries are paid for by new visited prefixes: the counter grows by no
    more than the visited set does. *)
Definition paid_for (st st' : CrawlState) : Prop :=
  (request_count st' + Z.of_nat (size (visited_prefixes st))
   <= request_count st + Z.of_nat (size (visited_prefixes st')))%Z.

(** Growth of a crawl state: both sets are included, the counter is not
    smaller. *)
Definition state_le (st st' : CrawlState) : Prop :=
  names st ⊆ names st' ∧
  visited_prefixes st ⊆ visited_prefixes st' ∧
  (request_count st <= request_count st')%Z.

(** A world that remembers the queries sent to it, newest first. *)
Definition logged {W : Type} (api : string -> W -> list string * W)
  (query : string) (w : W * list string) : list string * (W * list string) :=
  let (response, w') := api query (fst w) in
  (response, (w', query :: snd w)).

Definition logged_wait {W : Type} (wait : W -> W) (w : W * list string)
  : W * list string :=
  (wait w.1, w.2).

Definition logged_fault {W : Type} (fault : W -> io_fault * W)
  (w : W * list string) : io_fault * (W * list string) :=
  let (f, w') := fault (fst w) in (f, (w', snd w)).

(** Forgetting the log. *)
Definition erase_log {W : Type} (env : Env (W * list string)) : Env W :=
  {| world := (world env).1;
     checkpoint_file := checkpoint_file env;
     results_file := results_file env |}.

Definition erase_run {W : Type} (s : CrawlState * Env (W * list string))
  : CrawlState * Env W :=
  (s.1, erase_log s.2).

(** The queries sent between two states of a logged crawl: they extend the
    log, no prefix occurs twice among them, none was visited before and all
    are visited after. *)
Definition fresh_queries (st : CrawlState) (log : list string)
  (st' : CrawlState) (log' : list string) : Prop :=
  exists sent : list string,
    log' = (sent ++ log)%list /\ NoDup sent /\
    forall query, query ∈ sent ->
      (query ∉ visited_prefixes st) /\ (query ∈ visited_prefixes st').

(** A scripted disk: the world is the list of faults still to come (none
    left: the write succeeds). *)
Definition script_fault (w : list io_fault) : io_fault * list io_fault :=
  match w with
  | [] => (NoFault, [])
  | fault :: rest => (fault, rest)
  end.

(** A simulated service: a fixed vocabulary, answering a query with the
    first [cap] names that start with it; its world is the number of disk
    writes seen so far, none of which fails. *)
Definition sim_api (vocabulary : list string) (cap : nat)
  (query : string) (w : nat) : list string * nat :=
  (take cap (filter (fun name => String.prefix query name = true) vocabulary), w).

Definition sim_wait (w : nat) : nat := w.

Definition sim_fault (w : nat) : io_fault * nat := (NoFault, S w).

Definition sim_vocabulary : list string := ["cat"; "car"; "cab"; "dog"; "do"; "a b"].

Definition sim_character_set : list string :=
  ["a"; "b"; "c"; "d"; "o"; "t"; " "; EmptyString].

Definition sim_env : Env nat :=
  {| world := 0%nat; checkpoint_file := None; results_file := None |}.

(** The same environment with an empty log of queries. *)
Definition logged_env : Env (nat * list string) :=
  {| world := (0%nat, []); checkpoint_file := None; results_file := None |}.

(** ** The sliding-window rate limiter ([utils/rate_limiter.py]) *)

Definition Qlt_bool (x y : Q) : bool := negb (Qle_bool y x).

(** The attributes of a [RateLimiter]; the deque holds the oldest timestamp
    first. *)
Record RateLimiter : Type := mkLimiter {
  requests_per_minute : Z;
  window_size : Q;
  request_timestamps : list Q
}.

(** [RateLimiter(requests_per_minute)]. *)
Definition new_limiter (rpm : Z) : RateLimiter :=
  {| requests_per_minute := rpm; window_size := 60; request_timestamps := [] |}.

(** The [while] loop of [wait_if_needed]: [popleft] as long as the front
    timestamp is older than [cutoff]. *)
Fixpoint drop_stale (cutoff : Q) (timestamps : list Q) : list Q :=
  match timestamps with
  | [] => []
  | t :: rest => if Qlt_bool t cutoff then drop_stale cutoff rest else timestamps
  end.

(** The limiter after a call: the timestamps kept, then the one recorded. *)
Definition recorded (rl : RateLimiter) (kept : list Q) (t : Q) : RateLimiter :=
  {| requests_per_minute := requests_per_minute rl;
     window_size := window_size rl;
     request_timestamps := kept ++ [t] |}.

Section Limiter.

Context {W : Type}.

(** [time.time()] and [time.sleep(seconds)]. *)
Variable time_time : W -> Q * W.
Variable time_sleep : Q -> W -> W.

(** [RateLimiter.wait_if_needed].  [None] is the IndexError of
    [request_timestamps[0]] on an empty deque, which needs a limit that is
    not positive. *)
Definition wait_if_needed (rl : RateLimiter) (w : W) : option (RateLimiter * W) :=
  let (current_time, w1) := time_time w in
  let timestamps := drop_stale (current_time - window_size rl)%Q (request_timestamps rl) in
  let record (w2 : W) :=
    let (t, w3) := time_time w2 in Some (recorded rl timestamps t, w3) in
  if (requests_per_minute rl <=? Z.of_nat (length timestamps))%Z then
    match timestamps with
    | [] => None
    | oldest :: _ =>
        let wait_time := (oldest + window_size rl - current_time)%Q in
        if Qlt_bool 0 wait_time then record (time_sleep wait_time w1) else record w1
    end
  else record w1.

(** The algorithm in the words of the specification: after the suspension
    the limiter checks again, and it records a timestamp only once the count
    is below the limit.  [fuel] bounds the number of checks. *)
Fixpoint await_spec (fuel : nat) (rl : RateLimiter) (w : W) : option (RateLimiter * W) :=
  match fuel with
  | O => None
  | S fuel' =>
      let (now, w1) := time_time w in
      let timestamps := drop_stale (now - 60)%Q (request_timestamps rl) in
      if (requests_per_minute rl <=? Z.of_nat (length timestamps))%Z then
        match timestamps with
        | [] => None
        | oldest :: _ =>
            await_spec fuel'
              {| requests_per_minute := requests_per_minute rl;
                 window_size := window_size rl;
                 request_timestamps := timestamps |}
              (time_sleep (oldest + 60 - now)%Q w1)
        end
      else
        let (t, w2) := time_time w1 in Some (recorded rl timestamps t, w2)
  end.

(** A clock that does not run backwards, on which a sleep lasts at least the
    time asked for; [now_of w] is the time in world [w]. *)
Definition clock_laws (now_of : W -> Q) : Prop :=
  (forall w, (now_of w <= (time_time w).1)%Q /\ ((time_time w).1 <= now_of (time_time w).2)%Q) /\
  (forall seconds w, (now_of w + seconds <= now_of (time_sleep seconds w))%Q).

End Limiter.

(** An injected clock: the world is the current time, which only [sleep]
    advances, by exactly the time asked for. *)
Definition fake_time (now : Q) : Q * Q := (now, now).
Definition fake_sleep (seconds now : Q) : Q := (now + seconds)%Q.

(** ** The HTTP client ([api_client.py]) *)

(** What [self.session.get(url, params)] gives: an exception, or a response
    with its status code, the result of [response.json()] ([None] when that
    raises) and the [Retry-After] header, if any. *)
Inductive http_outcome : Type :=
| Raises
| Response (status_code : Z) (body : option json) (retry_after : option string).

(** [str.isdigit] on code points below 256: the ASCII digits and the
    superscripts of Latin-1. *)
Definition is_ascii_digit (c : ascii) : bool :=
  let n := nat_of_ascii c in (48 <=? n)%nat && (n <=? 57)%nat.

Definition is_digit_char (c : ascii) : bool :=
  let n := nat_of_ascii c in
  is_ascii_digit c || (n =? 178)%nat || (n =? 179)%nat || (n =? 185)%nat.

Definition isdigit (s : string) : bool :=
  negb (String.eqb s EmptyString) && forallb is_digit_char (list_ascii_of_string s).

(** The value of a run of ASCII digits. *)
Definition digits_value (s : string) : Z :=
  fold_left (fun acc c => (10 * acc + Z.of_nat (nat_of_ascii c - 48))%Z)
            (list_ascii_of_string s) 0%Z.

(** [int(s)] for a string on which [isdigit] holds: ValueError ([None]) on a
    superscript digit. *)
Definition int_of_digits (s : string) : option Z :=
  if forallb is_ascii_digit (list_ascii_of_string s) then Some (digits_value s) else None.

(** The waiting time after a 429: the header when it is a number, else the
    default delay; [None] when [int] raises. *)
Definition retry_wait (retry_after : option string) (retry_delay : Z) : option Z :=
  match retry_after with
  | Some s => if isdigit s then int_of_digits s else Some retry_delay
  | None => Some retry_delay
  end.

(** The [if]/[elif] chain over the fields of an object. *)
Definition select_field (data : list (string * json)) : json :=
  match obj_get "results" data with
  | Some v => v
  | None =>
      match obj_get "suggestions" data with
      | Some v => v
      | None =>
          match obj_get "names" data with
          | Some v => v
          | None => JArr []
          end
      end
  end.

Section Client.

Context {W : Type}.

(** [self.session.get(url, params={"query": query})]. *)
Variable http_get : string -> string -> W -> http_outcome * W.

(** [time.sleep(seconds)]; [None] when it raises (a negative or oversized
    argument). *)
Variable sleep : Z -> W -> option W.

Variable base_url : string.

(** The [for attempt in range(max_retries + 1)] loop, with [todo] iterations
    left.  The value is [Some] of what the call returns, or [None] when an
    exception leaves the call. *)
Fixpoint request_loop (url query : string) (max_retries retry_delay : Z)
  (todo : nat) (attempt : Z) (w : W) : option json * W :=
  match todo with
  | O => (Some (JArr []), w)
  | S todo' =>
      let handler (w' : W) :=
        if (attempt <? max_retries)%Z then
          match sleep retry_delay w' with
          | Some w'' => request_loop url query max_retries retry_delay todo' (attempt + 1) w''
          | None => (None, w')
          end
        else (Some (JArr []), w') in
      let (outcome, w1) := http_get url query w in
      match outcome with
      | Raises => handler w1
      | Response status_code body retry_after =>
          if (status_code =? 200)%Z then
            match body with
            | None => handler w1
            | Some (JArr items) => (Some (JArr items), w1)
            | Some (JObj data) => (Some (select_field data), w1)
            | Some _ => (Some (JArr []), w1)
            end
          else if (status_code =? 429)%Z then
            if (attempt <? max_retries)%Z then
              match retry_wait retry_after retry_delay with
              | None => handler w1
              | Some wait_time =>
                  match sleep wait_time w1 with
                  | Some w2 =>
                      request_loop url query max_retries retry_delay todo' (attempt + 1) w2
                  | None => handler w1
                  end
              end
            else (Some (JArr []), w1)
          else (Some (JArr []), w1)
      end
  end.

(** [get_autocomplete_suggestions(query, version, max_retries, retry_delay)]. *)
Definition get_autocomplete_suggestions (query version : string)
  (max_retries retry_delay : Z) (w : W) : option json * W :=
  request_loop (base_url ++ "/" ++ version ++ "/autocomplete") query
    max_retries retry_delay (Z.to_nat (max_retries + 1)) 0 w.

End Client.

(** Where a returned value comes from: a response with status 200 whose body
    is an array (the value itself) or an object (the field the chain
    selects). *)
Definition from_payload {W : Type} (http_get : string -> string -> W -> http_outcome * W)
  (url query : string) (v : json) : Prop :=
  exists w0 w1 retry_after body,
    http_get url query w0 = (Response 200 (Some body) retry_after, w1) /\
    match body with
    | JArr items => v = JArr items
    | JObj data => v = select_field data
    | _ => False
    end.

(** The defaults of the signature. *)
Definition default_max_retries : Z := 3.
Definition default_retry_delay : Z := 60.

(** A value of the annotated result type [List[str]]. *)
Definition is_string_list (j : json) : bool :=
  match j with
  | JArr items => match all_strings items with Some _ => true | None => false end
  | _ => false
  end.

(** A scripted network: the world is the list of outcomes still to come
    (none left: the connection fails); sleeping raises on a negative time. *)
Definition script_get (url query : string) (w : list http_outcome)
  : http_outcome * list http_outcome :=
  match w with
  | [] => (Raises, [])
  | outcome :: rest => (outcome, rest)
  end.

Definition script_sleep (seconds : Z) (w : list http_outcome) : option (list http_outcome) :=
  if (seconds <? 0)%Z then None else Some w.

(** ** Further observations of a crawl *)

(** Lifting the rate limiter and the disk to a world with a record [L] kept
    beside it. *)
Definition beside_wait {W L : Type} (wait : W -> W) (w : W * L) : W * L :=
  (wait w.1, w.2).

Definition beside_fault {W L : Type} (fault : W -> io_fault * W) (w : W * L)
  : io_fault * (W * L) :=
  let (f, w') := fault w.1 in (f, (w', w.2)).

(** A world that keeps the transcript of the service: every query with the
    answer it got, newest first. *)
Definition transcribed {W : Type} (api : string -> W -> list string * W)
  (query : string) (w : W * list (string * list string))
  : list string * (W * list (string * list string)) :=
  let (response, w') := api query w.1 in
  (response, (w', (query, response) :: w.2)).

(** What a stretch of transcript accounts for: the request count grew by the
    number of exchanges, and the names by the answers. *)
Definition accounted (st : CrawlState) (log : list (string * list string))
  (st' : CrawlState) (log' : list (string * list string)) : Prop :=
  exists sent : list (string * list string),
    log' = (sent ++ log)%list /\
    request_count st' = (request_count st + Z.of_nat (length sent))%Z /\
    names st' = names st ∪ list_to_set (concat (map snd sent)).

(** A space somewhere in the string. *)
Definition has_space (s : string) : bool := str_contains " " s.

(** Every query of the stretch was paid for by exactly one new visited
    prefix, and the other way round. *)
Definition paid_exactly (st st' : CrawlState) : Prop :=
  (request_count st' + Z.of_nat (size (visited_prefixes st))
   = request_count st + Z.of_nat (size (visited_prefixes st')))%Z.

(** The simulated service with an empty transcript. *)
Definition transcript_env : Env (nat * list (string * list string)) :=
  {| world := (0%nat, []); checkpoint_file := None; results_file := None |}.

(** Forgetting the record kept beside the world. *)
Definition forget_record {W L : Type} (env : Env (W * L)) : Env W :=
  {| world := (world env).1;
     checkpoint_file := checkpoint_file env;
     results_file := results_file env |}.

Definition forget_run {W L : Type} (s : CrawlState * Env (W * L)) : CrawlState * Env W :=
  (s.1, forget_record s.2).

(** An environment with a record put beside its world. *)
Definition with_record {W L : Type} (env : Env W) (record : L) : Env (W * L) :=
  {| world := (world env, record);
     checkpoint_file := checkpoint_file env;
     results_file := results_file env |}.

(** The exchanges with the service during a call of [_dfs] and of
    [extract_names], oldest first: the transcript the call leaves when it
    starts with an empty one. *)
Definition dfs_exchanges {W : Type} (character_set : list string) (max_results : Z)
  (rate_limit : W -> W) (query_api : string -> W -> list string * W)
  (disk_fault : W -> io_fault * W) (fuel : nat) (prefix : string)
  (s : CrawlState * Env W) : option (list (string * list string)) :=
  (fun r => rev (world r.2).2) <$>
  _dfs character_set max_results (beside_wait rate_limit) (transcribed query_api)
    (beside_fault disk_fault) fuel prefix (s.1, with_record s.2 []).

Definition crawl_exchanges {W : Type} (version : string) (character_set : list string)
  (max_results : Z) (rate_limit : W -> W) (query_api : string -> W -> list string * W)
  (disk_fault : W -> io_fault * W) (fuel : nat)
  (s : CrawlState * Env W) : option (list (string * list string)) :=
  (fun r => rev (world r.2).2) <$>
  extract_names version character_set max_results (beside_wait rate_limit)
    (transcribed query_api) (beside_fault disk_fault) fuel (s.1, with_record s.2 []).

(** The text of a checkpoint. *)
Definition checkpoint_text (st : CrawlState) : string :=
  json_dumps None 0 (checkpoint_json st).

(** How far the checkpoint file lags behind between two moments of a crawl:
    either no multiple of 20 requests was reached and the file is what it
    was, or the file holds a state [saved] of the stretch whose request
    count is the last multiple of 20 reached. *)
Definition checkpoint_lag {W : Type} (st : CrawlState) (env : Env W)
  (st' : CrawlState) (env' : Env W) : Prop :=
  state_le st st' /\
  (((request_count st' / 20 = request_count st / 20)%Z /\
    checkpoint_file env' = checkpoint_file env) \/
   exists saved,
     checkpoint_file env' = Some (checkpoint_text saved) /\
     state_le st saved /\ state_le saved st' /\
     request_count saved = (20 * (request_count st' / 20))%Z).

(** The state and the environment at the end of the crawl of the simulated
    service over the characters ["c"] and ["d"]. *)
Definition small_crawl_state : CrawlState :=
  {| names := list_to_set ["car"; "cat"; "dog"; "do"];
     visited_prefixes := list_to_set ["cc"; "cd"; "c"; "dc"; "dd"; "d"];
     request_count := 6 |}.

Definition small_crawl_env : Env nat :=
  {| world := 2%nat;
     checkpoint_file := Some (checkpoint_text small_crawl_state);
     results_file := Some (json_dumps (Some 2%nat) 0 (results_json "v1" small_crawl_state)) |}.

(** ** Counting the traffic of the client *)

(** The network and the clock with two counters beside the world: the calls
    of [session.get] and the calls of [time.sleep] that returned. *)
Definition counted_get {W : Type} (http_get : string -> string -> W -> http_outcome * W)
  (url query : string) (w : W * (nat * nat)) : http_outcome * (W * (nat * nat)) :=
  let (outcome, w') := http_get url query w.1 in (outcome, (w', (S w.2.1, w.2.2))).

Definition counted_sleep {W : Type} (sleep : Z -> W -> option W)
  (seconds : Z) (w : W * (nat * nat)) : option (W * (nat * nat)) :=
  match sleep seconds w.1 with
  | Some w' => Some (w', (w.2.1, S w.2.2))
  | None => None
  end.

(** The numbers of requests sent and of sleeps completed by one call of
    [get_autocomplete_suggestions]. *)
Definition client_traffic {W : Type} (http_get : string -> string -> W -> http_outcome * W)
  (sleep : Z -> W -> option W) (base_url query version : string)
  (max_retries retry_delay : Z) (w : W) : nat * nat :=
  (get_autocomplete_suggestions (counted_get http_get) (counted_sleep sleep) base_url
     query version max_retries retry_delay (w, (0%nat, 0%nat))).2.2.

(** An outcome after which the loop goes on while attempts are left: an
    exception of [session.get], a 200 whose body [response.json()] cannot
    parse, or a 429. *)
Definition retryable (outcome : http_outcome) : bool :=
  match outcome with
  | Raises => true
  | Response status_code body _ =>
      if (status_code =? 200)%Z then
        match body with None => true | Some _ => false end
      else (status_code =? 429)%Z
  end.

(** A network that is down: every [session.get] raises. *)
Definition dead_get (url query : string) (w : nat) : http_outcome * nat := (Raises, S w).

(** A clock on which every sleep returns. *)
Definition easy_sleep (seconds : Z) (w : nat) : option nat := Some w.

(** ** Calls of the limiter in a row, and the limiters by version *)

Section LimiterCalls.

Context {W : Type}.
Variable time_time : W -> Q * W.
Variable time_sleep : Q -> W -> W.

(** [n] calls of [wait_if_needed] one after the other; beside the limiter,
    the timestamps the calls have appended, oldest first. *)
Fixpoint repeat_wait (n : nat) (rl : RateLimiter) (w : W) (appended : list Q)
  : option (RateLimiter * W * list Q) :=
  match n with
  | O => Some (rl, w, appended)
  | S n' =>
      match wait_if_needed time_time time_sleep rl w with
      | None => None
      | Some (rl', w') =>
          repeat_wait n' rl' w'
            (appended ++ match last (request_timestamps rl') with
                         | Some t => [t]
                         | None => []
                         end)
      end
  end.

(** A clock that has advanced whenever it is read. *)
Definition clock_ticks (now_of : W -> Q) : Prop :=
  forall w, (now_of w < (time_time w).1)%Q.

(** What holds between the calls of a limiter with limit [limit] and window
    [window]: the timestamps appended so far end with the deque; those that
    were dropped are older than the window; the deque has at most
    [limit + 1] entries, none in the future; and any two timestamps [limit]
    places apart are at least a window apart. *)
Definition limiter_invariant (now_of : W -> Q) (limit : nat) (window : Q)
  (rl : RateLimiter) (w : W) (appended : list Q) : Prop :=
  requests_per_minute rl = Z.of_nat limit /\
  window_size rl = window /\
  (length (request_timestamps rl) <= limit + 1)%nat /\
  Forall (fun t => (t <= now_of w)%Q) (request_timestamps rl) /\
  (exists dropped,
     appended = (dropped ++ request_timestamps rl)%list /\
     Forall (fun t => (t + window <= now_of w)%Q) dropped) /\
  (forall i a b,
     appended !! i = Some a -> appended !! (i + limit)%nat = Some b ->
     (a + window <= b)%Q).

(** [VersionedRateLimiter.wait_if_needed(version)] on the dictionary
    [self.limiters]: the limiter of the version, or the one of ["v2"] for a
    version that is no key; [None] is an exception (KeyError without a key
    ["v2"], or the IndexError of the limiter). *)
Definition versioned_wait_if_needed (version : string)
  (limiters : gmap string RateLimiter) (w : W)
  : option (gmap string RateLimiter * W) :=
  let key := match limiters !! version with
             | Some _ => version
             | None => "v2"
             end in
  match limiters !! key with
  | None => None
  | Some rl =>
      match wait_if_needed time_time time_sleep rl w with
      | None => None
      | Some (rl', w') => Some (<[key := rl']> limiters, w')
      end
  end.

(** One call for each version of a list, in order. *)
Fixpoint versioned_calls (versions : list string)
  (limiters : gmap string RateLimiter) (w : W)
  : option (gmap string RateLimiter * W) :=
  match versions with
  | [] => Some (limiters, w)
  | version :: rest =>
      match versioned_wait_if_needed version limiters w with
      | None => None
      | Some (limiters', w') => versioned_calls rest limiters' w'
      end
  end.

(** The same calls with, beside the world, the timestamps they have
    appended, each with the key of the limiter that was used. *)
Fixpoint versioned_repeat (versions : list string)
  (limiters : gmap string RateLimiter) (w : W) (appended : list (string * Q))
  : option (gmap string RateLimiter * W * list (string * Q)) :=
  match versions with
  | [] => Some (limiters, w, appended)
  | version :: rest =>
      match versioned_wait_if_needed version limiters w with
      | None => None
      | Some (limiters', w') =>
          let key := match limiters !! version with
                     | Some _ => version
                     | None => "v2"
                     end in
          versioned_repeat rest limiters' w'
            (appended ++ match limiters' !! key with
                         | Some rl =>
                             match last (request_timestamps rl) with
                             | Some t => [(key, t)]
                             | None => []
                             end
                         | None => []
                         end)
      end
  end.

(** The timestamps appended for one key. *)
Definition timestamps_of (key : string) (appended : list (string * Q)) : list Q :=
  map snd (filter (fun entry => entry.1 = key) appended).

(** Between the calls of the limiters by version: each limiter has kept its
    limit, and the invariant of its own calls holds. *)
Definition versioned_invariant (now_of : W -> Q) (limits : gmap string Z)
  (limiters : gmap string RateLimiter) (w : W) (appended : list (string * Q)) : Prop :=
  requests_per_minute <$> limiters = limits /\
  forall key rl,
    limiters !! key = Some rl ->
    limiter_invariant now_of (Z.to_nat (requests_per_minute rl)) 60 rl w
      (timestamps_of key appended).

End LimiterCalls.

(** [VersionedRateLimiter()]. *)
Definition new_versioned_limiter : gmap string RateLimiter :=
  {[ "v1" := new_limiter 100; "v2" := new_limiter 50; "v3" := new_limiter 80 ]}.

(** The limits of its three limiters. *)
Definition version_limits : gmap string Z :=
  {[ "v1" := 100%Z; "v2" := 50%Z; "v3" := 80%Z ]}.

(** A clock that takes a second to read: the world is the time. *)
Definition tick_time (now : Q) : Q * Q := ((now + 1)%Q, (now + 1)%Q).

(** ** Paths ([BaseExtractor._get_checkpoint_path], [_get_results_path]) *)

(** [os.path.join(a, b)] of [posixpath]: an absolute [b] replaces [a]; a
    separator is put between the two unless [a] is empty or ends with one. *)
Definition os_path_join (a b : string) : string :=
  if startswith "/" b then b
  else if String.eqb a EmptyString || endswith "/" a then a ++ b
  else a ++ "/" ++ b.

Definition _get_checkpoint_path (checkpoint_dir version : string) : string :=
  os_path_join checkpoint_dir (version ++ "_checkpoint.json").

Definition _get_results_path (results_dir version : string) : string :=
  os_path_join results_dir (version ++ "_names.json").

(** ** The driver ([main.py]) *)

(** The keys of the dictionary [extractors] of [main]. *)
Definition extractors : list string := ["v1"; "v2"; "v3"].

(** [s.split(sep)] for a separator of one character. *)
Fixpoint str_split (sep : ascii) (s : string) : list string :=
  match s with
  | EmptyString => [EmptyString]
  | String c rest =>
      if Ascii.eqb c sep then EmptyString :: str_split sep rest
      else match str_split sep rest with
           | piece :: pieces => String c piece :: pieces
           | [] => [String c EmptyString]
           end
  end.

(** [data[key]] with a string key: [None] is the KeyError of an object
    without the key, or the TypeError of any other value. *)
Definition subscript (key : string) (data : json) : option json :=
  match data with
  | JObj fields => obj_get key fields
  | _ => None
  end.

(** [total += v] for an [int] total: a boolean counts as 0 or 1; [None], a
    string, a list or an object raise TypeError. *)
Definition py_add (total : Z) (v : json) : py Z :=
  match v with
  | JNum n => Val (total + n)%Z
  | JBool b => Val (total + (if b then 1 else 0))%Z
  | _ => Exn
  end.

(** One turn of the aggregation loop of [main] for a version that is a key
    of [extractors], on what is found at its results path: nothing (the turn
    is skipped), a file that [open] or [json.load] fails on (no handler: the
    exception leaves [main]), or a document. *)
Definition aggregate_one (found : checkpoint_read) (totals : gset string * Z)
  : py (gset string * Z) :=
  match found with
  | NoCheckpoint => Val totals
  | ReadFails => Exn
  | Parsed data =>
      match subscript "names" data with
      | None => Exn
      | Some listed =>
          match py_set listed with
          | Exn => Exn
          | Foreign => Foreign
          | Val more =>
              match subscript "request_count" data with
              | None => Exn
              | Some count =>
                  match py_add totals.2 count with
                  | Val total_requests => Val (totals.1 ∪ more, total_requests)
                  | Exn => Exn
                  | Foreign => Foreign
                  end
              end
          end
      end
  end.

(** The aggregation loop of [main]: [files] is what the disk holds at each
    path. *)
Fixpoint aggregate (files : string -> checkpoint_read) (results_dir : string)
  (versions : list string) (totals : gset string * Z) : py (gset string * Z) :=
  match versions with
  | [] => Val totals
  | version :: rest =>
      if bool_decide (version ∈ extractors) then
        match aggregate_one (files (os_path_join results_dir (version ++ "_names.json")))
                totals with
        | Val totals' => aggregate files results_dir rest totals'
        | Exn => Exn
        | Foreign => Foreign
        end
      else aggregate files results_dir rest totals
  end.

(** A disk that holds, at the results path of each version, the document
    [_save_results] builds from the state [saved] gives for the version, and
    no file where it gives none. *)
Definition results_on_disk (results_dir : string) (saved : string -> option CrawlState)
  (files : string -> checkpoint_read) : Prop :=
  forall version,
    version ∈ extractors ->
    files (_get_results_path results_dir version)
    = match saved version with
      | Some st => Parsed (results_json version st)
      | None => NoCheckpoint
      end.

(** The states of the versions of a list that are keys of [extractors] and
    have a results file, one per occurrence. *)
Definition aggregated (saved : string -> option CrawlState) (versions : list string)
  : list CrawlState :=
  omap saved (filter (fun version => version ∈ extractors) versions).

(** A disk with the results of two versions. *)
Definition two_results (version : string) : option CrawlState :=
  if String.eqb version "v1" then Some small_crawl_state
  else if String.eqb version "v3" then
    Some {| names := list_to_set ["dog"; "eel"]; visited_prefixes := ∅; request_count := 4 |}
  else None.

Definition two_results_disk (path : string) : checkpoint_read :=
  if String.eqb path "data/results/v1_names.json" then
    Parsed (results_json "v1" small_crawl_state)
  else if String.eqb path "data/results/v3_names.json" then
    Parsed (results_json "v3"
              {| names := list_to_set ["dog"; "eel"]; visited_prefixes := ∅;
                 request_count := 4 |})
  else NoCheckpoint.

(** ** Resuming *)

(** What a crawl that starts from state [st] can reach: everything below the
    characters of the set that [st] has not visited. *)
Definition open_roots (character_set : list string) (st : CrawlState) : list string :=
  filter (fun root => root ∉ visited_prefixes st) character_set.

Definition resume_reach (character_set : list string) (st : CrawlState) : list string :=
  flat_map (fun root => reach character_set (max_prefix_length - len root) root)
    (open_roots character_set st).

(** The state of a checkpoint written while the crawl of the simulated
    service was below ["c"]. *)
Definition interrupted_state : CrawlState :=
  {| names := list_to_set ["cat"; "car"];
     visited_prefixes := list_to_set ["c"];
     request_count := 1 |}.

(** The state at the end of the crawl resumed from it. *)
Definition resumed_state : CrawlState :=
  {| names := list_to_set ["cat"; "car"; "dog"; "do"];
     visited_prefixes := list_to_set ["dc"; "dd"; "d"; "c"];
     request_count := 4 |}.

(** ** What a traversal asked, and what the client heard *)

(** What a stretch of transcript explains of the visited prefixes: every
    prefix visited at its end was visited at its start, or is one the
    filters reject, or was sent to the service during the stretch. *)
Definition explored (st : CrawlState) (log : list (string * list string))
  (st' : CrawlState) (log' : list (string * list string)) : Prop :=
  exists sent : list (string * list string),
    log' = (sent ++ log)%list /\
    forall query,
      query ∈ visited_prefixes st' ->
      query ∈ visited_prefixes st \/ rejected query = true \/ query ∈ map fst sent.

(** The network with, beside the world, the outcomes [session.get] has
    given so far, newest first. *)
Definition heard_get {W : Type} (http_get : string -> string -> W -> http_outcome * W)
  (url query : string) (w : W * list http_outcome) : http_outcome * (W * list http_outcome) :=
  let (outcome, w') := http_get url query w.1 in (outcome, (w', outcome :: w.2)).

Definition heard_sleep {W : Type} (sleep : Z -> W -> option W)
  (seconds : Z) (w : W * list http_outcome) : option (W * list http_outcome) :=
  match sleep seconds w.1 with
  | Some w' => Some (w', w.2)
  | None => None
  end.

(** The outcomes one call of [get_autocomplete_suggestions] was given,
    newest first. *)
Definition client_heard {W : Type} (http_get : string -> string -> W -> http_outcome * W)
  (sleep : Z -> W -> option W) (base_url query version : string)
  (max_retries retry_delay : Z) (w : W) : list http_outcome :=
  (get_autocomplete_suggestions (heard_get http_get) (heard_sleep sleep) base_url
     query version max_retries retry_delay (w, [])).2.2.

(** What the call returns for the parsed body of a response with status 200:
    a list as it is, of an object the field the chain selects, of anything
    else the empty list. *)
Definition payload_value (body : json) : json :=
  match body with
  | JArr items => JArr items
  | JObj data => select_field data
  | _ => JArr []
  end.

(** * Properties *)

(** ** Strings *)

Lemma append_cons c (s t : string) : String c s ++ t = String c (s ++ t).
Proof. reflexivity. Qed.

Lemma append_empty_r (s : string) : s ++ EmptyString = s.
Proof. induction s as [|c s IH]; [done|]. by rewrite append_cons, IH. Qed.

Lemma append_assoc (a b c : string) : (a ++ b) ++ c = a ++ b ++ c.
Proof. induction a as [|x a IH]; [done|]. by rewrite !append_cons, IH. Qed.

Lemma len_append (s t : string) : len (s ++ t) = (len s + len t)%nat.
Proof.
  unfold len. induction s as [|c s IH]; [done|].
  rewrite append_cons. simpl. by rewrite IH.
Qed.

Lemma len_append_grows (s t : string) : s ++ t ≠ s -> (len s < len (s ++ t))%nat.
Proof.
  intros Hne. rewrite len_append. destruct t as [|c t]; simpl.
  - by rewrite append_empty_r in Hne.
  - lia.
Qed.

(** [String.prefix], [startswith], [in] and [endswith] say what their names
    say. *)
Lemma prefix_spec (p s : string) : String.prefix p s = true <-> exists b, s = p ++ b.
Proof.
  revert s. induction p as [|c p IH]; intros s.
  - destruct s; simpl; (split; [eauto|done]).
  - destruct s as [|d s]; simpl.
    + split; [done|]. by intros [b Hb].
    + destruct (ascii_dec c d) as [->|Hcd].
      * rewrite IH. split; intros [b Hb]; exists b.
        -- by rewrite append_cons, <- Hb.
        -- rewrite append_cons in Hb. by inversion Hb.
      * split; [done|]. intros [b Hb]. rewrite append_cons in Hb. by inversion Hb.
Qed.

Lemma str_contains_cons (needle : string) c (hay : string) :
  str_contains needle (String c hay)
  = String.prefix needle (String c hay) || str_contains needle hay.
Proof. reflexivity. Qed.

Lemma str_contains_spec (needle hay : string) :
  str_contains needle hay = true <-> exists a b, hay = a ++ needle ++ b.
Proof.
  induction hay as [|c hay IH].
  - change (str_contains needle EmptyString) with (String.prefix needle EmptyString || false).
    rewrite orb_false_r, prefix_spec. split.
    + intros [b Hb]. by exists EmptyString, b.
    + intros (a & b & Hab). destruct a; [by exists b|done].
  - rewrite str_contains_cons, orb_true_iff, prefix_spec, IH. split.
    + intros [[b Hb]|(a & b & Hab)].
      * by exists EmptyString, b.
      * exists (String c a), b. by rewrite append_cons, <- Hab.
    + intros (a & b & Hab). destruct a as [|d a].
      * left. by exists b.
      * right. rewrite append_cons in Hab. inversion Hab; subst. by exists a, b.
Qed.

Lemma endswith_cons (p : string) c (s : string) :
  endswith p (String c s) = String.eqb p (String c s) || endswith p s.
Proof. reflexivity. Qed.

Lemma endswith_spec (p s : string) : endswith p s = true <-> exists a, s = a ++ p.
Proof.
  induction s as [|c s IH].
  - change (endswith p EmptyString) with (String.eqb p EmptyString || false).
    rewrite orb_false_r, String.eqb_eq. split.
    + intros ->. by exists EmptyString.
    + intros [a Ha]. destruct a; [done|]. by rewrite append_cons in Ha.
  - rewrite endswith_cons, orb_true_iff, String.eqb_eq, IH. split.
    + intros [->|[a Ha]]; [by exists EmptyString|].
      exists (String c a). by rewrite append_cons, <- Ha.
    + intros [a Ha]. destruct a as [|d a].
      * left. done.
      * right. rewrite append_cons in Ha. inversion Ha; subst. by exists a.
Qed.

(** The second filter, in the words of the specification: a space at either
    end and a length other than one. *)
Lemma has_boundary_space_spec (prefix : string) :
  has_boundary_space prefix = true <->
  ((exists b, prefix = " " ++ b) \/ (exists a, prefix = a ++ " ")) /\ len prefix ≠ 1%nat.
Proof.
  unfold has_boundary_space, startswith.
  rewrite andb_true_iff, orb_true_iff, prefix_spec, endswith_spec, Nat.ltb_lt.
  split; intros [Hspace Hlen]; (split; [done|]).
  - lia.
  - enough (1 <= len prefix)%nat by lia.
    destruct Hspace as [[b ->]|[a ->]]; rewrite len_append; simpl; lia.
Qed.

Lemma rejected_spec (prefix : string) :
  rejected prefix = true <->
  (exists a b, prefix = a ++ "  " ++ b) \/
  ((exists b, prefix = " " ++ b) \/ (exists a, prefix = a ++ " ")) /\ len prefix ≠ 1%nat.
Proof.
  unfold rejected, has_double_space.
  by rewrite orb_true_iff, str_contains_spec, has_boundary_space_spec.
Qed.

(** A prefix of one character passes both filters. *)
Lemma single_char_not_rejected (c : ascii) : rejected (String c EmptyString) = false.
Proof.
  apply not_true_iff_false. rewrite rejected_spec. intros [(a & b & Hab)|[_ Hlen]].
  - apply (f_equal len) in Hab. rewrite !len_append in Hab. simpl in Hab. lia.
  - done.
Qed.


(** ** Loops *)

Section ForEach.

Context {A S : Type}.
Implicit Types (l : list A) (body : A -> S -> option S).

(** An invariant of the body, for the elements of the list, is one of the loop. *)
Lemma for_each_invariant (P : S -> Prop) l body s s' :
  (forall x a a', x ∈ l -> P a -> body x a = Some a' -> P a') ->
  P s -> for_each l body s = Some s' -> P s'.
Proof.
  revert s. induction l as [|x l IH]; intros s Hbody Hs Hrun; simpl in Hrun.
  - by inversion Hrun; subst.
  - destruct (body x s) as [a|] eqn:Hx; [|done].
    apply (IH a); [|by eapply Hbody; [left| |]|done].
    intros y b b' Hy. apply Hbody. by right.
Qed.

(** The loop returns when its body does, under an invariant. *)
Lemma for_each_returns (P : S -> Prop) l body s :
  (forall x a, x ∈ l -> P a -> exists a', body x a = Some a' /\ P a') ->
  P s -> exists s', for_each l body s = Some s' /\ P s'.
Proof.
  revert s. induction l as [|x l IH]; intros s Hbody Hs; simpl.
  - eauto.
  - destruct (Hbody x s) as (a & -> & Ha); [by left|done|].
    apply IH; [|done]. intros y b Hy. apply Hbody. by right.
Qed.

(** Two bodies that agree wherever the first returns run the same loop. *)
Lemma for_each_agree l body body' s s' :
  (forall x a a', x ∈ l -> body x a = Some a' -> body' x a = Some a') ->
  for_each l body s = Some s' -> for_each l body' s = Some s'.
Proof.
  revert s. induction l as [|x l IH]; intros s Hbody Hrun; simpl in *; [done|].
  destruct (body x s) as [a|] eqn:Hx; [|done].
  rewrite (Hbody x s a); [|by left|done].
  apply IH; [|done]. intros y b b' Hy. apply Hbody. by right.
Qed.

(** A loop that skips the elements failing a test is the loop over the
    elements that pass it. *)
Lemma for_each_filter {B : Type} (f : A -> B) (keep : B -> bool)
  (run : B -> S -> option S) l s :
  for_each l (fun x acc => if keep (f x) then run (f x) acc else Some acc) s
  = for_each (List.filter keep (map f l)) run s.
Proof.
  revert s. induction l as [|x l IH]; intros s; simpl; [done|].
  destruct (keep (f x)); simpl; [|by apply IH].
  destruct (run (f x) s); [by apply IH|done].
Qed.

End ForEach.

(** A loop seen through a map of its state. *)
Lemma for_each_map {A S S' : Type} (f : S -> S') (l : list A)
  (body : A -> S -> option S) (body' : A -> S' -> option S') (s : S) :
  (forall x a, f <$> body x a = body' x (f a)) ->
  f <$> for_each l body s = for_each l body' (f s).
Proof.
  intros Hbody. revert s. induction l as [|x l IH]; intros s; simpl; [done|].
  rewrite <- Hbody. destruct (body x s) as [a|]; simpl; [apply IH|done].
Qed.

(** ** Growth of the crawl state *)

Lemma state_le_refl st : state_le st st.
Proof. unfold state_le. split_and!; [done|done|lia]. Qed.

Lemma state_le_trans a b c : state_le a b -> state_le b c -> state_le a c.
Proof.
  intros (?&?&?) (?&?&?). unfold state_le. split_and!; [set_solver|set_solver|lia].
Qed.

Lemma mark_visited_le prefix st : state_le st (mark_visited prefix st).
Proof. unfold state_le, mark_visited; simpl. split_and!; [done|set_solver|lia]. Qed.

Section ExtractorFacts.

Context {W : Type}.
Variable version : string.
Variable character_set : list string.
Variable max_results : Z.
Variable rate_limit : W -> W.
Variable query_api : string -> W -> list string * W.
Variable disk_fault : W -> io_fault * W.

Local Abbreviation suggest := (get_suggestions rate_limit query_api disk_fault).
Local Abbreviation dfs := (_dfs character_set max_results rate_limit query_api disk_fault).
Local Abbreviation crawl := (extract_names version character_set max_results rate_limit query_api disk_fault).

Implicit Types (st : CrawlState) (env : Env W) (prefix : string).

(** What one query does to the state. *)
Lemma get_suggestions_state query st env :
  (suggest query st env).1.2
  = {| names := names st ∪ list_to_set (query_api query (rate_limit (world env))).1;
       visited_prefixes := visited_prefixes st ∪ {[ query ]};
       request_count := request_count st + 1 |}.
Proof. unfold get_suggestions. by destruct (query_api query (rate_limit (world env))). Qed.

Lemma get_suggestions_response query st env :
  (suggest query st env).1.1 = (query_api query (rate_limit (world env))).1.
Proof. unfold get_suggestions. by destruct (query_api query (rate_limit (world env))). Qed.

Lemma get_suggestions_le query st env : state_le st (suggest query st env).1.2.
Proof.
  rewrite get_suggestions_state. unfold state_le; simpl.
  split_and!; [set_solver|set_solver|lia].
Qed.

Lemma get_suggestions_visited query st env :
  query ∈ visited_prefixes (suggest query st env).1.2.
Proof. rewrite get_suggestions_state; simpl. set_solver. Qed.

(** The body of [_dfs], one level unfolded. *)
Lemma dfs_unfold fuel prefix st env :
  dfs (S fuel) prefix (st, env) =
  if bool_decide (prefix ∈ visited_prefixes st) then Some (st, env)
  else if rejected prefix then Some (mark_visited prefix st, env)
  else
    let r := suggest prefix (mark_visited prefix st) env in
    if (max_results <=? Z.of_nat (length r.1.1))%Z then
      for_each character_set
        (fun char acc =>
           if (len (prefix ++ char) <=? max_prefix_length)%nat
           then dfs fuel (prefix ++ char) acc else Some acc)
        (r.1.2, r.2)
    else Some (r.1.2, r.2).
Proof.
  simpl. case_bool_decide; [done|]. unfold rejected.
  destruct (has_double_space prefix); simpl; [done|].
  destruct (has_boundary_space prefix); simpl; [done|].
  by destruct (suggest prefix (mark_visited prefix st) env) as [[? ?] ?].
Qed.

(** [_dfs] only adds to the state. *)
Lemma dfs_le fuel : forall prefix st env st' env',
  dfs fuel prefix (st, env) = Some (st', env') -> state_le st st'.
Proof.
  induction fuel as [|fuel IH]; intros prefix st env st' env' Hrun; [done|].
  rewrite dfs_unfold in Hrun.
  case_bool_decide.
  { inversion Hrun; subst. apply state_le_refl. }
  destruct (rejected prefix).
  { inversion Hrun; subst. apply mark_visited_le. }
  set (r := suggest prefix (mark_visited prefix st) env) in *.
  assert (state_le st r.1.2) as Hr.
  { eapply state_le_trans; [apply (mark_visited_le prefix)|apply get_suggestions_le]. }
  simpl in Hrun.
  destruct (max_results <=? Z.of_nat (length r.1.1))%Z.
  - revert Hrun.
    apply (for_each_invariant (fun s => state_le st s.1) _ _ (r.1.2, r.2) (st', env')); [|done].
    intros char [a e] [a' e'] _ Ha Hbody; simpl in *.
    destruct (len (prefix ++ char) <=? max_prefix_length)%nat.
    + eapply state_le_trans; [exact Ha|by eapply IH].
    + by inversion Hbody; subst.
  - by inversion Hrun; subst.
Qed.

(** More fuel never changes a result. *)
Lemma dfs_fuel_S fuel : forall prefix s r,
  dfs fuel prefix s = Some r -> dfs (S fuel) prefix s = Some r.
Proof.
  induction fuel as [|fuel IH]; intros prefix [st env] r Hrun; [done|].
  rewrite dfs_unfold in Hrun. rewrite dfs_unfold.
  case_bool_decide; [done|].
  destruct (rejected prefix); [done|].
  simpl in *.
  destruct (max_results <=? Z.of_nat _)%Z; [|done].
  revert Hrun. apply for_each_agree.
  intros char a a' _. destruct (len (prefix ++ char) <=? max_prefix_length)%nat; [|done].
  apply IH.
Qed.

Lemma dfs_fuel_le fuel fuel' prefix s r :
  (fuel <= fuel')%nat -> dfs fuel prefix s = Some r -> dfs fuel' prefix s = Some r.
Proof.
  induction 1 as [|m _ IH]; [done|]. intros Hrun. by apply dfs_fuel_S, IH.
Qed.

(** [_dfs] returns: at once on a visited prefix, and within a call stack of
    depth [2 + (10 - len prefix)] otherwise. *)
Lemma dfs_returns fuel : forall prefix st env,
  (prefix ∈ visited_prefixes st /\ 1 <= fuel \/
   2 + (max_prefix_length - len prefix) <= fuel)%nat ->
  exists st' env', dfs fuel prefix (st, env) = Some (st', env').
Proof.
  induction fuel as [|fuel IH]; intros prefix st env Hfuel.
  { exfalso. destruct Hfuel as [[_ ?]|?]; lia. }
  rewrite dfs_unfold.
  case_bool_decide as Hvisited; [by eauto|].
  destruct Hfuel as [[? _]|Hfuel]; [done|].
  destruct (rejected prefix); [by eauto|].
  simpl. set (r := suggest prefix (mark_visited prefix st) env).
  destruct (max_results <=? Z.of_nat _)%Z; [|by eauto].
  destruct (for_each_returns (fun s => prefix ∈ visited_prefixes s.1) character_set
    (fun char acc =>
       if (len (prefix ++ char) <=? max_prefix_length)%nat
       then dfs fuel (prefix ++ char) acc else Some acc) (r.1.2, r.2))
    as ([st' env'] & Hrun & _); [| |by eauto].
  - intros char [a e] _ Ha; simpl in Ha.
    destruct (len (prefix ++ char) <=? max_prefix_length)%nat eqn:Hlen; [|by eauto].
    apply Nat.leb_le in Hlen.
    destruct (IH (prefix ++ char) a e) as (a' & e' & Hchild).
    + destruct (decide (prefix ++ char = prefix)) as [->|Hne].
      * left. split; [done|lia].
      * right. apply len_append_grows in Hne. lia.
    + exists (a', e'). split; [done|]. simpl.
      apply dfs_le in Hchild. destruct Hchild as (_ & Hsub & _). set_solver.
  - simpl. subst r. rewrite get_suggestions_state. simpl. set_solver.
Qed.

(** The total traversal: every call returns within [dfs_depth]. *)
Lemma dfs_total k prefix s : exists r, dfs (dfs_depth + k) prefix s = Some r.
Proof.
  destruct s as [st env].
  destruct (dfs_returns (dfs_depth + k) prefix st env) as (st' & env' & Hrun).
  - right. unfold dfs_depth. lia.
  - eauto.
Qed.

(** *** The prefixes a traversal can visit *)

Lemma reach_head depth prefix : prefix ∈ reach character_set depth prefix.
Proof. destruct depth; simpl; by left. Qed.

Lemma reach_mono depth : forall depth' prefix,
  (depth <= depth')%nat ->
  reach character_set depth prefix ⊆ reach character_set depth' prefix.
Proof.
  induction depth as [|depth IH]; intros depth' prefix Hle q Hq.
  - simpl in Hq. apply list_elem_of_singleton in Hq as ->. apply reach_head.
  - destruct depth' as [|depth']; [lia|]. simpl in *.
    apply elem_of_cons in Hq as [->|Hq]; [by left|]. right.
    apply list_elem_of_In, in_flat_map in Hq as (char & Hchar & Hq).
    apply list_elem_of_In, in_flat_map. exists char. split; [done|].
    apply list_elem_of_In. apply (IH depth'); [lia|]. by apply list_elem_of_In.
Qed.

(** What a child can reach, its parent can. *)
Lemma reach_child prefix char :
  char ∈ character_set ->
  (len (prefix ++ char) <= max_prefix_length)%nat ->
  reach character_set (max_prefix_length - len (prefix ++ char)) (prefix ++ char)
  ⊆ reach character_set (max_prefix_length - len prefix) prefix.
Proof.
  intros Hchar Hlen.
  destruct (decide (prefix ++ char = prefix)) as [->|Hne]; [done|].
  apply len_append_grows in Hne.
  destruct (max_prefix_length - len prefix)%nat as [|depth] eqn:Hdepth; [lia|].
  intros q Hq. simpl. right.
  apply list_elem_of_In, in_flat_map. exists char.
  split; [by apply list_elem_of_In|]. apply list_elem_of_In.
  revert q Hq. apply reach_mono. lia.
Qed.

Lemma flat_map_length_const {A B : Type} (f : A -> list B) (n : nat) (l : list A) :
  (forall x, length (f x) = n) -> length (flat_map f l) = (length l * n)%nat.
Proof.
  intros Hf. induction l as [|x l IH]; simpl; [done|].
  by rewrite length_app, Hf, IH.
Qed.

Lemma reach_length depth : forall prefix,
  length (reach character_set depth prefix) = geometric (length character_set) depth.
Proof.
  induction depth as [|depth IH]; intros prefix; simpl; [done|]. f_equal.
  apply flat_map_length_const. intros char. apply IH.
Qed.

Lemma geometric_mono k n m : (n <= m)%nat -> (geometric k n <= geometric k m)%nat.
Proof.
  revert m. induction n as [|n IH]; intros m Hle.
  - destruct m; simpl; lia.
  - destruct m as [|m]; [lia|]. simpl. specialize (IH m ltac:(lia)). nia.
Qed.

(** [1 + k + ... + k^n] is at most [(n + 1) * k^n] once [k] is positive. *)
Lemma geometric_power k n : (geometric (Nat.max 1 k) n <= (n + 1) * Nat.max 1 k ^ n)%nat.
Proof.
  induction n as [|n IH]; simpl; [lia|].
  assert (1 <= Nat.max 1 k ^ n)%nat.
  { clear IH. induction n; simpl; [lia|nia]. }
  nia.
Qed.

Lemma geometric_le k k' n : (k <= k')%nat -> (geometric k n <= geometric k' n)%nat.
Proof. intros Hk. induction n as [|n IH]; simpl; [lia|nia]. Qed.

Lemma size_list_to_set_le (l : list string) : (size (list_to_set l : gset string) <= length l)%nat.
Proof.
  induction l as [|x l IH].
  - change (size (∅ : gset string) <= 0)%nat. by rewrite size_empty.
  - change (size ({[x]} ∪ list_to_set l : gset string) <= S (length l))%nat.
    rewrite size_union_alt, size_singleton.
    pose proof (subseteq_size (list_to_set l ∖ {[x]}) (list_to_set l : gset string)
                  ltac:(set_solver)). lia.
Qed.

(** Everything [_dfs] marks visited is reachable from its prefix. *)
Lemma dfs_visits fuel : forall prefix st env st' env',
  dfs fuel prefix (st, env) = Some (st', env') ->
  visited_prefixes st' ⊆
  visited_prefixes st ∪ list_to_set (reach character_set (max_prefix_length - len prefix) prefix).
Proof.
  induction fuel as [|fuel IH]; intros prefix st env st' env' Hrun; [done|].
  rewrite dfs_unfold in Hrun.
  pose proof (reach_head (max_prefix_length - len prefix) prefix) as Hhead.
  case_bool_decide.
  { inversion Hrun; subst. set_solver. }
  destruct (rejected prefix).
  { inversion Hrun; subst. simpl. set_solver. }
  simpl in Hrun. set (r := suggest prefix (mark_visited prefix st) env) in *.
  assert (visited_prefixes r.1.2 ⊆ visited_prefixes st ∪
            list_to_set (reach character_set (max_prefix_length - len prefix) prefix)) as Hr.
  { subst r. rewrite get_suggestions_state. simpl. set_solver. }
  destruct (max_results <=? Z.of_nat _)%Z; [|by inversion Hrun; subst].
  revert Hrun.
  apply (for_each_invariant
    (fun s => visited_prefixes s.1 ⊆ visited_prefixes st ∪
       list_to_set (reach character_set (max_prefix_length - len prefix) prefix))
    _ _ (r.1.2, r.2) (st', env')); [|done].
  intros char [a e] [a' e'] Hchar Ha Hbody; simpl in *.
  destruct (len (prefix ++ char) <=? max_prefix_length)%nat eqn:Hlen.
  - apply Nat.leb_le in Hlen. apply IH in Hbody.
    pose proof (reach_child prefix char Hchar Hlen). set_solver.
  - by inversion Hbody; subst.
Qed.

(** The number of prefixes one traversal adds to the visited set. *)
Lemma dfs_visits_size fuel prefix st env st' env' :
  dfs fuel prefix (st, env) = Some (st', env') ->
  (size (visited_prefixes st' ∖ visited_prefixes st)
   <= geometric (length character_set) max_prefix_length)%nat.
Proof.
  intros Hrun. apply dfs_visits in Hrun.
  etrans; [apply (subseteq_size _
    (list_to_set (reach character_set (max_prefix_length - len prefix) prefix)));
    set_solver|].
  etrans; [apply size_list_to_set_le|].
  rewrite reach_length. apply geometric_mono. lia.
Qed.

(** *** Queries and visited prefixes *)

Lemma paid_for_refl st : paid_for st st.
Proof. unfold paid_for. lia. Qed.

Lemma paid_for_trans a b c : paid_for a b -> paid_for b c -> paid_for a c.
Proof. unfold paid_for. lia. Qed.

Lemma size_add_new (X : gset string) (x : string) :
  x ∉ X -> size (X ∪ {[x]}) = S (size X).
Proof. intros Hx. rewrite size_union, size_singleton; [lia|set_solver]. Qed.

Lemma dfs_paid_for fuel : forall prefix st env st' env',
  dfs fuel prefix (st, env) = Some (st', env') -> paid_for st st'.
Proof.
  induction fuel as [|fuel IH]; intros prefix st env st' env' Hrun; [done|].
  rewrite dfs_unfold in Hrun.
  case_bool_decide as Hvisited.
  { inversion Hrun; subst. apply paid_for_refl. }
  destruct (rejected prefix).
  { inversion Hrun; subst. unfold paid_for, mark_visited; simpl.
    rewrite size_add_new by done. lia. }
  simpl in Hrun. set (r := suggest prefix (mark_visited prefix st) env) in *.
  assert (paid_for st r.1.2) as Hr.
  { subst r. rewrite get_suggestions_state. unfold paid_for; simpl.
    replace (visited_prefixes st ∪ {[prefix]} ∪ {[prefix]})
      with (visited_prefixes st ∪ {[prefix]}) by set_solver.
    rewrite size_add_new by done. lia. }
  destruct (max_results <=? Z.of_nat _)%Z; [|by inversion Hrun; subst].
  revert Hrun.
  apply (for_each_invariant (fun s => paid_for st s.1) _ _ (r.1.2, r.2) (st', env')); [|done].
  intros char [a e] [a' e'] _ Ha Hbody; simpl in *.
  destruct (len (prefix ++ char) <=? max_prefix_length)%nat.
  - eapply paid_for_trans; [exact Ha|by eapply IH].
  - by inversion Hbody; subst.
Qed.

(** The number of queries one traversal sends. *)
Lemma dfs_requests fuel prefix st env st' env' :
  dfs fuel prefix (st, env) = Some (st', env') ->
  (request_count st' - request_count st
   <= Z.of_nat (geometric (length character_set) max_prefix_length))%Z.
Proof.
  intros Hrun.
  pose proof (dfs_paid_for _ _ _ _ _ _ Hrun) as Hpaid.
  pose proof (dfs_visits_size _ _ _ _ _ _ Hrun) as Hsize.
  pose proof (dfs_le _ _ _ _ _ _ Hrun) as (_ & Hsub & _).
  rewrite size_difference in Hsize by done.
  apply subseteq_size in Hsub. unfold paid_for in Hpaid. lia.
Qed.

(** *** The whole crawl *)

Lemma extract_names_returns k s : exists r, crawl (dfs_depth + k) s = Some r.
Proof.
  unfold extract_names.
  destruct (for_each_returns (fun _ => True) character_set
    (fun char acc =>
       if bool_decide (char ∈ visited_prefixes acc.1) then Some acc
       else dfs (dfs_depth + k) char acc) s) as ([st env] & -> & _); [|done|by eauto].
  intros char a _ _. case_bool_decide; [by eauto|].
  destruct (dfs_total k char a) as [a' ->]. eauto.
Qed.

Lemma extract_names_le fuel st env st' env' :
  crawl fuel (st, env) = Some (st', env') -> state_le st st'.
Proof.
  unfold extract_names. intros Hrun.
  destruct (for_each _ _ _) as [[st1 env1]|] eqn:Hloop; [|done].
  inversion Hrun; subst. revert Hloop.
  apply (for_each_invariant (fun s => state_le st s.1) _ _ (st, env) (st', env1));
    [|apply state_le_refl].
  intros char [a e] [a' e'] _ Ha Hbody; simpl in *.
  case_bool_decide; [by inversion Hbody; subst|].
  eapply state_le_trans; [exact Ha|by eapply dfs_le].
Qed.

Lemma reach_extension depth prefix char :
  char ∈ character_set -> prefix ++ char ∈ reach character_set (S depth) prefix.
Proof.
  intros Hchar. simpl. right. apply list_elem_of_In, in_flat_map. exists char.
  split; [by apply list_elem_of_In|]. apply list_elem_of_In, reach_head.
Qed.

(** Every traversal the crawl starts stays within what the empty prefix
    reaches. *)
Lemma reach_root char :
  char ∈ character_set ->
  reach character_set (max_prefix_length - len char) char
  ⊆ reach character_set max_prefix_length EmptyString.
Proof.
  intros Hchar.
  destruct (Nat.le_gt_cases (len char) max_prefix_length) as [Hlen|Hlen].
  - apply (reach_child EmptyString char Hchar Hlen).
  - replace (max_prefix_length - len char)%nat with 0%nat by lia.
    intros q ->%list_elem_of_singleton.
    exact (reach_extension 9 EmptyString char Hchar).
Qed.

Lemma extract_names_visits fuel st env st' env' :
  crawl fuel (st, env) = Some (st', env') ->
  visited_prefixes st' ⊆
  visited_prefixes st ∪ list_to_set (reach character_set max_prefix_length EmptyString).
Proof.
  unfold extract_names. intros Hrun.
  destruct (for_each _ _ _) as [[st1 env1]|] eqn:Hloop; [|done].
  inversion Hrun; subst. revert Hloop.
  apply (for_each_invariant
    (fun s => visited_prefixes s.1 ⊆ visited_prefixes st ∪
       list_to_set (reach character_set max_prefix_length EmptyString))
    _ _ (st, env) (st', env1)); [|set_solver].
  intros char [a e] [a' e'] Hchar Ha Hbody; cbn [fst snd] in *.
  case_bool_decide; [by inversion Hbody; subst|].
  apply dfs_visits in Hbody. pose proof (reach_root char Hchar). set_solver.
Qed.

Lemma extract_names_paid_for fuel st env st' env' :
  crawl fuel (st, env) = Some (st', env') -> paid_for st st'.
Proof.
  unfold extract_names. intros Hrun.
  destruct (for_each _ _ _) as [[st1 env1]|] eqn:Hloop; [|done].
  inversion Hrun; subst. revert Hloop.
  apply (for_each_invariant (fun s => paid_for st s.1) _ _ (st, env) (st', env1));
    [|apply paid_for_refl].
  intros char [a e] [a' e'] _ Ha Hbody; cbn [fst snd] in *.
  case_bool_decide; [by inversion Hbody; subst|].
  eapply paid_for_trans; [exact Ha|by eapply dfs_paid_for].
Qed.

(** The prefixes a whole crawl adds, and the queries it sends. *)
Lemma extract_names_bounds fuel st env st' env' :
  crawl fuel (st, env) = Some (st', env') ->
  (size (visited_prefixes st' ∖ visited_prefixes st)
   <= geometric (length character_set) max_prefix_length)%nat /\
  (request_count st' - request_count st
   <= Z.of_nat (geometric (length character_set) max_prefix_length))%Z.
Proof.
  intros Hrun.
  pose proof (extract_names_visits _ _ _ _ _ Hrun) as Hvisits.
  pose proof (extract_names_paid_for _ _ _ _ _ Hrun) as Hpaid.
  pose proof (extract_names_le _ _ _ _ _ Hrun) as (_ & Hsub & _).
  assert (size (visited_prefixes st' ∖ visited_prefixes st)
          <= geometric (length character_set) max_prefix_length)%nat as Hsize.
  { etrans; [apply (subseteq_size _
      (list_to_set (reach character_set max_prefix_length EmptyString))); set_solver|].
    etrans; [apply size_list_to_set_le|]. by rewrite reach_length. }
  split; [done|].
  rewrite size_difference in Hsize by done.
  apply subseteq_size in Hsub. unfold paid_for in Hpaid. lia.
Qed.

Lemma children_spec prefix next :
  next ∈ children character_set prefix <->
  exists char, char ∈ character_set /\ next = prefix ++ char /\
               (len next <= max_prefix_length)%nat.
Proof.
  unfold children. rewrite list_elem_of_In, filter_In, in_map_iff, Nat.leb_le. split.
  - intros [(char & <- & Hchar) Hlen]. exists char. by rewrite list_elem_of_In.
  - intros (char & Hchar & -> & Hlen). split; [|done]. exists char.
    by rewrite <- list_elem_of_In.
Qed.

Lemma children_all prefix :
  (forall char, char ∈ character_set -> (len (prefix ++ char) <= max_prefix_length)%nat) ->
  children character_set prefix = map (fun char => prefix ++ char) character_set.
Proof.
  unfold children. induction character_set as [|char l IH]; intros Hall; simpl; [done|].
  destruct (Nat.leb_spec (len (prefix ++ char)) max_prefix_length) as [_|Hlen].
  - f_equal. apply IH. intros c Hc. apply Hall. by right.
  - specialize (Hall char ltac:(by left)). lia.
Qed.

(** C5.  Whatever the character set (the empty string may be one of its
    members), the page size, the service and the starting state, [_dfs]
    returns within a call stack of depth [dfs_depth], and so does
    [extract_names].  With [k] characters a traversal, and the whole crawl,
    adds at most [1 + k + ... + k^10] prefixes to the visited set and sends
    at most as many queries; that number is at most [11 * k^10] for positive
    [k]. *)
Theorem traversal_terminates_bounded n prefix st env :
  let bound := geometric (length character_set) max_prefix_length in
  (exists st' env',
     dfs (dfs_depth + n) prefix (st, env) = Some (st', env') /\
     (size (visited_prefixes st' ∖ visited_prefixes st) <= bound)%nat /\
     (request_count st' - request_count st <= Z.of_nat bound)%Z) /\
  (exists st' env',
     crawl (dfs_depth + n) (st, env) = Some (st', env') /\
     (size (visited_prefixes st' ∖ visited_prefixes st) <= bound)%nat /\
     (request_count st' - request_count st <= Z.of_nat bound)%Z) /\
  (bound <= (max_prefix_length + 1)
            * Nat.max 1 (length character_set) ^ max_prefix_length)%nat.
Proof.
  intros bound. subst bound. split_and!.
  - destruct (dfs_total n prefix (st, env)) as [[st' env'] Hres].
    exists st', env'. split_and!; [done| |].
    + by eapply dfs_visits_size.
    + by eapply dfs_requests.
  - destruct (extract_names_returns n (st, env)) as [[st' env'] Hres].
    exists st', env'. split; [done|]. by eapply extract_names_bounds.
  - etrans; [|apply geometric_power]. apply geometric_le. lia.
Qed.

(** C6.  A query leaves a state that includes the one before it: both sets
    are supersets and the request count is not smaller.  The same holds from
    the start to the end of every call of [_dfs] and of [extract_names]. *)
Theorem state_grows_monotonically fuel prefix st env st' env' :
  dfs fuel prefix (st, env) = Some (st', env') \/ crawl fuel (st, env) = Some (st', env') ->
  state_le st st' /\
  (forall query st0 env0, state_le st0 (suggest query st0 env0).1.2).
Proof.
  intros Hrun. split.
  - destruct Hrun as [Hrun|Hrun]; [by eapply dfs_le|by eapply extract_names_le].
  - intros query st0 env0. apply get_suggestions_le.
Qed.

End ExtractorFacts.

(** *** The queries a crawl sends *)

Lemma fresh_queries_refl st log : fresh_queries st log st log.
Proof.
  exists []. split_and!; [done|constructor|]. intros q Hq. by apply elem_of_nil in Hq.
Qed.

Lemma fresh_queries_trans a la b lb c lc :
  visited_prefixes a ⊆ visited_prefixes b ->
  visited_prefixes b ⊆ visited_prefixes c ->
  fresh_queries a la b lb -> fresh_queries b lb c lc -> fresh_queries a la c lc.
Proof.
  intros Hab Hbc (s1 & -> & Hnd1 & H1) (s2 & -> & Hnd2 & H2).
  exists (s2 ++ s1)%list. split_and!.
  - by rewrite app_assoc.
  - apply NoDup_app. split_and!; [done| |done].
    intros q Hq2 Hq1. apply H1 in Hq1 as [_ ?]. apply H2 in Hq2 as [? _]. done.
  - intros q [Hq|Hq]%elem_of_app.
    + apply H2 in Hq as [? ?]. set_solver.
    + apply H1 in Hq as [? ?]. set_solver.
Qed.

Section QueryLog.

Context {W : Type}.
Variable version : string.
Variable character_set : list string.
Variable max_results : Z.
Variable rate_limit : W -> W.
Variable query_api : string -> W -> list string * W.
Variable disk_fault : W -> io_fault * W.

Local Abbreviation suggest_logged :=
  (get_suggestions (logged_wait rate_limit) (logged query_api) (logged_fault disk_fault)).
Local Abbreviation dfs_logged :=
  (_dfs character_set max_results (logged_wait rate_limit) (logged query_api) (logged_fault disk_fault)).
Local Abbreviation crawl_logged :=
  (extract_names version character_set max_results (logged_wait rate_limit) (logged query_api) (logged_fault disk_fault)).

Implicit Types (st : CrawlState) (env : Env (W * list string)).

Lemma save_checkpoint_log st env :
  (world (_save_checkpoint (logged_fault disk_fault) st env)).2 = (world env).2.
Proof.
  unfold _save_checkpoint, logged_fault.
  by destruct (disk_fault (world env).1).
Qed.

Lemma save_results_log st env :
  (world (_save_results version (logged_fault disk_fault) st env)).2 = (world env).2.
Proof.
  unfold _save_results, logged_fault.
  by destruct (disk_fault (world env).1).
Qed.

Lemma get_suggestions_log query st env :
  (world (suggest_logged query st env).2).2 = query :: (world env).2.
Proof.
  unfold get_suggestions, logged, logged_wait; simpl.
  destruct (query_api query (rate_limit (world env).1)) as [response w]; simpl.
  destruct (_ =? 0)%Z; [|done]. by rewrite save_checkpoint_log.
Qed.

Lemma dfs_fresh_queries fuel : forall prefix st env st' env',
  dfs_logged fuel prefix (st, env) = Some (st', env') ->
  fresh_queries st (world env).2 st' (world env').2.
Proof.
  induction fuel as [|fuel IH]; intros prefix st env st' env' Hrun; [done|].
  rewrite dfs_unfold in Hrun.
  case_bool_decide as Hvisited.
  { inversion Hrun; subst. apply fresh_queries_refl. }
  destruct (rejected prefix).
  { inversion Hrun; subst. exists []. split_and!; [done|constructor|].
    intros q Hq. by apply elem_of_nil in Hq. }
  cbv zeta in Hrun. set (r := suggest_logged prefix (mark_visited prefix st) env) in *.
  assert (fresh_queries st (world env).2 r.1.2 (world r.2).2) as Hr.
  { exists [prefix]. split_and!.
    - subst r. by rewrite get_suggestions_log.
    - apply NoDup_singleton.
    - intros q ->%list_elem_of_singleton. split; [done|]. apply get_suggestions_visited. }
  assert (state_le st r.1.2) as Hle.
  { eapply state_le_trans; [apply (mark_visited_le prefix)|apply get_suggestions_le]. }
  destruct (max_results <=? Z.of_nat _)%Z; [|by inversion Hrun; subst].
  enough (state_le st st' /\ fresh_queries st (world env).2 st' (world env').2) by tauto.
  revert Hrun.
  apply (for_each_invariant
    (fun s => state_le st s.1 /\ fresh_queries st (world env).2 s.1 (world s.2).2)
    _ _ (r.1.2, r.2) (st', env')); [|done].
  intros char [a e] [a' e'] _ [Ha Hfresh] Hbody; cbn [fst snd] in *.
  destruct (len (prefix ++ char) <=? max_prefix_length)%nat; [|by inversion Hbody; subst].
  pose proof Hbody as Hstep. apply dfs_le in Hstep.
  split; [by eapply state_le_trans|].
  eapply fresh_queries_trans; [apply Ha|apply Hstep|done|by eapply IH].
Qed.

Lemma extract_names_fresh_queries fuel st env st' env' :
  crawl_logged fuel (st, env) = Some (st', env') ->
  fresh_queries st (world env).2 st' (world env').2.
Proof.
  unfold extract_names. intros Hrun.
  destruct (for_each _ _ _) as [[st1 env1]|] eqn:Hloop; [|done].
  inversion Hrun; subst. rewrite save_results_log, save_checkpoint_log.
  enough (state_le st st' /\ fresh_queries st (world env).2 st' (world env1).2) by tauto.
  revert Hloop.
  apply (for_each_invariant
    (fun s => state_le st s.1 /\ fresh_queries st (world env).2 s.1 (world s.2).2)
    _ _ (st, env) (st', env1)); [|split; [apply state_le_refl|apply fresh_queries_refl]].
  intros char [a e] [a' e'] _ [Ha Hfresh] Hbody; cbn [fst snd] in *.
  case_bool_decide; [by inversion Hbody; subst|].
  pose proof Hbody as Hstep. apply dfs_le in Hstep.
  split; [by eapply state_le_trans|].
  eapply fresh_queries_trans; [apply Ha|apply Hstep|done|by eapply dfs_fresh_queries].
Qed.

(** Logging changes nothing else: the logged run, its log forgotten, is the
    run in the world underneath. *)
Lemma save_checkpoint_erase st env :
  erase_log (_save_checkpoint (logged_fault disk_fault) st env)
  = _save_checkpoint disk_fault st (erase_log env).
Proof.
  unfold _save_checkpoint, logged_fault, erase_log; simpl.
  by destruct (disk_fault (world env).1).
Qed.

Lemma save_results_erase st env :
  erase_log (_save_results version (logged_fault disk_fault) st env)
  = _save_results version disk_fault st (erase_log env).
Proof.
  unfold _save_results, logged_fault, erase_log; simpl.
  by destruct (disk_fault (world env).1).
Qed.

Lemma get_suggestions_erase query st env :
  let r := suggest_logged query st env in
  (r.1.1, r.1.2, erase_log r.2) = get_suggestions rate_limit query_api disk_fault query st (erase_log env).
Proof.
  unfold get_suggestions, logged, logged_wait; simpl.
  destruct (query_api query (rate_limit (world env).1)) as [response w]; simpl.
  destruct (_ =? 0)%Z; [|done].
  by rewrite save_checkpoint_erase.
Qed.

Lemma dfs_erase fuel : forall prefix s,
  erase_run <$> dfs_logged fuel prefix s
  = _dfs character_set max_results rate_limit query_api disk_fault fuel prefix (erase_run s).
Proof.
  induction fuel as [|fuel IH]; intros prefix [st env]; [done|].
  unfold erase_run at 2; simpl fst; simpl snd. rewrite !dfs_unfold.
  case_bool_decide; [done|].
  destruct (rejected prefix); [done|].
  cbv zeta.
  pose proof (get_suggestions_erase prefix (mark_visited prefix st) env) as Hquery.
  cbv zeta in Hquery.
  destruct (suggest_logged prefix (mark_visited prefix st) env) as [[response st1] env1].
  rewrite <- Hquery. simpl.
  destruct (max_results <=? Z.of_nat _)%Z; [|done].
  apply (for_each_map erase_run). intros char a.
  destruct (len (prefix ++ char) <=? max_prefix_length)%nat; [apply IH|done].
Qed.

Lemma extract_names_erase fuel s :
  erase_run <$> crawl_logged fuel s
  = extract_names version character_set max_results rate_limit query_api disk_fault fuel (erase_run s).
Proof.
  unfold extract_names.
  rewrite <- (for_each_map erase_run character_set
    (fun char acc =>
       if bool_decide (char ∈ visited_prefixes acc.1) then Some acc
       else dfs_logged fuel char acc)).
  - destruct (for_each _ _ s) as [[st env]|]; simpl; [|done].
    unfold erase_run; simpl. by rewrite save_results_erase, save_checkpoint_erase.
  - intros char [a e]. unfold erase_run at 2; simpl.
    case_bool_decide; [done|]. apply dfs_erase.
Qed.

(** C7.  [_dfs] on a prefix that is already visited returns at once with the
    state, the world and the files it was given: no query is sent.  And in a
    world that logs its queries, the queries sent from the start to the end
    of a traversal, or of a whole crawl, contain no prefix twice and no prefix
    that was visited at the start (all of them are visited at the end): a
    visited prefix is never queried again.  The logging world is any world
    with a log beside it: forgetting the log gives back the run in that
    world. *)
Theorem visited_prefix_never_requeried fuel prefix st env st' env' :
  dfs_logged fuel prefix (st, env) = Some (st', env') \/
  crawl_logged fuel (st, env) = Some (st', env') ->
  fresh_queries st (world env).2 st' (world env').2 /\
  (forall n visited st0 (env0 : Env W),
     visited ∈ visited_prefixes st0 ->
     _dfs character_set max_results rate_limit query_api disk_fault (S n) visited (st0, env0)
     = Some (st0, env0)) /\
  (forall n start s,
     erase_run <$> dfs_logged n start s
     = _dfs character_set max_results rate_limit query_api disk_fault n start (erase_run s)) /\
  (forall n s,
     erase_run <$> crawl_logged n s
     = extract_names version character_set max_results rate_limit query_api disk_fault n (erase_run s)).
Proof.
  intros Hrun. split_and!.
  - destruct Hrun as [Hrun|Hrun];
      [by eapply dfs_fresh_queries|by eapply extract_names_fresh_queries].
  - intros n visited st0 env0 Hvisited. by rewrite dfs_unfold, bool_decide_eq_true_2.
  - intros n start s. apply dfs_erase.
  - intros n s. apply extract_names_erase.
Qed.

End QueryLog.

(** ** The rate limiter *)

Lemma Qlt_bool_iff (x y : Q) : Qlt_bool x y = true <-> (x < y)%Q.
Proof.
  unfold Qlt_bool. rewrite negb_true_iff, <- not_true_iff_false, Qle_bool_iff.
  split; [apply Qnot_le_lt|apply Qlt_not_le].
Qed.

Lemma Qlt_bool_false (x y : Q) : Qlt_bool x y = false <-> (y <= x)%Q.
Proof. unfold Qlt_bool. by rewrite negb_false_iff, Qle_bool_iff. Qed.

(** The loop pops a run of stale timestamps off the front, and stops at the
    first timestamp that is not older than the cutoff. *)
Lemma drop_stale_spec (cutoff : Q) (timestamps : list Q) :
  exists dropped : list Q,
    timestamps = (dropped ++ drop_stale cutoff timestamps)%list /\
    Forall (fun t => (t < cutoff)%Q) dropped /\
    (forall oldest rest, drop_stale cutoff timestamps = oldest :: rest ->
       (cutoff <= oldest)%Q).
Proof.
  induction timestamps as [|t ts (dropped & Hsplit & Hstale & Hhead)]; simpl.
  - exists []. split_and!; [done|constructor|done].
  - destruct (Qlt_bool t cutoff) eqn:Ht.
    + exists (t :: dropped). split_and!.
      * simpl. by rewrite <- Hsplit.
      * constructor; [by apply Qlt_bool_iff|done].
      * done.
    + exists []. split_and!; [done|constructor|].
      intros oldest rest [= <- _]. by apply Qlt_bool_false.
Qed.

Section LimiterFacts.

Context {W : Type}.
Variable time_time : W -> Q * W.
Variable time_sleep : Q -> W -> W.

Local Abbreviation await := (wait_if_needed time_time time_sleep).

Implicit Types (rl : RateLimiter) (w : W).

(** Below the limit: the clock is read again and the call returns. *)
Lemma await_below_limit rl w :
  let now := (time_time w).1 in
  let w1 := (time_time w).2 in
  let kept := drop_stale (now - window_size rl)%Q (request_timestamps rl) in
  (Z.of_nat (length kept) < requests_per_minute rl)%Z ->
  await rl w = Some (recorded rl kept (time_time w1).1, (time_time w1).2).
Proof.
  intros now w1 kept Hbelow. unfold wait_if_needed. subst now w1 kept.
  destruct (time_time w) as [now w1]; simpl in *.
  rewrite (proj2 (Z.leb_gt _ _) Hbelow).
  by destruct (time_time w1).
Qed.

(** At the limit: one sleep until the oldest timestamp leaves the window,
    when that lies ahead, then the clock is read and the call returns. *)
Lemma await_at_limit rl w oldest rest :
  let now := (time_time w).1 in
  let w1 := (time_time w).2 in
  let kept := drop_stale (now - window_size rl)%Q (request_timestamps rl) in
  let wait_time := (oldest + window_size rl - now)%Q in
  kept = oldest :: rest ->
  (requests_per_minute rl <= Z.of_nat (length kept))%Z ->
  ((0 < wait_time)%Q ->
     let w2 := time_sleep wait_time w1 in
     await rl w = Some (recorded rl kept (time_time w2).1, (time_time w2).2)) /\
  ((wait_time <= 0)%Q ->
     await rl w = Some (recorded rl kept (time_time w1).1, (time_time w1).2)).
Proof.
  intros now w1 kept wait_time Hkept Hlimit. unfold wait_if_needed.
  subst now w1 kept wait_time.
  destruct (time_time w) as [now w1]; simpl in *.
  rewrite (proj2 (Z.leb_le _ _) Hlimit), Hkept. split.
  - intros Hwait. apply Qlt_bool_iff in Hwait. rewrite Hwait.
    by destruct (time_time (time_sleep _ w1)).
  - intros Hwait. apply Qlt_bool_false in Hwait. rewrite Hwait.
    by destruct (time_time w1).
Qed.

(** On a lawful clock a limiter with a positive limit returns, with a
    timestamp read after the call began; when the window was full, the
    oldest timestamp kept is a whole window older than it. *)
Lemma await_records (now_of : W -> Q) rl w :
  clock_laws time_time time_sleep now_of ->
  (0 < requests_per_minute rl)%Z ->
  let now := (time_time w).1 in
  let kept := drop_stale (now - window_size rl)%Q (request_timestamps rl) in
  exists t w',
    await rl w = Some (recorded rl kept t, w') /\
    (now_of w <= now)%Q /\ (now <= t)%Q /\ (t <= now_of w')%Q /\
    (forall oldest rest, kept = oldest :: rest ->
       (requests_per_minute rl <= Z.of_nat (length kept))%Z ->
       (oldest + window_size rl <= t)%Q).
Proof.
  intros [Hread Hsleep] Hpositive now kept.
  pose proof (await_below_limit rl w) as Hbelow.
  pose proof (await_at_limit rl w) as Hat.
  cbv zeta in Hbelow, Hat. fold now in Hbelow, Hat. fold kept in Hbelow, Hat.
  destruct (Hread w) as [Hnow Hw1]. fold now in Hnow, Hw1.
  destruct (Hread (time_time w).2) as [Hw2 Hw3].
  clearbody kept now.
  destruct (Z.leb_spec (requests_per_minute rl) (Z.of_nat (length kept))) as [Hlimit|Hfew].
  - destruct kept as [|oldest rest]; [simpl in Hlimit; lia|].
    destruct (Hat oldest rest eq_refl Hlimit) as [Hlong Hshort].
    destruct (Qlt_le_dec 0 (oldest + window_size rl - now)) as [Hwait|Hwait].
    + specialize (Hlong Hwait).
      pose proof (Hsleep (oldest + window_size rl - now)%Q (time_time w).2) as Hslept.
      set (w2 := time_sleep (oldest + window_size rl - now)%Q (time_time w).2) in *.
      destruct (Hread w2) as [Hw4 Hw5].
      exists (time_time w2).1, (time_time w2).2.
      split_and!; [done|done|lra|done|].
      intros o r [= <- _] _. lra.
    + specialize (Hshort Hwait).
      exists (time_time (time_time w).2).1, (time_time (time_time w).2).2.
      split_and!; [done|done|lra|done|].
      intros o r [= <- _] _. lra.
  - exists (time_time (time_time w).2).1, (time_time (time_time w).2).2.
    split_and!; [by apply Hbelow|done|lra|done|].
    intros o r _ Hlimit. lia.
Qed.


(** Three calls in a row on a fresh limiter of two requests per minute. *)
Lemma third_call_waits_a_window (now_of : W -> Q) w0 :
  clock_laws time_time time_sleep now_of ->
  exists t1 w1 rl2 w2 rl3 w3 t3,
    await (new_limiter 2) w0 = Some (recorded (new_limiter 2) [] t1, w1) /\
    await (recorded (new_limiter 2) [] t1) w1 = Some (rl2, w2) /\
    await rl2 w2 = Some (rl3, w3) /\
    last (request_timestamps rl3) = Some t3 /\
    (t1 + 60 <= t3)%Q /\ (t3 <= now_of w3)%Q.
Proof.
  intros Hlaws.
  destruct (await_records now_of (new_limiter 2) w0 Hlaws ltac:(done))
    as (t1 & w1 & Hrun1 & _ & _ & Ht1 & _).
  simpl in Hrun1.
  set (rl1 := recorded (new_limiter 2) [] t1) in *.
  destruct (await_records now_of rl1 w1 Hlaws ltac:(done))
    as (t2 & w2 & Hrun2 & Hw1 & Hnow2 & Ht2 & _).
  simpl in Hrun2, Hnow2.
  set (now2 := (time_time w1).1) in *.
  set (kept2 := if Qlt_bool t1 (now2 - 60) then [] else [t1]) in *.
  set (rl2 := recorded rl1 kept2 t2) in *.
  destruct (await_records now_of rl2 w2 Hlaws ltac:(done))
    as (t3 & w3 & Hrun3 & Hw2 & Hnow3 & Ht3 & Hfull).
  simpl in Hrun3, Hnow3, Hfull.
  set (now3 := (time_time w2).1) in *.
  exists t1, w1, rl2, w2. eexists. exists w3, t3.
  split_and!; [done|done|exact Hrun3|by simpl; rewrite last_snoc| |done].
  subst kept2. destruct (Qlt_bool t1 (now2 - 60)) eqn:Hstale2.
  - apply Qlt_bool_iff in Hstale2. lra.
  - simpl in Hfull. destruct (Qlt_bool t1 (now3 - 60)) eqn:Hstale3.
    + apply Qlt_bool_iff in Hstale3. lra.
    + by apply (Hfull t1 [t2]).
Qed.

(** C8 (as amended).  On a call the limiter pops from the front the
    timestamps older than [now - window_size], up to the first that is not.
    With fewer timestamps left than the limit it records a reading of the
    clock and returns without sleeping.  With at least as many it sleeps
    once, for [oldest + window_size - now] when that is positive, and then
    records the reading taken after the sleep; it does not check the window
    again.  On a clock that does not run backwards and whose sleeps last at
    least the time asked for, three calls in a row on a fresh limiter of two
    requests per minute all return, and the third records a timestamp at
    least 60 seconds after the first, and returns no earlier than that. *)
Theorem limiter_waits_once_then_records (now_of : W -> Q) rl w w0 :
  clock_laws time_time time_sleep now_of ->
  let now := (time_time w).1 in
  let w1 := (time_time w).2 in
  let kept := drop_stale (now - window_size rl)%Q (request_timestamps rl) in
  (exists dropped : list Q,
     request_timestamps rl = (dropped ++ kept)%list /\
     Forall (fun t => (t < now - window_size rl)%Q) dropped /\
     (forall oldest rest, kept = oldest :: rest -> (now - window_size rl <= oldest)%Q)) /\
  ((Z.of_nat (length kept) < requests_per_minute rl)%Z ->
     await rl w = Some (recorded rl kept (time_time w1).1, (time_time w1).2)) /\
  (forall oldest rest,
     kept = oldest :: rest ->
     (requests_per_minute rl <= Z.of_nat (length kept))%Z ->
     let wait_time := (oldest + window_size rl - now)%Q in
     ((0 < wait_time)%Q ->
        let w2 := time_sleep wait_time w1 in
        await rl w = Some (recorded rl kept (time_time w2).1, (time_time w2).2)) /\
     ((wait_time <= 0)%Q ->
        await rl w = Some (recorded rl kept (time_time w1).1, (time_time w1).2))) /\
  (exists t1 w1 rl2 w2 rl3 w3 t3,
     await (new_limiter 2) w0 = Some (recorded (new_limiter 2) [] t1, w1) /\
     await (recorded (new_limiter 2) [] t1) w1 = Some (rl2, w2) /\
     await rl2 w2 = Some (rl3, w3) /\
     last (request_timestamps rl3) = Some t3 /\
     (t1 + 60 <= t3)%Q /\ (t3 <= now_of w3)%Q).
Proof.
  intros Hlaws now w1 kept. split_and!.
  - apply drop_stale_spec.
  - apply await_below_limit.
  - intros oldest rest. apply await_at_limit.
  - by apply (third_call_waits_a_window now_of).
Qed.

End LimiterFacts.

(** The injected clock is lawful. *)
Lemma fake_clock_lawful : clock_laws fake_time fake_sleep (fun now => now).
Proof.
  split.
  - intros now. unfold fake_time; simpl. split; apply Qle_refl.
  - intros seconds now. unfold fake_sleep. apply Qle_refl.
Qed.

(** On the injected clock, with the window still holding two timestamps at
    the moment the sleep ends, the algorithm of the specification never
    records a third. *)
Lemma await_spec_stuck fuel : forall now : Q,
  (now == 60)%Q ->
  await_spec fake_time fake_sleep fuel (mkLimiter 2 60 [0%Q; 0%Q]) now = None.
Proof.
  induction fuel as [|fuel IH]; intros now Hnow; [done|].
  cbn [await_spec fake_time request_timestamps requests_per_minute window_size drop_stale].
  assert (Qlt_bool 0 (now - 60) = false) as ->.
  { apply Qlt_bool_false. lra. }
  cbn [length Z.of_nat Pos.of_succ_nat Pos.succ Z.leb Z.compare Pos.compare Pos.compare_cont].
  apply IH. unfold fake_sleep. lra.
Qed.

(** C8, counterexample.  Limit 2, timestamps 0 and 0, clock at 0 and advanced
    only by sleeping (the third of three calls in a row).  The code sleeps 60
    seconds and records 60, although at time 60 neither timestamp is older
    than the window and the count is still at the limit; the algorithm of
    the specification, which checks again after the sleep, does not record
    anything, however many checks it is given. *)
Lemma limiter_does_not_recheck :
  wait_if_needed fake_time fake_sleep (mkLimiter 2 60 [0%Q; 0%Q]) 0%Q
  = Some (mkLimiter 2 60 [0%Q; 0%Q; 60%Q], 60%Q) /\
  (2 <= Z.of_nat (length (drop_stale (60 - 60)%Q [0%Q; 0%Q])))%Z /\
  (forall fuel,
     await_spec fake_time fake_sleep fuel (mkLimiter 2 60 [0%Q; 0%Q]) 0%Q = None).
Proof.
  split_and!; [by vm_compute|by vm_compute|].
  intros [|fuel]; [done|].
  cbn [await_spec fake_time request_timestamps requests_per_minute window_size drop_stale].
  assert (Qlt_bool 0 (0 - 60) = false) as -> by (by vm_compute).
  cbn [length Z.of_nat Pos.of_succ_nat Pos.succ Z.leb Z.compare Pos.compare Pos.compare_cont].
  apply await_spec_stuck. unfold fake_sleep. lra.
Qed.

(** C8, witness: the injected clock, a full window [0; 0] at time 0. *)
Lemma limiter_waits_once_then_records_witness :
  wait_if_needed fake_time fake_sleep (mkLimiter 2 60 [0%Q; 0%Q]) 0%Q
  = Some (recorded (mkLimiter 2 60 [0%Q; 0%Q]) [0%Q; 0%Q]
            (fake_time (fake_sleep (0 + 60 - 0)%Q 0%Q)).1,
          (fake_time (fake_sleep (0 + 60 - 0)%Q 0%Q)).2).
Proof.
  destruct (limiter_waits_once_then_records fake_time fake_sleep (fun now => now)
              (mkLimiter 2 60 [0%Q; 0%Q]) 0%Q 0%Q fake_clock_lawful)
    as (_ & _ & Hlimit & _).
  apply (Hlimit 0%Q [0%Q]); [reflexivity|by vm_compute|by vm_compute].
Defined.

(** ** The client *)

(** The chain reads the payload through [obj_get] only: the order of the
    fields does not matter. *)
Lemma select_field_ext (data data' : list (string * json)) :
  (forall key, obj_get key data' = obj_get key data) ->
  select_field data' = select_field data.
Proof. intros Hsame. unfold select_field. by rewrite !Hsame. Qed.

Section ClientFacts.

Context {W : Type}.
Variable http_get : string -> string -> W -> http_outcome * W.
Variable sleep : Z -> W -> option W.
Variable base_url : string.

Local Abbreviation request := (request_loop http_get sleep).
Local Abbreviation get := (get_autocomplete_suggestions http_get sleep base_url).

(** The [except] clause of the loop at [attempt], from world [w']. *)
Local Abbreviation handler url query max_retries retry_delay todo attempt w' :=
  (if (attempt <? max_retries)%Z
   then match sleep retry_delay w' with
        | Some w'' => request url query max_retries retry_delay todo (attempt + 1) w''
        | None => (None, w')
        end
   else (Some (JArr []), w')).

(** When sleeping the default delay cannot raise, no exception leaves the
    loop. *)
Lemma request_loop_no_exception url query max_retries retry_delay :
  (forall w, is_Some (sleep retry_delay w)) ->
  forall todo attempt w,
    is_Some (request url query max_retries retry_delay todo attempt w).1.
Proof.
  intros Hsleep. induction todo as [|todo IH]; intros attempt w; [by eexists|].
  assert (forall w', is_Some (handler url query max_retries retry_delay todo attempt w').1)
    as Hhandler.
  { intros w'. destruct (attempt <? max_retries)%Z; [|by eexists].
    destruct (Hsleep w') as [w'' ->]. apply IH. }
  cbn [request_loop].
  destruct (http_get url query w) as [[|status_code body retry_after] w1]; [apply Hhandler|].
  destruct (status_code =? 200)%Z.
  { destruct body as [[]|]; first [apply Hhandler|by eexists]. }
  destruct (status_code =? 429)%Z; [|by eexists].
  destruct (attempt <? max_retries)%Z eqn:Hattempt; [|by eexists].
  specialize (Hhandler w1).
  destruct (retry_wait retry_after retry_delay) as [wait_time|]; [|done].
  destruct (sleep wait_time w1) as [w2|]; [apply IH|done].
Qed.

(** What the loop returns is the empty list, or it was taken from the body
    of a response with status 200. *)
Lemma request_loop_value url query max_retries retry_delay :
  forall todo attempt w v,
    (request url query max_retries retry_delay todo attempt w).1 = Some v ->
    v = JArr [] \/ from_payload http_get url query v.
Proof.
  induction todo as [|todo IH]; intros attempt w v.
  { intros [= <-]. by left. }
  assert (forall w',
    (handler url query max_retries retry_delay todo attempt w').1 = Some v ->
    v = JArr [] \/ from_payload http_get url query v) as Hhandler.
  { intros w'. destruct (attempt <? max_retries)%Z; [|intros [= <-]; by left].
    destruct (sleep retry_delay w') as [w''|]; [apply IH|done]. }
  cbn [request_loop].
  destruct (http_get url query w) as [[|status_code body retry_after] w1] eqn:Hget;
    [apply Hhandler|].
  destruct (status_code =? 200)%Z eqn:Hstatus.
  { apply Z.eqb_eq in Hstatus as ->.
    destruct body as [body|]; [|apply Hhandler].
    destruct body; try (intros [= <-]; by left).
    - intros [= <-]. right. by exists w, w1, retry_after, (JArr items).
    - intros [= <-]. right. by exists w, w1, retry_after, (JObj fields). }
  destruct (status_code =? 429)%Z; [|intros [= <-]; by left].
  destruct (attempt <? max_retries)%Z eqn:Hattempt; [|intros [= <-]; by left].
  specialize (Hhandler w1).
  destruct (retry_wait retry_after retry_delay) as [wait_time|]; [|done].
  destruct (sleep wait_time w1) as [w2|]; [apply IH|done].
Qed.

(** C10.  Whenever an attempt gets status 200 with a JSON object as body,
    the call returns at once what [select_field] picks from that object,
    whatever the query, the retry settings and the attempt.  The pick is the
    value of ['results'] when the object has that field; otherwise of
    ['suggestions'] when it has that one; otherwise of ['names']; it is a
    function of the fields alone, so two payloads with the same fields in a
    different order give the same value. *)
Theorem response_field_priority url query max_retries retry_delay todo attempt w
    data retry_after w1 :
  http_get url query w = (Response 200 (Some (JObj data)) retry_after, w1) ->
  request url query max_retries retry_delay (S todo) attempt w
  = (Some (select_field data), w1) /\
  (forall v, obj_get "results" data = Some v -> select_field data = v) /\
  (forall v, obj_get "results" data = None ->
             obj_get "suggestions" data = Some v -> select_field data = v) /\
  (forall v, obj_get "results" data = None ->
             obj_get "suggestions" data = None ->
             obj_get "names" data = Some v -> select_field data = v) /\
  (forall data', (forall key, obj_get key data' = obj_get key data) ->
                 select_field data' = select_field data).
Proof.
  intros Hget. split_and!.
  - cbn [request_loop]. by rewrite Hget.
  - intros v Hv. unfold select_field. by rewrite Hv.
  - intros v Hr Hv. unfold select_field. by rewrite Hr, Hv.
  - intros v Hr Hs Hv. unfold select_field. by rewrite Hr, Hs, Hv.
  - intros data'. apply select_field_ext.
Qed.

End ClientFacts.

(** C10, witness: an object that carries all three fields, ['names'] first. *)
Lemma response_field_priority_witness :
  get_autocomplete_suggestions script_get script_sleep "http://host" "ab" "v1"
    default_max_retries default_retry_delay
    [Response 200
       (Some (JObj [("names", JArr [JStr "n"]);
                    ("suggestions", JArr [JStr "s"]);
                    ("results", JArr [JStr "r"])])) None]
  = (Some (JArr [JStr "r"]), []).
Proof.
  exact (proj1 (response_field_priority script_get script_sleep
    "http://host/v1/autocomplete" "ab" default_max_retries default_retry_delay 3 0
    [Response 200
       (Some (JObj [("names", JArr [JStr "n"]);
                    ("suggestions", JArr [JStr "s"]);
                    ("results", JArr [JStr "r"])])) None]
    [("names", JArr [JStr "n"]); ("suggestions", JArr [JStr "s"]);
     ("results", JArr [JStr "r"])]
    None [] eq_refl)).
Defined.

(** C4, the failing input.  Status 200 with the body [{"results": 7}]: the
    call returns the number 7, which is no list of strings. *)
Lemma client_returns_non_list :
  get_autocomplete_suggestions script_get script_sleep "http://host" "ab" "v1"
    default_max_retries default_retry_delay
    [Response 200 (Some (JObj [("results", JNum 7)])) None]
  = (Some (JNum 7), []) /\
  is_string_list (JNum 7) = false.
Proof. split; reflexivity. Qed.

(** With a default delay that [time.sleep] accepts, no exception leaves the
    call; and when no attempt gets a 200 with an array or an object as body,
    the call returns the empty list.  This covers a 429 on every attempt,
    any other status, a connection that fails on every attempt, and a body
    that does not parse or is neither an array nor an object. *)
Lemma client_degrades_to_empty {W : Type}
    (http_get : string -> string -> W -> http_outcome * W)
    (sleep : Z -> W -> option W) (base_url query version : string)
    (max_retries retry_delay : Z) (w : W) :
  (forall w', is_Some (sleep retry_delay w')) ->
  (forall url w0 w1 retry_after body,
     http_get url query w0 = (Response 200 (Some body) retry_after, w1) ->
     match body with JArr _ | JObj _ => False | _ => True end) ->
  (get_autocomplete_suggestions http_get sleep base_url query version
     max_retries retry_delay w).1 = Some (JArr []).
Proof.
  intros Hsleep Hbad. unfold get_autocomplete_suggestions.
  set (url := base_url ++ "/" ++ version ++ "/autocomplete").
  destruct (request_loop_no_exception http_get sleep url query max_retries retry_delay
              Hsleep (Z.to_nat (max_retries + 1)) 0%Z w) as [v Hrun].
  rewrite Hrun. f_equal.
  apply request_loop_value in Hrun as [->|(w0 & w1 & ra & body & Hget & Hbody)]; [done|].
  apply Hbad in Hget. by destruct body.
Qed.

(** ** Checkpoints *)

Lemma substring_is_prefix (k : nat) (text : string) :
  String.prefix (String.substring 0 k text) text = true.
Proof.
  revert k. induction text as [|c text IH]; intros [|k]; simpl; try done.
  destruct (ascii_dec c c); [apply IH|done].
Qed.

Lemma substring_length (k : nat) (text : string) :
  String.length (String.substring 0 k text) = Nat.min k (String.length text).
Proof.
  revert k. induction text as [|c text IH]; intros [|k]; simpl; try done.
  by rewrite IH.
Qed.

Section CheckpointFacts.

Context {W : Type}.
Variable disk_fault : W -> io_fault * W.

Local Abbreviation save := (_save_checkpoint disk_fault).
Local Abbreviation text_of st := (json_dumps None 0 (checkpoint_json st)).

(** C2 (as amended).  [_save_checkpoint] writes the checkpoint file in
    place and touches nothing else: there is no temporary file.  When the
    write goes through, the file holds the new checkpoint.  When [open]
    fails, the file is what it was.  When the write fails after [open], the
    file holds the first [k] characters of the new checkpoint (all of it if
    it is no longer than [k]) and nothing of what it held before.  In every
    case the call returns (the exception is swallowed) and the results file
    is untouched. *)
Theorem checkpoint_written_in_place (st : CrawlState) (env : Env W) :
  let fault := (disk_fault (world env)).1 in
  let after := save st env in
  world after = (disk_fault (world env)).2 /\
  results_file after = results_file env /\
  (fault = NoFault -> checkpoint_file after = Some (text_of st)) /\
  (fault = OpenFails -> checkpoint_file after = checkpoint_file env) /\
  (forall k, fault = WriteFails k ->
     exists written,
       checkpoint_file after = Some written /\
       written = String.substring 0 k (text_of st) /\
       String.prefix written (text_of st) = true /\
       String.length written = Nat.min k (String.length (text_of st))).
Proof.
  intros fault after. subst fault after. unfold _save_checkpoint.
  set (text := text_of st). clearbody text.
  destruct (disk_fault (world env)) as [fault w]. cbn [fst snd world checkpoint_file results_file].
  split_and!; try done.
  - by intros ->.
  - by intros ->.
  - intros k ->. cbn [write_file]. eexists.
    split_and!; [done|done|apply substring_is_prefix|apply substring_length].
Qed.

End CheckpointFacts.

(** C2, counterexample.  A checkpoint of one name is on disk; the next
    write fails after ten characters.  The file then holds neither the old
    checkpoint nor the new one, only the first ten characters of the new
    one. *)
Lemma checkpoint_write_destroys_previous :
  let old := {| names := {["cat"]}; visited_prefixes := {["c"]}; request_count := 1 |} in
  let new := {| names := {["cat"; "car"]}; visited_prefixes := {["c"; "ca"]};
                request_count := 2 |} in
  let before := {| world := [WriteFails 10]; results_file := None;
                   checkpoint_file := Some (json_dumps None 0 (checkpoint_json old)) |} in
  let after := _save_checkpoint script_fault new before in
  checkpoint_file after ≠ checkpoint_file before /\
  checkpoint_file after ≠ Some (json_dumps None 0 (checkpoint_json new)) /\
  checkpoint_file after
  = Some (String.substring 0 10 (json_dumps None 0 (checkpoint_json new))).
Proof. cbv zeta. split_and!; [by vm_compute|by vm_compute|reflexivity]. Qed.

(** C9, the failing input.  A checkpoint whose ['names'] is a list of
    strings and whose ['visited_prefixes'] is a number: [set(5)] raises after
    the names have been assigned, and the extractor starts with the names
    of the checkpoint, no visited prefix and a request count of zero. *)
Lemma failed_load_leaves_names :
  exists st,
    init_extractor
      (Parsed (JObj [("names", JArr [JStr "cat"; JStr "car"]);
                     ("visited_prefixes", JNum 5);
                     ("request_count", JNum 2)])) = Val st /\
    names st = {["cat"; "car"]} /\
    visited_prefixes st = ∅ /\
    request_count st = 0%Z /\
    st ≠ initial_state.
Proof.
  eexists. split_and!; [reflexivity|by vm_compute|done|done|].
  intros Heq. apply (f_equal names) in Heq. vm_compute in Heq. done.
Qed.

(** A load that fails before the first assignment leaves the empty state:
    no file, a file that cannot be read or parsed, a document that is not an
    object, or a ['names'] that [set] rejects. *)
Lemma early_load_failure_is_clean (found : checkpoint_read) :
  match found with
  | NoCheckpoint | ReadFails => True
  | Parsed (JObj checkpoint) =>
      py_set (obj_get_default "names" (JArr []) checkpoint) = Exn
  | Parsed _ => True
  end ->
  init_extractor found = Val initial_state.
Proof.
  unfold init_extractor, _load_checkpoint.
  destruct found as [| |[]]; try done. by intros ->.
Qed.

(** ** The simulated service: the theorems at work *)

(** The traversal from ["c"] over the simulated service with pages of two
    names: thirteen queries, three names, fifteen prefixes. *)
Lemma sim_traversal :
  _dfs sim_character_set 2 sim_wait (sim_api sim_vocabulary 2) sim_fault dfs_depth "c"
    (initial_state, sim_env)
  = Some ({| names := {["cat"; "car"; "cab"]};
             visited_prefixes :=
               list_to_set ["c"; "ca"; "caa"; "cab"; "cac"; "cad"; "cao"; "cat"; "ca ";
                            "cb"; "cc"; "cd"; "co"; "ct"; "c "];
             request_count := 13 |}, sim_env).
Proof. by vm_compute. Qed.

(** C6, witness: the traversal from ["c"]. *)
Lemma state_grows_monotonically_witness :
  state_le initial_state
    {| names := {["cat"; "car"; "cab"]};
       visited_prefixes :=
         list_to_set ["c"; "ca"; "caa"; "cab"; "cac"; "cad"; "cao"; "cat"; "ca ";
                      "cb"; "cc"; "cd"; "co"; "ct"; "c "];
       request_count := 13 |}.
Proof.
  apply (state_grows_monotonically "v1" sim_character_set 2 sim_wait (sim_api sim_vocabulary 2)
           sim_fault dfs_depth "c" initial_state sim_env _ sim_env).
  left. by vm_compute.
Defined.

(** C7, witness: the traversal from ["c"] in the logging world sends
    thirteen queries, all different. *)
Lemma visited_prefix_never_requeried_witness :
  fresh_queries initial_state []
    {| names := {["cat"; "car"; "cab"]};
       visited_prefixes :=
         list_to_set ["c"; "ca"; "caa"; "cab"; "cac"; "cad"; "cao"; "cat"; "ca ";
                      "cb"; "cc"; "cd"; "co"; "ct"; "c "];
       request_count := 13 |}
    ["ct"; "co"; "cd"; "cc"; "cb"; "cat"; "cao"; "cad"; "cac"; "cab"; "caa"; "ca"; "c"].
Proof.
  apply (visited_prefix_never_requeried "v1" sim_character_set 2
           sim_wait (sim_api sim_vocabulary 2) sim_fault dfs_depth "c"
           initial_state logged_env _
           {| world := (0%nat, ["ct"; "co"; "cd"; "cc"; "cb"; "cat"; "cao"; "cad";
                                "cac"; "cab"; "caa"; "ca"; "c"]);
              checkpoint_file := None; results_file := None |}).
  left. by vm_compute.
Defined.

(** The three prefixes the specification names for the filters. *)
Example filter_examples :
  rejected "ab  c" = true /\ rejected " " = false /\ rejected " a" = true.
Proof. by vm_compute. Qed.

(** The character set of [V3Extractor] has the empty string as a member, and
    its crawl returns. *)
Example v3_crawl_returns {W : Type} (rate_limit : W -> W)
    (query_api : string -> W -> list string * W)
    (disk_fault : W -> io_fault * W) (s : CrawlState * Env W) :
  EmptyString ∈ v3_character_set /\
  exists r, extract_names "v3" v3_character_set v3_max_results rate_limit query_api disk_fault
              dfs_depth s = Some r.
Proof.
  split.
  - unfold v3_character_set. rewrite !elem_of_app. right. right. right. by left.
  - destruct s as [st env].
    destruct (extract_names_returns "v3" v3_character_set v3_max_results
                rate_limit query_api disk_fault 0 (st, env)) as [r Hcrawl].
    rewrite Nat.add_0_r in Hcrawl. by exists r.
Qed.

(** * Further properties of the code *)

(** ** The crawl: what it visits, what it asks, what it keeps *)

Lemma accounted_refl st log : accounted st log st log.
Proof.
  exists []. split_and!; [done|simpl; lia|]. simpl. set_solver.
Qed.

Lemma accounted_trans a la b lb c lc :
  accounted a la b lb -> accounted b lb c lc -> accounted a la c lc.
Proof.
  intros (s1 & -> & Hc1 & Hn1) (s2 & -> & Hc2 & Hn2).
  exists (s2 ++ s1)%list. split_and!.
  - by rewrite app_assoc.
  - rewrite length_app. lia.
  - rewrite Hn2, Hn1, map_app, concat_app, list_to_set_app_L. set_solver.
Qed.

Section CrawlFacts.

Context {W : Type}.
Variable version : string.
Variable character_set : list string.
Variable max_results : Z.
Variable rate_limit : W -> W.
Variable query_api : string -> W -> list string * W.
Variable disk_fault : W -> io_fault * W.

Local Abbreviation suggest := (get_suggestions rate_limit query_api disk_fault).
Local Abbreviation dfs := (_dfs character_set max_results rate_limit query_api disk_fault).
Local Abbreviation crawl :=
  (extract_names version character_set max_results rate_limit query_api disk_fault).

Implicit Types (st : CrawlState) (env : Env W) (prefix : string).

(** [_dfs] leaves its prefix visited. *)
Lemma dfs_marks fuel prefix st env st' env' :
  dfs fuel prefix (st, env) = Some (st', env') -> prefix ∈ visited_prefixes st'.
Proof.
  intros Hrun. destruct fuel as [|fuel]; [done|].
  pose proof Hrun as Hle. apply dfs_le in Hle. destruct Hle as (_ & Hsub & _).
  rewrite dfs_unfold in Hrun.
  case_bool_decide as Hvisited; [by inversion Hrun; subst|].
  destruct (rejected prefix).
  { inversion Hrun; subst. simpl. set_solver. }
  cbv zeta in Hrun.
  pose proof (get_suggestions_visited rate_limit query_api disk_fault prefix
                (mark_visited prefix st) env) as Hq.
  destruct (max_results <=? Z.of_nat _)%Z; [|by inversion Hrun; subst].
  revert Hrun.
  apply (for_each_invariant (fun s => prefix ∈ visited_prefixes s.1)); [|done].
  intros char [a e] [a' e'] _ Ha Hbody; cbn [fst snd] in *.
  destruct (len (prefix ++ char) <=? max_prefix_length)%nat; [|by inversion Hbody; subst].
  apply dfs_le in Hbody. destruct Hbody as (_ & Hsub' & _). set_solver.
Qed.

(** The loop of [extract_names] leaves every character it went through
    visited. *)
Lemma roots_marked fuel (roots : list string) : forall s s',
  for_each roots
    (fun char acc =>
       if bool_decide (char ∈ visited_prefixes acc.1) then Some acc
       else dfs fuel char acc) s = Some s' ->
  visited_prefixes s.1 ⊆ visited_prefixes s'.1 /\
  forall char, char ∈ roots -> char ∈ visited_prefixes s'.1.
Proof.
  induction roots as [|root roots IH]; intros s s' Hrun; simpl in Hrun.
  - inversion Hrun; subst. split; [done|]. intros char Hchar. by apply elem_of_nil in Hchar.
  - destruct s as [st env].
    assert (exists a, (if bool_decide (root ∈ visited_prefixes st) then Some (st, env)
                       else dfs fuel root (st, env)) = Some a /\
                      visited_prefixes st ⊆ visited_prefixes a.1 /\
                      root ∈ visited_prefixes a.1) as (a & Ha & Hsub & Hroot).
    { cbn [fst] in Hrun. case_bool_decide as Hvisited.
      - exists (st, env). by split_and!.
      - destruct (dfs fuel root (st, env)) as [[a e]|] eqn:Hdfs; [|done].
        exists (a, e). split_and!; [done| |by eapply dfs_marks].
        apply dfs_le in Hdfs. by destruct Hdfs as (_ & ? & _). }
    cbn [fst] in Hrun. rewrite Ha in Hrun.
    destruct (IH a s' Hrun) as [Hsub' Hall].
    split; [cbn [fst]; set_solver|].
    intros char [->|Hchar]%elem_of_cons; [set_solver|by apply Hall].
Qed.

(** X1.  When [extract_names] returns, every member of the character set
    is a visited prefix: each was visited before, or [_dfs] ran on it and
    marked it. *)
Theorem crawl_visits_every_root fuel st env st' env' :
  extract_names version character_set max_results rate_limit query_api disk_fault
    fuel (st, env) = Some (st', env') ->
  forall char, char ∈ character_set -> char ∈ visited_prefixes st'.
Proof.
  unfold extract_names. intros Hrun.
  destruct (for_each _ _ _) as [[st1 env1]|] eqn:Hloop; [|done].
  inversion Hrun; subst. apply roots_marked in Hloop. by destruct Hloop.
Qed.

(** With every root visited the loop of [extract_names] does nothing. *)
Lemma roots_skipped fuel (roots : list string) (s : CrawlState * Env W) :
  (forall char, char ∈ roots -> char ∈ visited_prefixes s.1) ->
  for_each roots
    (fun char acc =>
       if bool_decide (char ∈ visited_prefixes acc.1) then Some acc
       else dfs fuel char acc) s = Some s.
Proof.
  induction roots as [|root roots IH]; intros Hall; simpl; [done|].
  rewrite bool_decide_eq_true_2 by (apply Hall; by left).
  apply IH. intros char Hchar. apply Hall. by right.
Qed.

(** X2.  A crawl that has returned is complete: running [extract_names]
    again from its final state, in any environment and with any bound on the
    call stack, changes no attribute of the state and touches the world only
    through the two final writes, the checkpoint and the results file; the
    rate limiter and the service are not called. *)
Theorem finished_crawl_is_fixpoint fuel st env st' env' :
  extract_names version character_set max_results rate_limit query_api disk_fault
    fuel (st, env) = Some (st', env') ->
  forall fuel2 env2,
    extract_names version character_set max_results rate_limit query_api disk_fault
    fuel2 (st', env2)
    = Some (st', _save_results version disk_fault st' (_save_checkpoint disk_fault st' env2)).
Proof.
  intros Hrun fuel2 env2.
  assert (forall char, char ∈ character_set -> char ∈ visited_prefixes st') as Hall.
  { unfold extract_names in Hrun.
    destruct (for_each _ _ _) as [[st1 env1]|] eqn:Hloop; [|done].
    inversion Hrun; subst. apply roots_marked in Hloop. by destruct Hloop. }
  unfold extract_names.
  by rewrite (roots_skipped fuel2 character_set (st', env2)).
Qed.

(** On a disk without faults the crawl ends with both files written from
    its final state. *)
Lemma healthy_save_checkpoint st env :
  (forall w, (disk_fault w).1 = NoFault) ->
  checkpoint_file (_save_checkpoint disk_fault st env)
  = Some (json_dumps None 0 (checkpoint_json st)).
Proof.
  intros Hdisk. unfold _save_checkpoint. specialize (Hdisk (world env)).
  destruct (disk_fault (world env)) as [fault w]. simpl in Hdisk. by subst.
Qed.

End CrawlFacts.

Section Transcript.

Context {W : Type}.
Variable version : string.
Variable character_set : list string.
Variable max_results : Z.
Variable rate_limit : W -> W.
Variable query_api : string -> W -> list string * W.
Variable disk_fault : W -> io_fault * W.

Local Abbreviation suggest_t :=
  (get_suggestions (beside_wait rate_limit) (transcribed query_api) (beside_fault disk_fault)).
Local Abbreviation dfs_t :=
  (_dfs character_set max_results (beside_wait rate_limit) (transcribed query_api)
     (beside_fault disk_fault)).
Local Abbreviation crawl_t :=
  (extract_names version character_set max_results (beside_wait rate_limit)
     (transcribed query_api) (beside_fault disk_fault)).

Implicit Types (st : CrawlState) (env : Env (W * list (string * list string))).

Lemma save_checkpoint_transcript st env :
  (world (_save_checkpoint (beside_fault disk_fault) st env)).2 = (world env).2.
Proof.
  unfold _save_checkpoint, beside_fault.
  by destruct (disk_fault (world env).1).
Qed.

Lemma save_results_transcript st env :
  (world (_save_results version (beside_fault disk_fault) st env)).2 = (world env).2.
Proof.
  unfold _save_results, beside_fault.
  by destruct (disk_fault (world env).1).
Qed.

(** One query adds one exchange to the transcript, whose answer is the one
    folded into the state. *)
Lemma get_suggestions_accounted query st env :
  let r := suggest_t query st env in
  (world r.2).2 = (query, r.1.1) :: (world env).2 /\
  accounted st (world env).2 r.1.2 (world r.2).2.
Proof.
  unfold get_suggestions, transcribed, beside_wait; simpl.
  destruct (query_api query (rate_limit (world env).1)) as [response w]; simpl.
  assert ((world (if (request_count st + 1) mod 20 =? 0
                  then _save_checkpoint (beside_fault disk_fault)
                         {| names := names st ∪ list_to_set response;
                            visited_prefixes := visited_prefixes st ∪ {[query]};
                            request_count := request_count st + 1 |}
                         {| world := (w, (query, response) :: (world env).2);
                            checkpoint_file := checkpoint_file env;
                            results_file := results_file env |}
                  else {| world := (w, (query, response) :: (world env).2);
                          checkpoint_file := checkpoint_file env;
                          results_file := results_file env |})).2
          = (query, response) :: (world env).2)%Z as Hlog.
  { destruct (_ =? 0)%Z; [|done]. by rewrite save_checkpoint_transcript. }
  split; [done|].
  exists [(query, response)]. split_and!; [done|simpl; lia|].
  simpl. rewrite app_nil_r. done.
Qed.

Lemma dfs_accounted fuel : forall prefix st env st' env',
  dfs_t fuel prefix (st, env) = Some (st', env') ->
  accounted st (world env).2 st' (world env').2.
Proof.
  induction fuel as [|fuel IH]; intros prefix st env st' env' Hrun; [done|].
  rewrite dfs_unfold in Hrun.
  case_bool_decide; [inversion Hrun; subst; apply accounted_refl|].
  destruct (rejected prefix).
  { inversion Hrun; subst. exists []. split_and!; [done|simpl; lia|simpl; set_solver]. }
  cbv zeta in Hrun.
  destruct (get_suggestions_accounted prefix (mark_visited prefix st) env) as [_ Hr].
  cbv zeta in Hr.
  set (r := suggest_t prefix (mark_visited prefix st) env) in *.
  assert (accounted st (world env).2 r.1.2 (world r.2).2) as Hstart.
  { destruct Hr as (sent & ? & ? & ?). by exists sent. }
  destruct (max_results <=? Z.of_nat _)%Z; [|by inversion Hrun; subst].
  revert Hrun.
  apply (for_each_invariant (fun s => accounted st (world env).2 s.1 (world s.2).2)
           _ _ (r.1.2, r.2) (st', env')); [|done].
  intros char [a e] [a' e'] _ Ha Hbody; cbn [fst snd] in *.
  destruct (len (prefix ++ char) <=? max_prefix_length)%nat; [|by inversion Hbody; subst].
  eapply accounted_trans; [exact Ha|by eapply IH].
Qed.

Lemma extract_names_accounted fuel st env st' env' :
  crawl_t fuel (st, env) = Some (st', env') ->
  accounted st (world env).2 st' (world env').2.
Proof.
  unfold extract_names. intros Hrun.
  destruct (for_each _ _ _) as [[st1 env1]|] eqn:Hloop; [|done].
  inversion Hrun; subst. rewrite save_results_transcript, save_checkpoint_transcript.
  revert Hloop.
  apply (for_each_invariant (fun s => accounted st (world env).2 s.1 (world s.2).2)
           _ _ (st, env) (st', env1)); [|apply accounted_refl].
  intros char [a e] [a' e'] _ Ha Hbody; cbn [fst snd] in *.
  case_bool_decide; [by inversion Hbody; subst|].
  eapply accounted_trans; [exact Ha|by eapply dfs_accounted].
Qed.

(** The transcript changes nothing else: forgetting it gives the run in the
    world underneath. *)
Lemma save_checkpoint_forget st env :
  forget_record (_save_checkpoint (beside_fault disk_fault) st env)
  = _save_checkpoint disk_fault st (forget_record env).
Proof.
  unfold _save_checkpoint, beside_fault, forget_record; simpl.
  by destruct (disk_fault (world env).1).
Qed.

Lemma save_results_forget st env :
  forget_record (_save_results version (beside_fault disk_fault) st env)
  = _save_results version disk_fault st (forget_record env).
Proof.
  unfold _save_results, beside_fault, forget_record; simpl.
  by destruct (disk_fault (world env).1).
Qed.

Lemma get_suggestions_forget query st env :
  let r := suggest_t query st env in
  (r.1.1, r.1.2, forget_record r.2)
  = get_suggestions rate_limit query_api disk_fault query st (forget_record env).
Proof.
  unfold get_suggestions, transcribed, beside_wait; simpl.
  destruct (query_api query (rate_limit (world env).1)) as [response w]; simpl.
  destruct (_ =? 0)%Z; [|done].
  by rewrite save_checkpoint_forget.
Qed.

Lemma dfs_forget fuel : forall prefix s,
  forget_run <$> dfs_t fuel prefix s
  = _dfs character_set max_results rate_limit query_api disk_fault fuel prefix (forget_run s).
Proof.
  induction fuel as [|fuel IH]; intros prefix [st env]; [done|].
  unfold forget_run at 2; simpl fst; simpl snd. rewrite !dfs_unfold.
  case_bool_decide; [done|].
  destruct (rejected prefix); [done|].
  cbv zeta.
  pose proof (get_suggestions_forget prefix (mark_visited prefix st) env) as Hquery.
  cbv zeta in Hquery.
  destruct (suggest_t prefix (mark_visited prefix st) env) as [[response st1] env1].
  rewrite <- Hquery. simpl.
  destruct (max_results <=? Z.of_nat _)%Z; [|done].
  apply (for_each_map forget_run). intros char a.
  destruct (len (prefix ++ char) <=? max_prefix_length)%nat; [apply IH|done].
Qed.

Lemma extract_names_forget fuel s :
  forget_run <$> crawl_t fuel s
  = extract_names version character_set max_results rate_limit query_api disk_fault
      fuel (forget_run s).
Proof.
  unfold extract_names.
  rewrite <- (for_each_map forget_run character_set
    (fun char acc =>
       if bool_decide (char ∈ visited_prefixes acc.1) then Some acc
       else dfs_t fuel char acc)).
  - destruct (for_each _ _ s) as [[st env]|]; simpl; [|done].
    unfold forget_run; simpl. by rewrite save_results_forget, save_checkpoint_forget.
  - intros char [a e]. unfold forget_run at 2; simpl.
    case_bool_decide; [done|]. apply dfs_forget.
Qed.

Lemma forget_with_record {L : Type} (env0 : Env W) (record : L) :
  forget_record (with_record env0 record) = env0.
Proof. by destruct env0. Qed.

(** The exchanges of a run account for what it did to the state. *)
Lemma dfs_exchanges_accounted fuel prefix st (env0 : Env W) st' env0' :
  _dfs character_set max_results rate_limit query_api disk_fault fuel prefix (st, env0)
  = Some (st', env0') ->
  exists sent,
    dfs_exchanges character_set max_results rate_limit query_api disk_fault
      fuel prefix (st, env0) = Some (rev sent) /\
    accounted st [] st' sent.
Proof.
  intros Hplain. unfold dfs_exchanges. cbn [fst snd].
  pose proof (dfs_forget fuel prefix (st, with_record env0 [])) as Hforget.
  unfold forget_run at 2 in Hforget. cbn [fst snd] in Hforget.
  rewrite forget_with_record, Hplain in Hforget.
  destruct (dfs_t fuel prefix (st, with_record env0 [])) as [[st1 env1]|] eqn:Hrun; [|done].
  injection Hforget as -> _.
  exists (world env1).2. split; [done|].
  by apply dfs_accounted in Hrun.
Qed.

Lemma crawl_exchanges_accounted fuel st (env0 : Env W) st' env0' :
  extract_names version character_set max_results rate_limit query_api disk_fault
    fuel (st, env0) = Some (st', env0') ->
  exists sent,
    crawl_exchanges version character_set max_results rate_limit query_api disk_fault
      fuel (st, env0) = Some (rev sent) /\
    accounted st [] st' sent.
Proof.
  intros Hplain. unfold crawl_exchanges. cbn [fst snd].
  pose proof (extract_names_forget fuel (st, with_record env0 [])) as Hforget.
  unfold forget_run at 2 in Hforget. cbn [fst snd] in Hforget.
  rewrite forget_with_record, Hplain in Hforget.
  destruct (crawl_t fuel (st, with_record env0 [])) as [[st1 env1]|] eqn:Hrun; [|done].
  injection Hforget as -> _.
  exists (world env1).2. split; [done|].
  by apply extract_names_accounted in Hrun.
Qed.

Lemma accounted_count st st' sent :
  accounted st [] st' sent ->
  request_count st' = (request_count st + Z.of_nat (length (rev sent)))%Z.
Proof.
  intros (sent' & -> & Hcount & _). by rewrite app_nil_r, length_rev.
Qed.

Lemma accounted_names st st' sent name :
  accounted st [] st' sent ->
  name ∈ names st' <->
  name ∈ names st \/ exists query answer, (query, answer) ∈ rev sent /\ name ∈ answer.
Proof.
  intros (sent' & -> & _ & Hnames). rewrite app_nil_r.
  rewrite Hnames, elem_of_union, elem_of_list_to_set.
  apply or_iff_compat_l. rewrite list_elem_of_In, in_concat. split.
  - intros (answer & Hanswer & Hname). apply in_map_iff in Hanswer as ([query a] & <- & Hin).
    exists query, a. split; [|by apply list_elem_of_In].
    apply list_elem_of_In. by apply in_rev in Hin.
  - intros (query & answer & Hin & Hname). exists answer.
    apply list_elem_of_In, in_rev, list_elem_of_In in Hin.
    rewrite <- !list_elem_of_In. split; [|done].
    apply list_elem_of_In, in_map_iff. exists (query, answer).
    by rewrite <- list_elem_of_In.
Qed.

(** X3.  Over a call of [_dfs] the request count grows by exactly the
    number of exchanges with the service during the call. *)
Theorem request_count_counts_queries fuel prefix st (env0 : Env W) st' env0' :
  _dfs character_set max_results rate_limit query_api disk_fault fuel prefix (st, env0)
  = Some (st', env0') ->
  exists exchanges,
    dfs_exchanges character_set max_results rate_limit query_api disk_fault
      fuel prefix (st, env0) = Some exchanges /\
    request_count st' = (request_count st + Z.of_nat (length exchanges))%Z.
Proof.
  intros Hrun.
  apply dfs_exchanges_accounted in Hrun as (sent & Hsent & Hacc).
  exists (rev sent). split; [done|]. by apply accounted_count.
Qed.

(** X4.  The names at the end of a whole crawl are the names at its start
    together with every name of every answer the service gave during the
    crawl, and nothing else; and the request count has grown by the number
    of those answers. *)
Theorem names_are_the_answers fuel st (env0 : Env W) st' env0' :
  extract_names version character_set max_results rate_limit query_api disk_fault
    fuel (st, env0) = Some (st', env0') ->
  exists exchanges,
    crawl_exchanges version character_set max_results rate_limit query_api disk_fault
      fuel (st, env0) = Some exchanges /\
    request_count st' = (request_count st + Z.of_nat (length exchanges))%Z /\
    forall name,
      name ∈ names st' <->
      name ∈ names st \/
      exists query answer, (query, answer) ∈ exchanges /\ name ∈ answer.
Proof.
  intros Hrun.
  apply crawl_exchanges_accounted in Hrun as (sent & Hsent & Hacc).
  exists (rev sent). split_and!; [done|by apply accounted_count|].
  intros name. by apply accounted_names.
Qed.

End Transcript.

(** *** Character sets without a space *)

Lemma prefix_empty (s : string) : String.prefix EmptyString s = true.
Proof. by destruct s. Qed.

Lemma has_space_cons c (s : string) :
  has_space (String c s) = (if ascii_dec " " c then true else false) || has_space s.
Proof.
  unfold has_space. rewrite str_contains_cons. f_equal.
  change (String.prefix " " (String c s))
    with (if ascii_dec " " c then String.prefix EmptyString s else false).
  destruct (ascii_dec " " c); [apply prefix_empty|done].
Qed.

Lemma has_space_append (s t : string) : has_space (s ++ t) = has_space s || has_space t.
Proof.
  induction s as [|c s IH]; [done|].
  by rewrite append_cons, !has_space_cons, IH, orb_assoc.
Qed.

(** Both filters of [_dfs] need a space in the prefix. *)
Lemma rejected_has_space (prefix : string) : rejected prefix = true -> has_space prefix = true.
Proof.
  rewrite rejected_spec. unfold has_space. rewrite str_contains_spec.
  intros [(a & b & ->)|[[[b ->]|[a ->]] _]].
  - by exists a, (" " ++ b).
  - by exists EmptyString, b.
  - by exists a, EmptyString.
Qed.

Lemma paid_exactly_refl st : paid_exactly st st.
Proof. unfold paid_exactly. lia. Qed.

Lemma paid_exactly_trans a b c : paid_exactly a b -> paid_exactly b c -> paid_exactly a c.
Proof. unfold paid_exactly. lia. Qed.

Section SpaceFree.

Context {W : Type}.
Variable version : string.
Variable character_set : list string.
Variable max_results : Z.
Variable rate_limit : W -> W.
Variable query_api : string -> W -> list string * W.
Variable disk_fault : W -> io_fault * W.

Local Abbreviation suggest := (get_suggestions rate_limit query_api disk_fault).
Local Abbreviation dfs := (_dfs character_set max_results rate_limit query_api disk_fault).
Local Abbreviation crawl :=
  (extract_names version character_set max_results rate_limit query_api disk_fault).

Implicit Types (st : CrawlState) (env : Env W) (prefix : string).

Hypothesis no_space : forall char, char ∈ character_set -> has_space char = false.

Lemma dfs_paid_exactly fuel : forall prefix st env st' env',
  has_space prefix = false ->
  dfs fuel prefix (st, env) = Some (st', env') -> paid_exactly st st'.
Proof using no_space.
  induction fuel as [|fuel IH]; intros prefix st env st' env' Hclean Hrun; [done|].
  rewrite dfs_unfold in Hrun.
  case_bool_decide as Hvisited.
  { inversion Hrun; subst. apply paid_exactly_refl. }
  destruct (rejected prefix) eqn:Hrej.
  { apply rejected_has_space in Hrej. congruence. }
  cbv zeta in Hrun. set (r := suggest prefix (mark_visited prefix st) env) in *.
  assert (paid_exactly st r.1.2) as Hr.
  { subst r. rewrite get_suggestions_state. unfold paid_exactly; simpl.
    replace (visited_prefixes st ∪ {[prefix]} ∪ {[prefix]})
      with (visited_prefixes st ∪ {[prefix]}) by set_solver.
    rewrite size_add_new by done. lia. }
  destruct (max_results <=? Z.of_nat _)%Z; [|by inversion Hrun; subst].
  revert Hrun.
  apply (for_each_invariant (fun s => paid_exactly st s.1) _ _ (r.1.2, r.2) (st', env'));
    [|done].
  intros char [a e] [a' e'] Hchar Ha Hbody; cbn [fst snd] in *.
  destruct (len (prefix ++ char) <=? max_prefix_length)%nat; [|by inversion Hbody; subst].
  eapply paid_exactly_trans; [exact Ha|].
  eapply IH; [|done]. by rewrite has_space_append, Hclean, no_space.
Qed.

(** X5.  With a character set none of whose members contains a space, as
    the three shipped ones, no filter of [_dfs] ever applies during a crawl:
    every prefix the crawl marks visited is queried, so the request count
    grows by exactly the number of new visited prefixes. *)
Theorem space_free_crawl_queries_all fuel st env st' env' :
  extract_names version character_set max_results rate_limit query_api disk_fault
    fuel (st, env) = Some (st', env') ->
  (request_count st' - request_count st
   = Z.of_nat (size (visited_prefixes st' ∖ visited_prefixes st)))%Z.
Proof using no_space.
  intros Hrun.
  pose proof (extract_names_le _ _ _ _ _ _ _ _ _ _ _ Hrun) as (_ & Hsub & _).
  rewrite size_difference by done. apply subseteq_size in Hsub.
  enough (paid_exactly st st') as Hpaid by (unfold paid_exactly in Hpaid; lia).
  unfold extract_names in Hrun.
  destruct (for_each _ _ _) as [[st1 env1]|] eqn:Hloop; [|done].
  inversion Hrun; subst. revert Hloop.
  apply (for_each_invariant (fun s => paid_exactly st s.1) _ _ (st, env) (st', env1));
    [|apply paid_exactly_refl].
  intros char [a e] [a' e'] Hchar Ha Hbody; cbn [fst snd] in *.
  case_bool_decide; [by inversion Hbody; subst|].
  eapply paid_exactly_trans; [exact Ha|].
  eapply dfs_paid_exactly; [by apply no_space|done].
Qed.

End SpaceFree.

(** *** Checkpoints and results of a crawl *)

Lemma all_strings_map (l : list string) : all_strings (map JStr l) = Some l.
Proof. induction l as [|x l IH]; simpl; [done|by rewrite IH]. Qed.

Lemma py_set_of_elements (X : gset string) :
  py_set (JArr (map JStr (elements X))) = Val X.
Proof. unfold py_set. by rewrite all_strings_map, list_to_set_elements_L. Qed.

Lemma load_of_checkpoint_json (st st0 : CrawlState) :
  _load_checkpoint (Parsed (checkpoint_json st)) st0 = Val st.
Proof.
  unfold _load_checkpoint, checkpoint_json, obj_get_default.
  cbn [obj_get String.eqb Ascii.eqb Bool.eqb].
  rewrite !py_set_of_elements. cbn [py_int_value]. by destruct st.
Qed.

(** X6.  What [_save_checkpoint] builds, [_load_checkpoint] restores: the
    loader run on the document of a state returns exactly that state,
    whatever state it starts from, and so does the constructor. *)
Theorem checkpoint_round_trip (st st0 : CrawlState) :
  _load_checkpoint (Parsed (checkpoint_json st)) st0 = Val st /\
  init_extractor (Parsed (checkpoint_json st)) = Val st.
Proof. split; apply load_of_checkpoint_json. Qed.

Section CrawlArtifacts.

Context {W : Type}.
Variable version : string.
Variable character_set : list string.
Variable max_results : Z.
Variable rate_limit : W -> W.
Variable query_api : string -> W -> list string * W.
Variable disk_fault : W -> io_fault * W.

Local Abbreviation suggest := (get_suggestions rate_limit query_api disk_fault).
Local Abbreviation dfs := (_dfs character_set max_results rate_limit query_api disk_fault).
Local Abbreviation crawl :=
  (extract_names version character_set max_results rate_limit query_api disk_fault).

Implicit Types (st : CrawlState) (env : Env W) (prefix : string).

Hypothesis healthy_disk : forall w, (disk_fault w).1 = NoFault.

Lemma healthy_checkpoint st env :
  checkpoint_file (_save_checkpoint disk_fault st env) = Some (checkpoint_text st).
Proof using healthy_disk.
  unfold _save_checkpoint. pose proof (healthy_disk (world env)) as Hfault.
  destruct (disk_fault (world env)) as [fault w]. simpl in Hfault. by subst.
Qed.

Lemma healthy_results st env :
  results_file (_save_results version disk_fault st env)
  = Some (json_dumps (Some 2%nat) 0 (results_json version st)).
Proof using healthy_disk.
  unfold _save_results. pose proof (healthy_disk (world env)) as Hfault.
  destruct (disk_fault (world env)) as [fault w]. simpl in Hfault. by subst.
Qed.

Lemma save_results_keeps_checkpoint st env :
  checkpoint_file (_save_results version disk_fault st env) = checkpoint_file env.
Proof. unfold _save_results. by destruct (disk_fault (world env)). Qed.

Lemma checkpoint_lag_refl st env : checkpoint_lag st env st env.
Proof. split; [apply state_le_refl|]. by left. Qed.

Lemma checkpoint_lag_trans (a : CrawlState) (ea : Env W) (b : CrawlState) (eb : Env W)
  (c : CrawlState) (ec : Env W) :
  checkpoint_lag a ea b eb -> checkpoint_lag b eb c ec -> checkpoint_lag a ea c ec.
Proof.
  intros [Hab Hlag1] [Hbc Hlag2]. split; [by eapply state_le_trans|].
  destruct Hlag2 as [[Hdiv2 Hfile2]|(saved & Hfile2 & Hb & Hc & Hcount)].
  - destruct Hlag1 as [[Hdiv1 Hfile1]|(saved & Hfile1 & Ha & Hb & Hcount)].
    + left. split; congruence.
    + right. exists saved. split_and!; [congruence|done|by eapply state_le_trans|congruence].
  - right. exists saved. split_and!; [done|by eapply state_le_trans|done|done].
Qed.

Lemma get_suggestions_lag query st env :
  checkpoint_lag st env (suggest query st env).1.2 (suggest query st env).2.
Proof using healthy_disk.
  split; [apply get_suggestions_le|].
  pose proof (get_suggestions_state rate_limit query_api disk_fault query st env) as Hstate.
  unfold get_suggestions in *.
  destruct (query_api query (rate_limit (world env))) as [response w]. cbn [fst snd] in *.
  destruct (_ =? 0)%Z eqn:Hmod.
  - right. eexists. split_and!; [apply healthy_checkpoint| |apply state_le_refl|].
    + unfold state_le; simpl. split_and!; [set_solver|set_solver|lia].
    + apply Z.eqb_eq in Hmod. simpl in *.
      pose proof (Z.div_mod (request_count st + 1) 20 ltac:(lia)). lia.
  - left. apply Z.eqb_neq in Hmod. simpl in *. split; [|done].
    pose proof (Z.div_mod (request_count st + 1) 20 ltac:(lia)) as H1.
    pose proof (Z.mod_pos_bound (request_count st + 1) 20 ltac:(lia)) as H2.
    pose proof (Z.div_mod (request_count st) 20 ltac:(lia)) as H3.
    pose proof (Z.mod_pos_bound (request_count st) 20 ltac:(lia)) as H4.
    nia.
Qed.

Lemma dfs_lag fuel : forall prefix st env st' env',
  dfs fuel prefix (st, env) = Some (st', env') -> checkpoint_lag st env st' env'.
Proof using healthy_disk.
  induction fuel as [|fuel IH]; intros prefix st env st' env' Hrun; [done|].
  rewrite dfs_unfold in Hrun.
  case_bool_decide; [inversion Hrun; subst; apply checkpoint_lag_refl|].
  assert (checkpoint_lag st env (mark_visited prefix st) env) as Hmark.
  { split; [apply mark_visited_le|]. by left. }
  destruct (rejected prefix); [by inversion Hrun; subst|].
  cbv zeta in Hrun.
  pose proof (get_suggestions_lag prefix (mark_visited prefix st) env) as Hquery.
  set (r := suggest prefix (mark_visited prefix st) env) in *.
  assert (checkpoint_lag st env r.1.2 r.2) as Hr by (by eapply checkpoint_lag_trans).
  destruct (max_results <=? Z.of_nat _)%Z; [|by inversion Hrun; subst].
  revert Hrun.
  apply (for_each_invariant (fun s => checkpoint_lag st env s.1 s.2)
           _ _ (r.1.2, r.2) (st', env')); [|done].
  intros char [a e] [a' e'] _ Ha Hbody; cbn [fst snd] in *.
  destruct (len (prefix ++ char) <=? max_prefix_length)%nat; [|by inversion Hbody; subst].
  eapply checkpoint_lag_trans; [exact Ha|by eapply IH].
Qed.

(** X7.  On a disk without faults the checkpoint never lags 20 requests
    behind: at the end of any call of [_dfs], either the request count has
    reached no new multiple of 20 and the checkpoint file is untouched, or
    the file holds the checkpoint of a state of this very call, taken at
    the last multiple of 20 requests, so fewer than 20 requests ago. *)
Theorem checkpoint_lags_less_than_20 fuel prefix st env st' env' :
  _dfs character_set max_results rate_limit query_api disk_fault
    fuel prefix (st, env) = Some (st', env') ->
  ((request_count st' / 20 = request_count st / 20)%Z /\
   checkpoint_file env' = checkpoint_file env) \/
  exists saved,
    checkpoint_file env' = Some (checkpoint_text saved) /\
    state_le st saved /\ state_le saved st' /\
    (0 <= request_count st' - request_count saved < 20)%Z.
Proof using healthy_disk.
  intros Hrun. apply dfs_lag in Hrun as [_ [Hsame|(saved & Hfile & Ha & Hb & Hcount)]].
  - by left.
  - right. exists saved. split_and!; [done|done|done| |].
    + pose proof (Z.div_mod (request_count st') 20 ltac:(lia)).
      pose proof (Z.mod_pos_bound (request_count st') 20 ltac:(lia)). lia.
    + pose proof (Z.div_mod (request_count st') 20 ltac:(lia)).
      pose proof (Z.mod_pos_bound (request_count st') 20 ltac:(lia)). lia.
Qed.

(** X8.  On a disk without faults a crawl that returns leaves both files
    written from its final state: the checkpoint file holds the checkpoint
    of the final state, from whose document the loader restores that state,
    and the results file holds the results document, whose [names] list has
    no duplicates and as many entries as [total_names] says. *)
Theorem healthy_crawl_artifacts fuel st env st' env' :
  extract_names version character_set max_results rate_limit query_api disk_fault
    fuel (st, env) = Some (st', env') ->
  checkpoint_file env' = Some (checkpoint_text st') /\
  init_extractor (Parsed (checkpoint_json st')) = Val st' /\
  results_file env' = Some (json_dumps (Some 2%nat) 0 (results_json version st')) /\
  exists listed,
    results_json version st'
    = JObj [("version", JStr version); ("names", JArr (map JStr listed));
            ("request_count", JNum (request_count st'));
            ("total_names", JNum (Z.of_nat (length listed)))] /\
    NoDup listed /\ (forall name, name ∈ listed <-> name ∈ names st').
Proof using healthy_disk.
  unfold extract_names. intros Hrun.
  destruct (for_each _ _ _) as [[st1 env1]|]; [|done].
  inversion Hrun; subst. split_and!.
  - by rewrite save_results_keeps_checkpoint, healthy_checkpoint.
  - apply load_of_checkpoint_json.
  - apply healthy_results.
  - exists (elements (names st')). split_and!.
    + unfold results_json. do 5 f_equal.
    + apply NoDup_elements.
    + intros name. apply elem_of_elements.
Qed.

End CrawlArtifacts.

(** *** The crawl on the simulated service *)

Lemma small_crawl :
  extract_names "v1" ["c"; "d"] 2 sim_wait (sim_api sim_vocabulary 2) sim_fault 3
    (initial_state, sim_env)
  = Some (small_crawl_state, small_crawl_env).
Proof. by vm_compute. Qed.

Lemma sim_disk_healthy (w : nat) : (sim_fault w).1 = NoFault.
Proof. reflexivity. Qed.

Lemma small_set_space_free (char : string) :
  char ∈ ["c"; "d"] -> has_space char = false.
Proof.
  intros Hchar. repeat (apply elem_of_cons in Hchar as [->|Hchar]; [reflexivity|]).
  by apply elem_of_nil in Hchar.
Qed.

(** X1, witness: the crawl over ["c"] and ["d"] has visited ["d"]. *)
Lemma crawl_visits_every_root_witness :
  "d" ∈ visited_prefixes small_crawl_state.
Proof.
  apply (crawl_visits_every_root "v1" ["c"; "d"] 2 sim_wait (sim_api sim_vocabulary 2)
           sim_fault 3 initial_state sim_env small_crawl_state small_crawl_env
           small_crawl "d").
  apply elem_of_cons; right. apply elem_of_cons; by left.
Defined.

(** X2, witness: crawling again from the final state changes nothing. *)
Lemma finished_crawl_is_fixpoint_witness :
  extract_names "v1" ["c"; "d"] 2 sim_wait (sim_api sim_vocabulary 2) sim_fault 0
    (small_crawl_state, sim_env)
  = Some (small_crawl_state,
          _save_results "v1" sim_fault small_crawl_state
            (_save_checkpoint sim_fault small_crawl_state sim_env)).
Proof.
  exact (finished_crawl_is_fixpoint "v1" ["c"; "d"] 2 sim_wait (sim_api sim_vocabulary 2)
           sim_fault 3 initial_state sim_env small_crawl_state small_crawl_env
           small_crawl 0 sim_env).
Defined.

(** X3, witness: the traversal below ["c"] made 13 requests. *)
Lemma request_count_counts_queries_witness :
  exists exchanges,
    dfs_exchanges sim_character_set 2 sim_wait (sim_api sim_vocabulary 2) sim_fault
      dfs_depth "c" (initial_state, sim_env) = Some exchanges /\
    13%Z = (0 + Z.of_nat (length exchanges))%Z.
Proof.
  exact (request_count_counts_queries sim_character_set 2 sim_wait
           (sim_api sim_vocabulary 2) sim_fault dfs_depth "c" initial_state sim_env
           _ _ sim_traversal).
Defined.

(** X4, witness: the four names of the small crawl are those of its answers. *)
Lemma names_are_the_answers_witness :
  exists exchanges,
    crawl_exchanges "v1" ["c"; "d"] 2 sim_wait (sim_api sim_vocabulary 2) sim_fault 3
      (initial_state, sim_env) = Some exchanges /\
    request_count small_crawl_state
    = (request_count initial_state + Z.of_nat (length exchanges))%Z /\
    forall name,
      name ∈ names small_crawl_state <->
      name ∈ names initial_state \/
      exists query answer, (query, answer) ∈ exchanges /\ name ∈ answer.
Proof.
  exact (names_are_the_answers "v1" ["c"; "d"] 2 sim_wait (sim_api sim_vocabulary 2)
           sim_fault 3 initial_state sim_env small_crawl_state small_crawl_env
           small_crawl).
Defined.

(** X5, witness: six prefixes visited, six requests. *)
Lemma space_free_crawl_queries_all_witness :
  (request_count small_crawl_state - request_count initial_state)%Z
  = Z.of_nat (size (visited_prefixes small_crawl_state ∖ visited_prefixes initial_state)).
Proof.
  exact (space_free_crawl_queries_all "v1" ["c"; "d"] 2 sim_wait
           (sim_api sim_vocabulary 2) sim_fault small_set_space_free
           3 initial_state sim_env small_crawl_state small_crawl_env small_crawl).
Defined.

(** X7, witness: the traversal below ["c"] stays under 20 requests and
    leaves the checkpoint file alone. *)
Lemma checkpoint_lags_less_than_20_witness :
  ((13 / 20 = 0 / 20)%Z /\ checkpoint_file sim_env = checkpoint_file sim_env) \/
  exists saved,
    checkpoint_file sim_env = Some (checkpoint_text saved) /\
    state_le initial_state saved /\
    state_le saved
      {| names := {["cat"; "car"; "cab"]};
         visited_prefixes :=
           list_to_set ["c"; "ca"; "caa"; "cab"; "cac"; "cad"; "cao"; "cat"; "ca ";
                        "cb"; "cc"; "cd"; "co"; "ct"; "c "];
         request_count := 13 |} /\
    (0 <= 13 - request_count saved < 20)%Z.
Proof.
  exact (checkpoint_lags_less_than_20 sim_character_set 2 sim_wait
           (sim_api sim_vocabulary 2) sim_fault sim_disk_healthy dfs_depth "c"
           initial_state sim_env _ _ sim_traversal).
Defined.

(** X8, witness: the files the small crawl leaves. *)
Lemma healthy_crawl_artifacts_witness :
  checkpoint_file small_crawl_env = Some (checkpoint_text small_crawl_state) /\
  init_extractor (Parsed (checkpoint_json small_crawl_state)) = Val small_crawl_state /\
  results_file small_crawl_env
  = Some (json_dumps (Some 2%nat) 0 (results_json "v1" small_crawl_state)) /\
  exists listed,
    results_json "v1" small_crawl_state
    = JObj [("version", JStr "v1"); ("names", JArr (map JStr listed));
            ("request_count", JNum (request_count small_crawl_state));
            ("total_names", JNum (Z.of_nat (length listed)))] /\
    NoDup listed /\ (forall name, name ∈ listed <-> name ∈ names small_crawl_state).
Proof.
  exact (healthy_crawl_artifacts "v1" ["c"; "d"] 2 sim_wait (sim_api sim_vocabulary 2)
           sim_fault sim_disk_healthy 3 initial_state sim_env small_crawl_state
           small_crawl_env small_crawl).
Defined.

(** ** The client: exceptions, provenance and traffic *)

Section ClientTraffic.

Context {W : Type}.
Variable http_get : string -> string -> W -> http_outcome * W.
Variable sleep : Z -> W -> option W.
Variable base_url : string.

Lemma counted_get_pair url query w c :
  counted_get http_get url query (w, c)
  = ((http_get url query w).1, ((http_get url query w).2, (S c.1, c.2))).
Proof. unfold counted_get; cbn [fst snd]. by destruct (http_get url query w). Qed.

Lemma counted_sleep_pair seconds w c :
  counted_sleep sleep seconds (w, c)
  = match sleep seconds w with Some w' => Some (w', (c.1, S c.2)) | None => None end.
Proof. reflexivity. Qed.

(** Counting changes neither the value nor the world. *)
Lemma request_loop_counted url query max_retries retry_delay :
  forall todo attempt w c,
    let counted := request_loop (counted_get http_get) (counted_sleep sleep)
                     url query max_retries retry_delay todo attempt (w, c) in
    let plain := request_loop http_get sleep url query max_retries retry_delay todo attempt w in
    counted.1 = plain.1 /\ counted.2.1 = plain.2.
Proof.
  induction todo as [|todo IH]; intros attempt w c; [done|].
  cbv zeta. cbn [request_loop]. rewrite !counted_get_pair.
  destruct (http_get url query w) as [outcome w1]. cbn [fst snd].
  assert (forall c',
    let counted :=
      if (attempt <? max_retries)%Z
      then match counted_sleep sleep retry_delay (w1, c') with
           | Some w'' => request_loop (counted_get http_get) (counted_sleep sleep)
                           url query max_retries retry_delay todo (attempt + 1) w''
           | None => (None, (w1, c'))
           end
      else (Some (JArr []), (w1, c')) in
    let plain :=
      if (attempt <? max_retries)%Z
      then match sleep retry_delay w1 with
           | Some w'' => request_loop http_get sleep url query max_retries retry_delay
                           todo (attempt + 1) w''
           | None => (None, w1)
           end
      else (Some (JArr []), w1) in
    counted.1 = plain.1 /\ counted.2.1 = plain.2) as Hhandler.
  { intros c'. cbv zeta. destruct (attempt <? max_retries)%Z; [|done].
    rewrite !counted_sleep_pair. destruct (sleep retry_delay w1); [apply IH|done]. }
  cbv zeta in Hhandler.
  destruct outcome as [|status_code body retry_after]; [apply Hhandler|].
  destruct (status_code =? 200)%Z.
  { destruct body as [[]|]; first [apply Hhandler|done]. }
  destruct (status_code =? 429)%Z; [|done].
  destruct (attempt <? max_retries)%Z eqn:Hattempt; [|done].
  specialize (Hhandler (S c.1, c.2)).
  destruct (retry_wait retry_after retry_delay) as [wait_time|]; [|apply Hhandler].
  rewrite !counted_sleep_pair.
  destruct (sleep wait_time w1); [apply IH|apply Hhandler].
Qed.

(** The traffic of the loop with as many iterations left as [range] has: one
    request per iteration, at most [todo] of them; never more sleeps than
    requests; and one sleep fewer than requests when the loop returns. *)
Lemma request_loop_traffic url query max_retries retry_delay :
  forall todo attempt w gets sleeps,
    (attempt + Z.of_nat todo = max_retries)%Z ->
    let run := request_loop (counted_get http_get) (counted_sleep sleep)
                 url query max_retries retry_delay (S todo) attempt (w, (gets, sleeps)) in
    (gets < run.2.2.1 <= gets + S todo)%nat /\
    (run.2.2.2 - sleeps < run.2.2.1 - gets)%nat /\
    (sleeps <= run.2.2.2)%nat /\
    (is_Some run.1 -> (run.2.2.2 - sleeps + 1 = run.2.2.1 - gets)%nat).
Proof.
  induction todo as [|todo IH]; intros attempt w gets sleeps Hleft; cbv zeta.
  - assert ((attempt <? max_retries)%Z = false) as Hlast by (apply Z.ltb_ge; lia).
    cbn [request_loop]. rewrite Hlast, !counted_get_pair.
    destruct (http_get url query w) as [[|status_code body retry_after] w1]; cbn [fst snd].
    { split_and!; lia. }
    destruct (status_code =? 200)%Z.
    { destruct body as [[]|]; cbn [fst snd]; split_and!; lia. }
    destruct (status_code =? 429)%Z; cbn [fst snd]; split_and!; lia.
  - assert ((attempt <? max_retries)%Z = true) as Hmore by (apply Z.ltb_lt; lia).
    assert (attempt + 1 + Z.of_nat todo = max_retries)%Z as Hleft' by lia.
    remember (S todo) as todo' eqn:Htodo. cbn [request_loop]. rewrite Hmore. subst todo'.
    rewrite !counted_get_pair.
    destruct (http_get url query w) as [outcome w1]. cbn [fst snd].
    assert (
      let run :=
        match counted_sleep sleep retry_delay (w1, (S gets, sleeps)) with
        | Some w'' => request_loop (counted_get http_get) (counted_sleep sleep)
                        url query max_retries retry_delay (S todo) (attempt + 1) w''
        | None => (None, (w1, (S gets, sleeps)))
        end in
      (gets < run.2.2.1 <= gets + S (S todo))%nat /\
      (run.2.2.2 - sleeps < run.2.2.1 - gets)%nat /\
      (sleeps <= run.2.2.2)%nat /\
      (is_Some run.1 -> (run.2.2.2 - sleeps + 1 = run.2.2.1 - gets)%nat)) as Hhandler.
    { cbv zeta. rewrite !counted_sleep_pair; cbn [fst snd].
      destruct (sleep retry_delay w1) as [w2|].
      - specialize (IH (attempt + 1)%Z w2 (S gets) (S sleeps) Hleft'). cbv zeta in IH.
        destruct IH as (Hg & Hs & Hm & Hret). split_and!; try lia.
        intros Hsome. specialize (Hret Hsome). lia.
      - cbn [fst snd]. split_and!; lia. }
    cbv zeta in Hhandler.
    destruct outcome as [|status_code body retry_after]; [apply Hhandler|].
    destruct (status_code =? 200)%Z.
    { destruct body as [[]|]; first [apply Hhandler|cbn [fst snd]; split_and!; lia]. }
    destruct (status_code =? 429)%Z; [|cbn [fst snd]; split_and!; lia].
    destruct (retry_wait retry_after retry_delay) as [wait_time|]; [|apply Hhandler].
    rewrite !counted_sleep_pair; cbn [fst snd].
    destruct (sleep wait_time w1) as [w2|]; [|apply Hhandler].
    specialize (IH (attempt + 1)%Z w2 (S gets) (S sleeps) Hleft'). cbv zeta in IH.
    destruct IH as (Hg & Hs & Hm & Hret). split_and!; try lia.
    intros Hsome. specialize (Hret Hsome). lia.
Qed.

(** With nothing but retryable outcomes the loop uses every iteration. *)
Lemma request_loop_exhausts url query max_retries retry_delay :
  (forall w, retryable (http_get url query w).1 = true) ->
  (forall w, is_Some (sleep retry_delay w)) ->
  forall todo attempt w gets sleeps,
    (attempt + Z.of_nat todo = max_retries)%Z ->
    let run := request_loop (counted_get http_get) (counted_sleep sleep)
                 url query max_retries retry_delay (S todo) attempt (w, (gets, sleeps)) in
    run.1 = Some (JArr []) /\ run.2.2 = ((gets + S todo)%nat, (sleeps + todo)%nat).
Proof.
  intros Hretry Hsleep.
  induction todo as [|todo IH]; intros attempt w gets sleeps Hleft; cbv zeta.
  - assert ((attempt <? max_retries)%Z = false) as Hlast by (apply Z.ltb_ge; lia).
    cbn [request_loop]. rewrite Hlast, !counted_get_pair.
    specialize (Hretry w).
    destruct (http_get url query w) as [[|status_code body retry_after] w1];
      cbn [fst snd retryable] in *.
    { split; [done|]. f_equal; lia. }
    destruct (status_code =? 200)%Z.
    { destruct body as [[]|]; try done. cbn [fst snd]. split; [done|]. f_equal; lia. }
    rewrite Hretry. cbn [fst snd]. split; [done|]. f_equal; lia.
  - assert ((attempt <? max_retries)%Z = true) as Hmore by (apply Z.ltb_lt; lia).
    assert (attempt + 1 + Z.of_nat todo = max_retries)%Z as Hleft' by lia.
    remember (S todo) as todo' eqn:Htodo. cbn [request_loop]. rewrite Hmore. subst todo'.
    rewrite !counted_get_pair. specialize (Hretry w).
    destruct (http_get url query w) as [outcome w1]. cbn [fst snd] in *.
    assert (
      let run :=
        match counted_sleep sleep retry_delay (w1, (S gets, sleeps)) with
        | Some w'' => request_loop (counted_get http_get) (counted_sleep sleep)
                        url query max_retries retry_delay (S todo) (attempt + 1) w''
        | None => (None, (w1, (S gets, sleeps)))
        end in
      run.1 = Some (JArr []) /\
      run.2.2 = ((gets + S (S todo))%nat, (sleeps + S todo)%nat)) as Hhandler.
    { cbv zeta. rewrite !counted_sleep_pair; cbn [fst snd].
      destruct (Hsleep w1) as [w2 ->].
      specialize (IH (attempt + 1)%Z w2 (S gets) (S sleeps) Hleft'). cbv zeta in IH.
      destruct IH as [-> ->]. split; [done|]. f_equal; lia. }
    cbv zeta in Hhandler.
    destruct outcome as [|status_code body retry_after]; [apply Hhandler|].
    cbn [retryable] in Hretry.
    destruct (status_code =? 200)%Z.
    { destruct body as [[]|]; first [apply Hhandler|done]. }
    rewrite Hretry.
    destruct (retry_wait retry_after retry_delay) as [wait_time|]; [|apply Hhandler].
    rewrite !counted_sleep_pair; cbn [fst snd].
    destruct (sleep wait_time w1) as [w2|]; [|apply Hhandler].
    specialize (IH (attempt + 1)%Z w2 (S gets) (S sleeps) Hleft'). cbv zeta in IH.
    destruct IH as [-> ->]. split; [done|]. f_equal; lia.
Qed.

Lemma heard_get_pair url query w (heard : list http_outcome) :
  heard_get http_get url query (w, heard)
  = ((http_get url query w).1,
     ((http_get url query w).2, (http_get url query w).1 :: heard)).
Proof. unfold heard_get; cbn [fst snd]. by destruct (http_get url query w). Qed.

Lemma heard_sleep_pair seconds w (heard : list http_outcome) :
  heard_sleep sleep seconds (w, heard)
  = match sleep seconds w with Some w' => Some (w', heard) | None => None end.
Proof. reflexivity. Qed.

(** The loop and what it hears.  Listening changes neither the value nor the
    world; when the loop returns a value, that value is the empty list, or
    the last outcome heard is a response with status 200 and a body that
    parsed, and the value is what the body gives; every outcome heard before
    the last one is one the loop retries. *)
Lemma request_loop_heard url query max_retries retry_delay :
  forall todo attempt w heard,
    let run := request_loop (heard_get http_get) (heard_sleep sleep)
                 url query max_retries retry_delay todo attempt (w, heard) in
    let plain := request_loop http_get sleep url query max_retries retry_delay todo attempt w in
    run.1 = plain.1 /\ run.2.1 = plain.2 /\
    exists new,
      run.2.2 = (new ++ heard)%list /\
      Forall (fun outcome => retryable outcome = true) (tail new) /\
      forall v, run.1 = Some v ->
        v = JArr [] \/
        exists body retry_after,
          head new = Some (Response 200 (Some body) retry_after) /\
          v = payload_value body.
Proof.
  induction todo as [|todo IH]; intros attempt w heard; cbv zeta.
  { split; [done|]. split; [done|]. exists []. split_and!; [done|constructor|].
    intros v [= <-]. by left. }
  cbn [request_loop]. rewrite !heard_get_pair.
  destruct (http_get url query w) as [outcome w1]. cbn [fst snd].
  assert (retryable outcome = true ->
    let run :=
      if (attempt <? max_retries)%Z
      then match heard_sleep sleep retry_delay (w1, outcome :: heard) with
           | Some w'' => request_loop (heard_get http_get) (heard_sleep sleep)
                           url query max_retries retry_delay todo (attempt + 1) w''
           | None => (None, (w1, outcome :: heard))
           end
      else (Some (JArr []), (w1, outcome :: heard)) in
    let plain :=
      if (attempt <? max_retries)%Z
      then match sleep retry_delay w1 with
           | Some w'' => request_loop http_get sleep url query max_retries retry_delay
                           todo (attempt + 1) w''
           | None => (None, w1)
           end
      else (Some (JArr []), w1) in
    run.1 = plain.1 /\ run.2.1 = plain.2 /\
    exists new,
      run.2.2 = (new ++ heard)%list /\
      Forall (fun outcome => retryable outcome = true) (tail new) /\
      forall v, run.1 = Some v ->
        v = JArr [] \/
        exists body retry_after,
          head new = Some (Response 200 (Some body) retry_after) /\
          v = payload_value body) as Hhandler.
  { intros Hretry. cbv zeta. destruct (attempt <? max_retries)%Z.
    - rewrite heard_sleep_pair. destruct (sleep retry_delay w1) as [w2|].
      + destruct (IH (attempt + 1)%Z w2 (outcome :: heard))
          as (Hvalue & Hworld & new & Hnew & Hearlier & Hlast).
        split; [done|]. split; [done|].
        exists (new ++ [outcome])%list. split_and!.
        * by rewrite Hnew, <- app_assoc.
        * destruct new as [|first new]; [constructor|]. simpl in *.
          apply Forall_app. split; [done|]. by repeat constructor.
        * intros v Hv. destruct (Hlast v Hv) as [?|(body & ra & Hhead & ?)]; [by left|].
          right. exists body, ra. split; [|done]. by destruct new.
      + split; [done|]. split; [done|]. exists [outcome]. split_and!; [done|constructor|done].
    - split; [done|]. split; [done|]. exists [outcome]. split_and!; [done|constructor|].
      intros v [= <-]. by left. }
  cbv zeta in Hhandler.
  destruct outcome as [|status_code body retry_after]; [by apply Hhandler|].
  cbn [retryable] in Hhandler.
  destruct (status_code =? 200)%Z eqn:Hstatus.
  { apply Z.eqb_eq in Hstatus as ->.
    destruct body as [body|]; [|by apply Hhandler].
    assert (forall v, v = payload_value body ->
      (Some v, (w1, Response 200 (Some body) retry_after :: heard)).1 = (Some v, w1).1 /\
      (Some v, (w1, Response 200 (Some body) retry_after :: heard)).2.1 = (Some v, w1).2 /\
      exists new,
        (Some v, (w1, Response 200 (Some body) retry_after :: heard)).2.2
        = (new ++ heard)%list /\
        Forall (fun outcome => retryable outcome = true) (tail new) /\
        forall v', (Some v, (w1, Response 200 (Some body) retry_after :: heard)).1 = Some v' ->
          v' = JArr [] \/
          exists body' retry_after',
            head new = Some (Response 200 (Some body') retry_after') /\
            v' = payload_value body') as Hreturn.
    { intros v ->. split; [done|]. split; [done|].
      exists [Response 200 (Some body) retry_after]. split_and!; [done|constructor|].
      intros v' [= <-]. right. by exists body, retry_after. }
    destruct body; by apply Hreturn. }
  destruct (status_code =? 429)%Z eqn:Hlimited.
  - destruct (attempt <? max_retries)%Z eqn:Hattempt.
    + destruct (retry_wait retry_after retry_delay) as [wait_time|]; [|by apply Hhandler].
      rewrite !heard_sleep_pair.
      destruct (sleep wait_time w1) as [w2|]; [|by apply Hhandler].
      destruct (IH (attempt + 1)%Z w2 (Response status_code body retry_after :: heard))
        as (Hvalue & Hworld & new & Hnew & Hearlier & Hlast).
      split; [done|]. split; [done|].
      exists (new ++ [Response status_code body retry_after])%list. split_and!.
      * by rewrite Hnew, <- app_assoc.
      * destruct new as [|first new]; [constructor|]. simpl in *.
        apply Forall_app. split; [done|]. repeat constructor.
        cbn [retryable]. by rewrite Hstatus.
      * intros v Hv. destruct (Hlast v Hv) as [?|(body' & ra & Hhead & ?)]; [by left|].
        right. exists body', ra. split; [|done]. by destruct new.
    + split; [done|]. split; [done|].
      exists [Response status_code body retry_after]. split_and!; [done|constructor|].
      intros v [= <-]. by left.
  - split; [done|]. split; [done|].
    exists [Response status_code body retry_after]. split_and!; [done|constructor|].
    intros v [= <-]. by left.
Qed.

(** X9.  When [time.sleep(retry_delay)] cannot raise, no exception leaves
    [get_autocomplete_suggestions], and what it returns is the empty list or
    comes from the last response the call itself received: that response has
    status 200 and a body that parsed, and the value is the body when it is a
    list and the field the chain selects when it is an object.  Every
    outcome the call received before that one is one the loop retries.
    Listening to the outcomes changes neither the value nor the world. *)
Theorem client_answer_is_empty_or_payload query version max_retries retry_delay w :
  (forall w', is_Some (sleep retry_delay w')) ->
  let heard := client_heard http_get sleep base_url query version max_retries retry_delay w in
  let listened := get_autocomplete_suggestions (heard_get http_get) (heard_sleep sleep)
                    base_url query version max_retries retry_delay (w, []) in
  let plain := get_autocomplete_suggestions http_get sleep base_url query version
                 max_retries retry_delay w in
  listened.1 = plain.1 /\ listened.2.1 = plain.2 /\
  Forall (fun outcome => retryable outcome = true) (tail heard) /\
  exists v,
    plain.1 = Some v /\
    (v = JArr [] \/
     exists body retry_after,
       head heard = Some (Response 200 (Some body) retry_after) /\
       (match body with JArr _ | JObj _ => True | _ => False end) /\
       v = payload_value body).
Proof.
  intros Hsleep. cbv zeta. unfold client_heard, get_autocomplete_suggestions.
  set (url := base_url ++ "/" ++ version ++ "/autocomplete").
  destruct (request_loop_heard url query max_retries retry_delay
              (Z.to_nat (max_retries + 1)) 0%Z w [])
    as (Hvalue & Hworld & new & Hnew & Hearlier & Hlast).
  rewrite Hnew, app_nil_r. split; [done|]. split; [done|]. split; [done|].
  destruct (request_loop_no_exception http_get sleep url query max_retries retry_delay
              Hsleep (Z.to_nat (max_retries + 1)) 0%Z w) as [v Hrun].
  exists v. split; [done|]. rewrite <- Hvalue in Hrun.
  destruct (Hlast v Hrun) as [?|(body & ra & Hhead & Hv)]; [by left|].
  destruct body as [| | | |items|data] eqn:Hbody; try (left; exact Hv).
  - right. exists (JArr items), ra. by split_and!.
  - right. exists (JObj data), ra. by split_and!.
Qed.

(** X10.  One call of [get_autocomplete_suggestions] with [max_retries] not
    negative sends at least one request and at most [max_retries + 1], and
    completes fewer sleeps than it sends requests: exactly one fewer when it
    returns.  The counters only observe: the value returned and the world
    are those of the call itself. *)
Theorem client_request_budget query version max_retries retry_delay w :
  (0 <= max_retries)%Z ->
  let counted := get_autocomplete_suggestions (counted_get http_get) (counted_sleep sleep)
                   base_url query version max_retries retry_delay (w, (0%nat, 0%nat)) in
  let plain := get_autocomplete_suggestions http_get sleep base_url query version
                 max_retries retry_delay w in
  let traffic := client_traffic http_get sleep base_url query version
                   max_retries retry_delay w in
  counted.1 = plain.1 /\ counted.2.1 = plain.2 /\
  (1 <= Z.of_nat traffic.1 <= max_retries + 1)%Z /\
  (traffic.2 < traffic.1)%nat /\
  (is_Some plain.1 -> (traffic.2 + 1)%nat = traffic.1).
Proof.
  intros Hretries. cbv zeta. unfold client_traffic, get_autocomplete_suggestions.
  set (url := base_url ++ "/" ++ version ++ "/autocomplete").
  destruct (request_loop_counted url query max_retries retry_delay
              (Z.to_nat (max_retries + 1)) 0%Z w (0%nat, 0%nat)) as [Hvalue Hworld].
  rewrite <- Hvalue. split; [done|]. split; [done|].
  assert (Z.to_nat (max_retries + 1) = S (Z.to_nat max_retries)) as -> by lia.
  destruct (request_loop_traffic url query max_retries retry_delay
              (Z.to_nat max_retries) 0%Z w 0%nat 0%nat ltac:(lia)) as (Hg & Hs & _ & Hret).
  split_and!; try lia. intros Hsome. specialize (Hret Hsome). lia.
Qed.

(** X11.  With a negative [max_retries] the loop body never runs: the call
    returns the empty list without a request or a sleep, the world
    untouched. *)
Theorem negative_retries_send_nothing query version max_retries retry_delay w :
  (max_retries < 0)%Z ->
  get_autocomplete_suggestions http_get sleep base_url query version
    max_retries retry_delay w = (Some (JArr []), w) /\
  client_traffic http_get sleep base_url query version max_retries retry_delay w
  = (0%nat, 0%nat).
Proof.
  intros Hnegative. unfold client_traffic, get_autocomplete_suggestions.
  by assert (Z.to_nat (max_retries + 1) = 0%nat) as -> by lia.
Qed.

(** X12.  When every outcome is one the loop retries (an exception of
    [session.get], a 429, or a 200 whose body does not parse) and
    [time.sleep(retry_delay)] cannot raise, the call uses its whole budget:
    [max_retries + 1] requests, [max_retries] sleeps, and the empty list as
    its value. *)
Theorem persistent_failure_exhausts_retries query version max_retries retry_delay w :
  (forall url w', retryable (http_get url query w').1 = true) ->
  (forall w', is_Some (sleep retry_delay w')) ->
  (0 <= max_retries)%Z ->
  (get_autocomplete_suggestions http_get sleep base_url query version
     max_retries retry_delay w).1 = Some (JArr []) /\
  client_traffic http_get sleep base_url query version max_retries retry_delay w
  = (Z.to_nat (max_retries + 1), Z.to_nat max_retries).
Proof.
  intros Hretry Hsleep Hretries. unfold client_traffic, get_autocomplete_suggestions.
  set (url := base_url ++ "/" ++ version ++ "/autocomplete").
  destruct (request_loop_counted url query max_retries retry_delay
              (Z.to_nat (max_retries + 1)) 0%Z w (0%nat, 0%nat)) as [<- _].
  assert (Z.to_nat (max_retries + 1) = S (Z.to_nat max_retries)) as -> by lia.
  destruct (request_loop_exhausts url query max_retries retry_delay (Hretry url) Hsleep
              (Z.to_nat max_retries) 0%Z w 0%nat 0%nat ltac:(lia)) as [Hvalue Htraffic].
  split; [done|]. by rewrite Htraffic.
Qed.

End ClientTraffic.

(** X9, witness: a 429 and then a list: the value is the body of the last
    response heard. *)
Lemma client_answer_is_empty_or_payload_witness :
  exists v,
    (get_autocomplete_suggestions script_get script_sleep "http://host" "ab" "v1"
       default_max_retries default_retry_delay
       [Response 429 None (Some "5"); Response 200 (Some (JArr [JStr "abc"])) None]).1
    = Some v /\
    (v = JArr [] \/
     exists body retry_after,
       head (client_heard script_get script_sleep "http://host" "ab" "v1"
               default_max_retries default_retry_delay
               [Response 429 None (Some "5"); Response 200 (Some (JArr [JStr "abc"])) None])
       = Some (Response 200 (Some body) retry_after) /\
       (match body with JArr _ | JObj _ => True | _ => False end) /\
       v = payload_value body).
Proof.
  pose proof (client_answer_is_empty_or_payload script_get script_sleep "http://host"
                "ab" "v1" default_max_retries default_retry_delay
                [Response 429 None (Some "5"); Response 200 (Some (JArr [JStr "abc"])) None]
                (fun w' => ex_intro _ w' eq_refl)) as Hanswer.
  cbv zeta in Hanswer. exact (proj2 (proj2 (proj2 Hanswer))).
Defined.

(** X10, witness: a 429 and then a list, with the default budget. *)
Lemma client_request_budget_witness :
  let counted := get_autocomplete_suggestions (counted_get script_get)
                   (counted_sleep script_sleep) "http://host" "ab" "v1"
                   default_max_retries default_retry_delay
                   ([Response 429 None (Some "5"); Response 200 (Some (JArr [])) None],
                    (0%nat, 0%nat)) in
  let plain := get_autocomplete_suggestions script_get script_sleep "http://host" "ab" "v1"
                 default_max_retries default_retry_delay
                 [Response 429 None (Some "5"); Response 200 (Some (JArr [])) None] in
  let traffic := client_traffic script_get script_sleep "http://host" "ab" "v1"
                   default_max_retries default_retry_delay
                   [Response 429 None (Some "5"); Response 200 (Some (JArr [])) None] in
  counted.1 = plain.1 /\ counted.2.1 = plain.2 /\
  (1 <= Z.of_nat traffic.1 <= default_max_retries + 1)%Z /\
  (traffic.2 < traffic.1)%nat /\
  (is_Some plain.1 -> (traffic.2 + 1)%nat = traffic.1).
Proof.
  apply (client_request_budget script_get script_sleep "http://host" "ab" "v1"
           default_max_retries default_retry_delay).
  unfold default_max_retries. lia.
Defined.

(** X11, witness: [max_retries = -1]. *)
Lemma negative_retries_send_nothing_witness :
  get_autocomplete_suggestions dead_get easy_sleep "http://host" "ab" "v1" (-1) 60 0%nat
  = (Some (JArr []), 0%nat) /\
  client_traffic dead_get easy_sleep "http://host" "ab" "v1" (-1) 60 0%nat = (0%nat, 0%nat).
Proof.
  apply (negative_retries_send_nothing dead_get easy_sleep "http://host" "ab" "v1" (-1) 60).
  lia.
Defined.

(** X12, witness: a dead network and the default budget: four requests and
    three sleeps. *)
Lemma persistent_failure_exhausts_retries_witness :
  (get_autocomplete_suggestions dead_get easy_sleep "http://host" "ab" "v1"
     default_max_retries default_retry_delay 0%nat).1 = Some (JArr []) /\
  client_traffic dead_get easy_sleep "http://host" "ab" "v1"
    default_max_retries default_retry_delay 0%nat
  = (Z.to_nat (default_max_retries + 1), Z.to_nat default_max_retries).
Proof.
  apply (persistent_failure_exhausts_retries dead_get easy_sleep "http://host" "ab" "v1"
           default_max_retries default_retry_delay).
  - reflexivity.
  - intros w'. by eexists.
  - unfold default_max_retries. lia.
Defined.

(** ** The limiter: the error, the guarantee, and the limiters by version *)

Section LimiterFacts.

Context {W : Type}.
Variable time_time : W -> Q * W.
Variable time_sleep : Q -> W -> W.

Local Abbreviation await := (wait_if_needed time_time time_sleep).


(** One call keeps the invariant and appends its timestamp. *)
Lemma wait_if_needed_invariant (now_of : W -> Q) limit window rl w appended :
  clock_laws time_time time_sleep now_of ->
  clock_ticks time_time now_of ->
  (0 < limit)%nat ->
  limiter_invariant now_of limit window rl w appended ->
  exists rl' w' t,
    await rl w = Some (rl', w') /\
    last (request_timestamps rl') = Some t /\
    limiter_invariant now_of limit window rl' w' (appended ++ [t]).
Proof.
  intros Hlaws Hticks Hpositive (Hlimit & Hwindow & Hlength & Hpast & Hsplit & Hspaced).
  destruct Hsplit as (gone & Happended & Hgone).
  destruct (await_records time_time time_sleep now_of rl w Hlaws ltac:(lia))
    as (t & w' & Hrun & Hnow & Ht & Hw' & Hwait).
  pose proof (Hticks w) as Htick.
  destruct (drop_stale_spec ((time_time w).1 - window_size rl)%Q (request_timestamps rl))
    as (stale & Hdeque & Hstale & Hhead).
  set (now := (time_time w).1) in *.
  set (kept := drop_stale (now - window_size rl)%Q (request_timestamps rl)) in *.
  clearbody kept now. rewrite Hwindow in *.
  assert (Forall (fun a => (a <= now_of w)%Q) kept) as Hkept_past.
  { rewrite Hdeque in Hpast. by apply Forall_app in Hpast as [_ ?]. }
  assert (appended = ((gone ++ stale) ++ kept)%list) as Hhist.
  { by rewrite Happended, Hdeque, app_assoc. }
  assert (length kept <= limit)%nat as Hfew.
  { destruct (decide (length kept <= limit)%nat) as [|Hmany]; [done|exfalso].
    destruct kept as [|oldest rest] eqn:Hk; [simpl in Hmany; lia|].
    destruct (lookup_lt_is_Some_2 (oldest :: rest) limit ltac:(lia)) as [b Hb].
    assert ((oldest + window <= b)%Q) as Hfar.
    { apply (Hspaced (length (gone ++ stale))).
      - rewrite Hhist. by rewrite lookup_app_r, Nat.sub_diag by lia.
      - rewrite Hhist. rewrite lookup_app_r by lia.
        by replace (length (gone ++ stale) + limit - length (gone ++ stale))%nat
          with limit by lia. }
    pose proof (Forall_lookup_1 _ _ _ _ Hkept_past Hb) as Hb_past. simpl in Hb_past.
    specialize (Hhead oldest rest eq_refl). lra. }
  exists (recorded rl kept t), w', t. split; [done|]. split.
  { simpl. apply last_snoc. }
  split_and!; simpl; try done.
  - rewrite length_app. simpl. lia.
  - apply Forall_app. split.
    + eapply Forall_impl; [exact Hkept_past|]. intros a Ha. simpl in *. lra.
    + constructor; [done|constructor].
  - exists (gone ++ stale)%list. split.
    + by rewrite Hhist, app_assoc.
    + apply Forall_app. split.
      * eapply Forall_impl; [exact Hgone|]. intros a Ha. simpl in *. lra.
      * eapply Forall_impl; [exact Hstale|]. intros a Ha. simpl in *. lra.
  - intros i a b Ha Hb.
    destruct (decide (i + limit < length appended)%nat) as [Hin|Hout].
    { rewrite lookup_app_l in Ha by lia. rewrite lookup_app_l in Hb by lia.
      by eapply Hspaced. }
    pose proof (lookup_lt_Some _ _ _ Hb) as Hbound. rewrite length_app in Hbound.
    simpl in Hbound.
    assert (i + limit = length appended)%nat as Hlast by lia.
    rewrite Hlast, lookup_app_r, Nat.sub_diag in Hb by lia. injection Hb as <-.
    rewrite lookup_app_l in Ha by lia.
    rewrite Hhist in Ha, Hlast. rewrite length_app in Hlast.
    destruct (decide (i < length (gone ++ stale))%nat) as [Hold|Hnew].
    + rewrite lookup_app_l in Ha by done.
      apply lookup_app_Some in Ha as [Ha|[_ Ha]].
      * pose proof (Forall_lookup_1 _ _ _ _ Hgone Ha) as Hfar. simpl in Hfar. lra.
      * pose proof (Forall_lookup_1 _ _ _ _ Hstale Ha) as Hfar. simpl in Hfar. lra.
    + rewrite lookup_app_r in Ha by lia.
      assert (i - length (gone ++ stale) = 0)%nat as Hzero by lia.
      rewrite Hzero in Ha. destruct kept as [|oldest rest]; [done|].
      injection Ha as ->. apply (Hwait a rest eq_refl). simpl in *. lia.
Qed.

Lemma repeat_wait_invariant (now_of : W -> Q) limit window :
  clock_laws time_time time_sleep now_of ->
  clock_ticks time_time now_of ->
  (0 < limit)%nat ->
  forall n rl w appended,
    limiter_invariant now_of limit window rl w appended ->
    exists rl' w' appended',
      repeat_wait time_time time_sleep n rl w appended = Some (rl', w', appended') /\
      length appended' = (length appended + n)%nat /\
      limiter_invariant now_of limit window rl' w' appended'.
Proof.
  intros Hlaws Hticks Hpositive.
  induction n as [|n IH]; intros rl w appended Hinv.
  { exists rl, w, appended. split_and!; [done|lia|done]. }
  destruct (wait_if_needed_invariant now_of limit window rl w appended
              Hlaws Hticks Hpositive Hinv) as (rl1 & w1 & t & Hrun & Hlast & Hinv1).
  cbn [repeat_wait]. rewrite Hrun, Hlast.
  destruct (IH rl1 w1 (appended ++ [t])%list Hinv1) as (rl' & w' & appended' & Hrest & Hlen & Hinv').
  exists rl', w', appended'. split_and!; [done| |done].
  rewrite Hlen, length_app. simpl. lia.
Qed.

(** X14.  The guarantee of the sliding window.  On a clock that does not run
    backwards, on which a sleep lasts at least the time asked for and which
    has advanced whenever it is read, any number of calls of
    [wait_if_needed] on a new limiter with a positive limit return, and of
    the timestamps they record any two that lie [requests_per_minute]
    requests apart are at least 60 seconds apart: no 60 seconds see more
    requests than the limit.  The deque never holds more than one timestamp
    above the limit. *)
Theorem rate_limit_respected (now_of : W -> Q) (limit : Z) (n : nat) (w : W) :
  clock_laws time_time time_sleep now_of ->
  clock_ticks time_time now_of ->
  (0 < limit)%Z ->
  exists rl' w' appended,
    repeat_wait time_time time_sleep n (new_limiter limit) w [] = Some (rl', w', appended) /\
    length appended = n /\
    (forall i a b,
       appended !! i = Some a -> appended !! (i + Z.to_nat limit)%nat = Some b ->
       (a + 60 <= b)%Q) /\
    (Z.of_nat (length (request_timestamps rl')) <= limit + 1)%Z.
Proof.
  intros Hlaws Hticks Hpositive.
  destruct (repeat_wait_invariant now_of (Z.to_nat limit) 60 Hlaws Hticks ltac:(lia)
              n (new_limiter limit) w [])
    as (rl' & w' & appended & Hrun & Hlen & Hinv).
  { unfold limiter_invariant, new_limiter; simpl. split_and!; [lia|done|lia|constructor| |done].
    exists []. split; [done|constructor]. }
  exists rl', w', appended. destruct Hinv as (_ & _ & Hdeque & _ & _ & Hspaced).
  split_and!; [done|done|done|lia].
Qed.




(** One call replaces the limiter of one key: the version, or ["v2"] for a
    version that is no key. *)
Lemma versioned_wait_step version limiters w limiters' w' :
  versioned_wait_if_needed time_time time_sleep version limiters w = Some (limiters', w') ->
  dom limiters' = dom limiters /\
  exists key,
    (key = version \/ (limiters !! version = None /\ key = "v2")) /\
    forall other, other <> key -> limiters' !! other = limiters !! other.
Proof.
  unfold versioned_wait_if_needed.
  set (key := match limiters !! version with Some _ => version | None => "v2" end).
  destruct (limiters !! key) as [rl|] eqn:Hrl; [|done].
  destruct (await rl w) as [[rl' w1]|]; [|done]. intros [= <- <-]. split.
  - rewrite dom_insert_L. apply elem_of_dom_2 in Hrl. set_solver.
  - exists key. split.
    + subst key. destruct (limiters !! version); [by left|by right].
    + intros other Hother. by rewrite lookup_insert_ne.
Qed.

(** X16.  Calls for a list of versions touch the limiters of those versions
    only: the dictionary keeps its keys, and a limiter is what it was when
    its key is not in the list, and, for the key ["v2"], when every version
    of the list is a key. *)
Theorem versioned_calls_touch_only_called (versions : list string) :
  forall limiters w limiters' w',
    versioned_calls time_time time_sleep versions limiters w = Some (limiters', w') ->
    dom limiters' = dom limiters /\
    forall key,
      key ∉ versions ->
      (key = "v2" -> forall version, version ∈ versions -> is_Some (limiters !! version)) ->
      limiters' !! key = limiters !! key.
Proof.
  induction versions as [|version rest IH]; intros limiters w limiters' w' Hrun.
  { by injection Hrun as <- <-. }
  cbn [versioned_calls] in Hrun.
  destruct (versioned_wait_if_needed time_time time_sleep version limiters w)
    as [[limiters1 w1]|] eqn:Hfirst; [|done].
  apply versioned_wait_step in Hfirst as (Hdom1 & used & Hused & Hothers).
  destruct (IH limiters1 w1 limiters' w' Hrun) as [Hdom Hrest].
  split; [congruence|]. intros key Hkey Hv2.
  apply not_elem_of_cons in Hkey as [Hne Hkey].
  rewrite Hrest, Hothers; [done| |done|].
  - destruct Hused as [->|[Hunknown ->]]; [done|]. intros ->.
    destruct (Hv2 eq_refl version ltac:(by left)) as [rl Hrl]. congruence.
  - intros -> other Hother. apply elem_of_dom. rewrite Hdom1. apply elem_of_dom.
    apply Hv2; [done|by right].
Qed.

(** The invariant of a limiter that is not called survives the passing of
    time. *)
Lemma limiter_invariant_later (now_of : W -> Q) limit window rl w w' appended :
  (now_of w <= now_of w')%Q ->
  limiter_invariant now_of limit window rl w appended ->
  limiter_invariant now_of limit window rl w' appended.
Proof.
  intros Hlater (Hlimit & Hwindow & Hlength & Hpast & (gone & Happended & Hgone) & Hspaced).
  split_and!; try done.
  - eapply Forall_impl; [exact Hpast|]. intros t Ht. simpl in *. lra.
  - exists gone. split; [done|].
    eapply Forall_impl; [exact Hgone|]. intros t Ht. simpl in *. lra.
Qed.

Lemma timestamps_of_snoc key entry_key t appended :
  timestamps_of key (appended ++ [(entry_key, t)])
  = (timestamps_of key appended ++ if decide (entry_key = key) then [t] else [])%list.
Proof.
  unfold timestamps_of. rewrite filter_app, map_app. f_equal.
  destruct (decide (entry_key = key)) as [->|Hne].
  - by rewrite filter_cons_True.
  - by rewrite filter_cons_False.
Qed.

Lemma versioned_wait_invariant (now_of : W -> Q) limits version limiters w appended :
  clock_laws time_time time_sleep now_of ->
  clock_ticks time_time now_of ->
  is_Some (limits !! "v2") ->
  map_Forall (fun _ limit => (0 < limit)%Z) limits ->
  versioned_invariant now_of limits limiters w appended ->
  exists limiters' w' key t,
    versioned_wait_if_needed time_time time_sleep version limiters w = Some (limiters', w') /\
    key = match limiters !! version with Some _ => version | None => "v2" end /\
    (exists rl', limiters' !! key = Some rl' /\ last (request_timestamps rl') = Some t) /\
    versioned_invariant now_of limits limiters' w' (appended ++ [(key, t)]).
Proof.
  intros Hlaws Hticks Hv2 Hpositive [Hlimits Hinv]. unfold versioned_wait_if_needed.
  set (key := match limiters !! version with Some _ => version | None => "v2" end).
  assert (is_Some (limiters !! key)) as [rl Hrl].
  { subst key. destruct (limiters !! version) eqn:Hversion; [by rewrite Hversion|].
    rewrite <- Hlimits, lookup_fmap in Hv2. by apply fmap_is_Some in Hv2. }
  rewrite Hrl.
  assert (0 < requests_per_minute rl)%Z as Hrl_positive.
  { apply (Hpositive key). by rewrite <- Hlimits, lookup_fmap, Hrl. }
  destruct (wait_if_needed_invariant now_of (Z.to_nat (requests_per_minute rl)) 60 rl w
              (timestamps_of key appended) Hlaws Hticks ltac:(lia) (Hinv key rl Hrl))
    as (rl' & w' & t & Hrun & Hlast & Hinv').
  destruct (await_records time_time time_sleep now_of rl w Hlaws Hrl_positive)
    as (t0 & w0 & Hrun0 & Hnow & Ht0 & Hw0 & _).
  rewrite Hrun in Hrun0. injection Hrun0 as _ <-.
  assert (now_of w <= now_of w')%Q as Hlater by lra.
  assert (requests_per_minute rl' = requests_per_minute rl) as Hsame.
  { destruct Hinv' as (-> & _). lia. }
  rewrite Hrun. exists (<[key := rl']> limiters), w', key, t.
  split; [done|]. split; [done|]. split.
  { exists rl'. by rewrite lookup_insert_eq. }
  split.
  - rewrite fmap_insert, Hsame, Hlimits. apply insert_id.
    by rewrite <- Hlimits, lookup_fmap, Hrl.
  - intros other rl_other Hother. rewrite timestamps_of_snoc.
    destruct (decide (key = other)) as [<-|Hne].
    + rewrite lookup_insert_eq in Hother. injection Hother as <-. by rewrite Hsame.
    + rewrite lookup_insert_ne in Hother by done. rewrite app_nil_r.
      eapply limiter_invariant_later; [exact Hlater|]. by apply Hinv.
Qed.

(** X23.  The guarantee of the sliding window, by version.  On a clock that
    does not run backwards, on which a sleep lasts at least the time asked
    for and which has advanced whenever it is read, calls of
    [VersionedRateLimiter.wait_if_needed] for any versions in any order all
    return, and of the timestamps recorded for one key any two that lie as
    many requests apart as the limit of that key (100, 50, 80) are at least
    60 seconds apart; a version that is no key counts against the limit of
    ["v2"]. *)
Theorem rate_limits_respected_by_version (now_of : W -> Q) (versions : list string) (w : W) :
  clock_laws time_time time_sleep now_of ->
  clock_ticks time_time now_of ->
  exists limiters' w' appended,
    versioned_repeat time_time time_sleep versions new_versioned_limiter w []
    = Some (limiters', w', appended) /\
    length appended = length versions /\
    forall key limit,
      version_limits !! key = Some limit ->
      forall i a b,
        timestamps_of key appended !! i = Some a ->
        timestamps_of key appended !! (i + Z.to_nat limit)%nat = Some b ->
        (a + 60 <= b)%Q.
Proof.
  intros Hlaws Hticks.
  assert (is_Some (version_limits !! "v2")) as Hv2 by (by eexists).
  assert (map_Forall (fun _ limit => (0 < limit)%Z) version_limits) as Hpositive.
  { intros key limit Hkey. unfold version_limits in Hkey.
    repeat (apply lookup_insert_Some in Hkey as [[_ <-]|[_ Hkey]]; [lia|]).
    apply lookup_singleton_Some in Hkey as [_ <-]. lia. }
  assert (versioned_invariant now_of version_limits new_versioned_limiter w []) as Hstart.
  { split.
    - unfold new_versioned_limiter, version_limits.
      by rewrite !fmap_insert, map_fmap_singleton.
    - intros key rl Hkey. unfold new_versioned_limiter in Hkey.
      assert (exists limit, rl = new_limiter limit /\ (0 < limit)%Z) as (limit & -> & Hlimit).
      { repeat (apply lookup_insert_Some in Hkey as [[_ <-]|[_ Hkey]];
                [eexists; split; [done|lia]|]).
        apply lookup_singleton_Some in Hkey as [_ <-]. eexists; split; [done|lia]. }
      unfold limiter_invariant, new_limiter, timestamps_of; simpl.
      split_and!; [lia|done|lia|constructor| |done].
      exists []. split; [done|constructor]. }
  enough (forall limiters appended,
    versioned_invariant now_of version_limits limiters w appended ->
    exists limiters' w' appended',
      versioned_repeat time_time time_sleep versions limiters w appended
      = Some (limiters', w', appended') /\
      length appended' = (length appended + length versions)%nat /\
      versioned_invariant now_of version_limits limiters' w' appended') as Hall.
  { destruct (Hall new_versioned_limiter [] Hstart)
      as (limiters' & w' & appended & Hrun & Hlength & Hlimits & Hinv).
    exists limiters', w', appended. split_and!; [done|done|].
    intros key limit Hkey i a b Ha Hb.
    rewrite <- Hlimits, lookup_fmap in Hkey.
    destruct (limiters' !! key) as [rl|] eqn:Hrl; [|done]. injection Hkey as <-.
    destruct (Hinv key rl Hrl) as (_ & _ & _ & _ & _ & Hspaced).
    by eapply Hspaced. }
  clear Hstart. revert w.
  induction versions as [|version rest IH]; intros w limiters appended Hinv.
  { exists limiters, w, appended. split_and!; [done|simpl; lia|done]. }
  destruct (versioned_wait_invariant now_of version_limits version limiters w appended
              Hlaws Hticks Hv2 Hpositive Hinv)
    as (limiters1 & w1 & key & t & Hrun & Hkey & (rl1 & Hrl1 & Hlast) & Hinv1).
  cbn [versioned_repeat]. rewrite Hrun. cbv zeta. rewrite <- Hkey, Hrl1, Hlast.
  destruct (IH w1 limiters1 (appended ++ [(key, t)])%list Hinv1)
    as (limiters' & w' & appended' & Hrest & Hlength & Hinv').
  exists limiters', w', appended'. split_and!; [done| |done].
  rewrite Hlength, length_app. simpl. lia.
Qed.

End LimiterFacts.

Lemma tick_clock_lawful : clock_laws tick_time fake_sleep (fun now => now).
Proof.
  split.
  - intros now. unfold tick_time; simpl. split; lra.
  - intros seconds now. unfold fake_sleep. lra.
Qed.

Lemma tick_clock_ticks : clock_ticks tick_time (fun now => now).
Proof. intros now. unfold tick_time; simpl. lra. Qed.

(** X14, witness: five calls in a row with limit 2 on the ticking clock. *)
Lemma rate_limit_respected_witness :
  exists rl' w' appended,
    repeat_wait tick_time fake_sleep 5 (new_limiter 2) 0%Q [] = Some (rl', w', appended) /\
    length appended = 5%nat /\
    (forall i a b,
       appended !! i = Some a -> appended !! (i + Z.to_nat 2)%nat = Some b ->
       (a + 60 <= b)%Q) /\
    (Z.of_nat (length (request_timestamps rl')) <= 2 + 1)%Z.
Proof.
  apply (rate_limit_respected tick_time fake_sleep (fun now => now) 2 5 0%Q).
  - exact tick_clock_lawful.
  - exact tick_clock_ticks.
  - lia.
Defined.

(** X23, witness: three versions and a fourth that is no key, on the ticking
    clock. *)
Lemma rate_limits_respected_by_version_witness :
  exists limiters' w' appended,
    versioned_repeat tick_time fake_sleep ["v1"; "v2"; "v9"; "v3"] new_versioned_limiter
      0%Q []
    = Some (limiters', w', appended) /\
    length appended = length ["v1"; "v2"; "v9"; "v3"] /\
    forall key limit,
      version_limits !! key = Some limit ->
      forall i a b,
        timestamps_of key appended !! i = Some a ->
        timestamps_of key appended !! (i + Z.to_nat limit)%nat = Some b ->
        (a + 60 <= b)%Q.
Proof.
  apply (rate_limits_respected_by_version tick_time fake_sleep (fun now => now)
           ["v1"; "v2"; "v9"; "v3"] 0%Q).
  - exact tick_clock_lawful.
  - exact tick_clock_ticks.
Defined.

(** X16, witness: calls for ["v1"] and for a version that is no key leave
    the limiter of ["v3"] alone. *)
Lemma versioned_calls_touch_only_called_witness :
  exists limiters' w',
    versioned_calls tick_time fake_sleep ["v1"; "v9"] new_versioned_limiter 0%Q
    = Some (limiters', w') /\
    limiters' !! "v3" = new_versioned_limiter !! "v3".
Proof.
  eexists _, _. split; [by vm_compute|].
  eapply (versioned_calls_touch_only_called tick_time fake_sleep ["v1"; "v9"]
            new_versioned_limiter 0%Q).
  - by vm_compute.
  - intros Hin. repeat (apply elem_of_cons in Hin as [Hin|Hin]; [done|]).
    by apply elem_of_nil in Hin.
  - done.
Defined.

(** ** Paths and the driver *)

Lemma append_inj_len (a a' s s' : string) :
  len a = len a' -> a ++ s = a' ++ s' -> a = a' /\ s = s'.
Proof.
  revert a'. induction a as [|c a IH]; intros [|c' a'] Hlen Heq; try done.
  rewrite !append_cons in Heq. injection Heq as -> Heq.
  destruct (IH a') as [-> ->]; [by injection Hlen|done|done].
Qed.

Lemma append_inj_suffix (a a' s s' : string) :
  len s = len s' -> a ++ s = a' ++ s' -> a = a' /\ s = s'.
Proof.
  intros Hlen Heq. apply append_inj_len; [|done].
  apply (f_equal len) in Heq. rewrite !len_append in Heq. lia.
Qed.

Lemma os_path_join_spec (a b : string) :
  exists before, os_path_join a b = before ++ b /\
    (startswith "/" b = false -> before = if String.eqb a EmptyString || endswith "/" a
                                          then a else a ++ "/").
Proof.
  unfold os_path_join. destruct (startswith "/" b).
  - exists EmptyString. by split.
  - destruct (_ || _).
    + exists a. by split.
    + exists (a ++ "/"). split; [by rewrite append_assoc|done].
Qed.

Lemma startswith_slash_append (version suffix : string) :
  startswith "/" suffix = false ->
  startswith "/" (version ++ suffix) = startswith "/" version.
Proof.
  intros Hsuffix. destruct version as [|c version]; [exact Hsuffix|].
  rewrite append_cons. unfold startswith.
  change (String.prefix "/" (String c (version ++ suffix)))
    with (if ascii_dec "/" c then String.prefix EmptyString (version ++ suffix) else false).
  change (String.prefix "/" (String c version))
    with (if ascii_dec "/" c then String.prefix EmptyString version else false).
  destruct (ascii_dec "/" c); [|done]. destruct (version ++ suffix); by destruct version.
Qed.

(** X17.  The checkpoint file and the results file are never the same file:
    whatever the two directories and the versions, [_get_checkpoint_path]
    and [_get_results_path] differ. *)
Theorem checkpoint_path_is_not_results_path (checkpoint_dir results_dir v v' : string) :
  _get_checkpoint_path checkpoint_dir v <> _get_results_path results_dir v'.
Proof.
  unfold _get_checkpoint_path, _get_results_path.
  destruct (os_path_join_spec checkpoint_dir (v ++ "_checkpoint.json")) as (a & -> & _).
  destruct (os_path_join_spec results_dir (v' ++ "_names.json")) as (a' & -> & _).
  intros Heq.
  change "_checkpoint.json" with ("_checkpoin" ++ "t.json") in Heq.
  change "_names.json" with ("_name" ++ "s.json") in Heq.
  rewrite <- !append_assoc in Heq.
  by apply append_inj_suffix in Heq as [_ [=]].
Qed.

(** X18.  In one directory two versions share a checkpoint file, or a
    results file, only if they are the same version, as long as both are
    absolute or neither is. *)
Theorem versions_have_their_own_files (dir v v' : string) :
  startswith "/" v = startswith "/" v' ->
  (_get_checkpoint_path dir v = _get_checkpoint_path dir v' -> v = v') /\
  (_get_results_path dir v = _get_results_path dir v' -> v = v').
Proof.
  intros Hsame.
  assert (forall suffix, startswith "/" suffix = false ->
    os_path_join dir (v ++ suffix) = os_path_join dir (v' ++ suffix) -> v = v') as Hpaths.
  { intros suffix Hsuffix. unfold os_path_join.
    rewrite !startswith_slash_append, <- Hsame by done.
    assert (forall a, a ++ v ++ suffix = a ++ v' ++ suffix -> v = v') as Hcancel.
    { intros a Heq. rewrite <- !append_assoc in Heq.
      apply append_inj_suffix in Heq as [Heq _]; [|done].
      by apply append_inj_len in Heq as [_ ?]. }
    destruct (startswith "/" v); [apply (Hcancel EmptyString)|].
    destruct (_ || _); [apply Hcancel|].
    rewrite <- !(append_assoc dir "/"). apply Hcancel. }
  split; apply Hpaths; reflexivity.
Qed.

(** X18, witness: the versions ["v1"] and ["v2"]. *)
Lemma versions_have_their_own_files_witness :
  (_get_checkpoint_path "data/checkpoints" "v1" = _get_checkpoint_path "data/checkpoints" "v2"
   -> "v1" = "v2") /\
  (_get_results_path "data/checkpoints" "v1" = _get_results_path "data/checkpoints" "v2"
   -> "v1" = "v2").
Proof.
  apply (versions_have_their_own_files "data/checkpoints" "v1" "v2"). reflexivity.
Defined.

Lemma str_split_cons (sep : ascii) (s : string) :
  exists piece pieces, str_split sep s = piece :: pieces.
Proof.
  destruct s as [|c s]; [by eexists _, _|]. simpl.
  destruct (Ascii.eqb c sep); [by eexists _, _|].
  destruct (str_split sep s); by eexists _, _.
Qed.

Lemma str_contains_char_cons (sep c : ascii) (s : string) :
  str_contains (String sep EmptyString) (String c s)
  = Ascii.eqb c sep || str_contains (String sep EmptyString) s.
Proof.
  rewrite str_contains_cons. f_equal.
  change (String.prefix (String sep EmptyString) (String c s))
    with (if ascii_dec sep c then String.prefix EmptyString s else false).
  destruct (ascii_dec sep c) as [->|Hne].
  - rewrite Ascii.eqb_refl. by destruct s.
  - symmetry. apply Ascii.eqb_neq. congruence.
Qed.

Lemma concat_cons (sep head piece : string) (pieces : list string) :
  String.concat sep (head :: piece :: pieces)
  = head ++ sep ++ String.concat sep (piece :: pieces).
Proof. reflexivity. Qed.

(** X19.  [split] cuts the string at every separator and nowhere else: there
    is always at least one piece (so [max_workers=len(versions)] is never
    0), no piece contains the separator, and joining the pieces with the
    separator gives the string back. *)
Theorem split_cuts_at_separators (sep : ascii) (s : string) :
  (1 <= length (str_split sep s))%nat /\
  Forall (fun piece => str_contains (String sep EmptyString) piece = false)
    (str_split sep s) /\
  String.concat (String sep EmptyString) (str_split sep s) = s.
Proof.
  induction s as [|c s (Hlength & Hpieces & Hjoin)].
  { split_and!; [simpl; lia|by repeat constructor|done]. }
  destruct (str_split_cons sep s) as (piece & pieces & Hsplit).
  cbn [str_split]. rewrite Hsplit in *.
  destruct (Ascii.eqb c sep) eqn:Hc.
  - apply Ascii.eqb_eq in Hc as ->. split_and!; [simpl; lia|by constructor|].
    by rewrite concat_cons, Hjoin.
  - apply Forall_cons in Hpieces as [Hpiece Hrest]. split_and!; [simpl; lia| |].
    + constructor; [|done]. by rewrite str_contains_char_cons, Hc, Hpiece.
    + destruct pieces as [|next pieces]; [simpl in *; by rewrite Hjoin|].
      rewrite concat_cons in *. by rewrite append_cons, Hjoin.
Qed.

Lemma aggregate_one_saved (version : string) (st : CrawlState) (totals : gset string * Z) :
  aggregate_one (Parsed (results_json version st)) totals
  = Val (totals.1 ∪ names st, (totals.2 + request_count st)%Z).
Proof.
  unfold aggregate_one, results_json, subscript.
  cbn [obj_get String.eqb Ascii.eqb Bool.eqb]. by rewrite py_set_of_elements.
Qed.

Lemma aggregate_saved (results_dir : string) (saved : string -> option CrawlState)
    (files : string -> checkpoint_read) :
  results_on_disk results_dir saved files ->
  forall versions totals,
    aggregate files results_dir versions totals
    = Val (totals.1 ∪ ⋃ (names <$> aggregated saved versions),
           (totals.2 + foldr Z.add 0 (request_count <$> aggregated saved versions))%Z).
Proof.
  intros Hdisk. unfold aggregated.
  induction versions as [|version rest IH]; intros [total_names total_requests].
  { simpl. f_equal. f_equal; [set_solver|lia]. }
  cbn [aggregate]. case_bool_decide as Hknown.
  - rewrite filter_cons_True by done. cbn [omap list_omap].
    pose proof (Hdisk version Hknown) as Hfile. unfold _get_results_path in Hfile.
    rewrite Hfile. destruct (saved version) as [st|].
    + rewrite aggregate_one_saved, IH. cbn [fst snd fmap list_fmap foldr union_list].
      f_equal. f_equal; [set_solver|lia].
    + cbn [aggregate_one]. apply IH.
  - rewrite filter_cons_False by done. apply IH.
Qed.

(** X20.  The aggregation of [main] on the results files [_save_results]
    wrote: the total of names is the union of the names of the versions
    asked for that are known and have a file, and the total of requests is
    the sum of their request counts, a version named twice being counted
    twice. *)
Theorem aggregate_of_saved_results (results_dir : string)
    (saved : string -> option CrawlState) (files : string -> checkpoint_read)
    (versions : list string) :
  results_on_disk results_dir saved files ->
  aggregate files results_dir versions (∅, 0%Z)
  = Val (⋃ (names <$> aggregated saved versions),
         foldr Z.add 0%Z (request_count <$> aggregated saved versions)).
Proof.
  intros Hdisk. rewrite (aggregate_saved results_dir saved files Hdisk). cbn [fst snd].
  f_equal. f_equal. set_solver.
Qed.

Lemma two_results_on_disk : results_on_disk "data/results" two_results two_results_disk.
Proof.
  intros version Hversion. unfold extractors in Hversion.
  repeat (apply elem_of_cons in Hversion as [->|Hversion]; [reflexivity|]).
  by apply elem_of_nil in Hversion.
Qed.

(** X20, witness: [--versions v1,v3,v9,v1] on a disk with the results of v1
    and v3. *)
Lemma aggregate_of_saved_results_witness :
  aggregate two_results_disk "data/results" ["v1"; "v3"; "v9"; "v1"] (∅, 0%Z)
  = Val (⋃ (names <$> aggregated two_results ["v1"; "v3"; "v9"; "v1"]),
         foldr Z.add 0%Z (request_count <$> aggregated two_results ["v1"; "v3"; "v9"; "v1"])).
Proof.
  exact (aggregate_of_saved_results "data/results" two_results two_results_disk
           ["v1"; "v3"; "v9"; "v1"] two_results_on_disk).
Defined.

(** ** Resuming from a checkpoint *)

Section Resume.

Context {W : Type}.
Variable version : string.
Variable character_set : list string.
Variable max_results : Z.
Variable rate_limit : W -> W.
Variable query_api : string -> W -> list string * W.
Variable disk_fault : W -> io_fault * W.

(** What a prefix reaches starts with it. *)
Lemma reach_extends depth : forall prefix q,
  q ∈ reach character_set depth prefix -> exists rest, q = prefix ++ rest.
Proof.
  induction depth as [|depth IH]; intros prefix q Hq; simpl in Hq.
  - apply list_elem_of_singleton in Hq as ->. exists EmptyString. by rewrite append_empty_r.
  - apply elem_of_cons in Hq as [->|Hq]; [exists EmptyString; by rewrite append_empty_r|].
    apply list_elem_of_In, in_flat_map in Hq as (char & _ & Hq).
    apply list_elem_of_In, IH in Hq as [rest ->].
    exists (char ++ rest). by rewrite append_assoc.
Qed.

Lemma resumed_crawl_within fuel (st : CrawlState) (env : Env W) st' env' :
  extract_names version character_set max_results rate_limit query_api disk_fault
    fuel (st, env) = Some (st', env') ->
  visited_prefixes st' ⊆
  visited_prefixes st ∪ list_to_set (resume_reach character_set st).
Proof.
  unfold extract_names. intros Hrun.
  destruct (for_each _ _ _) as [[st1 env1]|] eqn:Hloop; [|done].
  inversion Hrun; subst.
  enough (visited_prefixes st ⊆ visited_prefixes st' /\
          visited_prefixes st' ⊆
          visited_prefixes st ∪ list_to_set (resume_reach character_set st)) as [_ ?]; [done|].
  revert Hloop.
  apply (for_each_invariant
    (fun s => visited_prefixes st ⊆ visited_prefixes s.1 /\
              visited_prefixes s.1 ⊆
              visited_prefixes st ∪ list_to_set (resume_reach character_set st))
    _ _ (st, env) (st', env1)); [|set_solver].
  intros char [a e] [a' e'] Hchar [Hgrown Hwithin] Hbody; cbn [fst snd] in *.
  case_bool_decide as Hvisited; [by inversion Hbody; subst|].
  pose proof Hbody as Hle. apply dfs_le in Hle. destruct Hle as (_ & Hsub & _).
  apply dfs_visits in Hbody. split; [set_solver|].
  assert (list_to_set (reach character_set (max_prefix_length - len char) char)
          ⊆ (list_to_set (resume_reach character_set st) : gset string)) as Hreach.
  { intros q Hq. apply elem_of_list_to_set in Hq. apply elem_of_list_to_set.
    unfold resume_reach. apply list_elem_of_In, in_flat_map. exists char.
    split; [|by apply list_elem_of_In].
    apply list_elem_of_In. unfold open_roots. apply list_elem_of_filter. split; [|done].
    set_solver. }
  set_solver.
Qed.

(** X21.  A crawl that starts from a state with visited prefixes, as after a
    checkpoint was loaded, adds to them nothing but what the characters that
    state has not visited reach.  When every member of the character set is
    one character long, it follows that no prefix that starts with a
    character already marked visited becomes visited any more, whether or
    not the crawl that wrote the checkpoint had finished below that
    character. *)
Theorem resumed_crawl_skips_marked_roots fuel (st : CrawlState) (env : Env W) st' env' :
  extract_names version character_set max_results rate_limit query_api disk_fault
    fuel (st, env) = Some (st', env') ->
  visited_prefixes st' ⊆
    visited_prefixes st ∪ list_to_set (resume_reach character_set st) /\
  ((forall char, char ∈ character_set -> len char = 1%nat) ->
   forall root q,
     root ∈ character_set -> root ∈ visited_prefixes st ->
     startswith root q = true ->
     q ∈ visited_prefixes st' -> q ∈ visited_prefixes st).
Proof.
  intros Hrun. apply resumed_crawl_within in Hrun. split; [done|].
  intros Hsingle root q Hroot Hmarked Hstarts Hq.
  apply Hrun, elem_of_union in Hq as [?|Hq]; [done|exfalso].
  apply elem_of_list_to_set in Hq. unfold resume_reach in Hq.
  apply list_elem_of_In, in_flat_map in Hq as (open & Hopen & Hq).
  apply list_elem_of_In in Hopen. unfold open_roots in Hopen.
  apply list_elem_of_filter in Hopen as [Hfresh Hmember].
  apply list_elem_of_In, reach_extends in Hq as [rest Hq].
  apply prefix_spec in Hstarts as [rest' Hstarts]. rewrite Hstarts in Hq.
  apply append_inj_len in Hq as [-> _]; [done|].
  by rewrite (Hsingle root Hroot), (Hsingle open Hmember).
Qed.

End Resume.




Lemma resumed_crawl :
  extract_names "v1" ["c"; "d"] 2 sim_wait (sim_api sim_vocabulary 2) sim_fault 3
    (interrupted_state, sim_env)
  = Some (resumed_state,
          _save_results "v1" sim_fault resumed_state
            (_save_checkpoint sim_fault resumed_state sim_env)).
Proof. by vm_compute. Qed.

(** X21, witness: resumed below ["c"], the crawl of the simulated service
    visits what lies below ["d"] only: nothing that starts with ["c"]. *)
Lemma resumed_crawl_skips_marked_roots_witness :
  visited_prefixes resumed_state ⊆
    visited_prefixes interrupted_state
    ∪ list_to_set (resume_reach ["c"; "d"] interrupted_state) /\
  forall q,
    startswith "c" q = true ->
    q ∈ visited_prefixes resumed_state -> q ∈ visited_prefixes interrupted_state.
Proof.
  pose proof (resumed_crawl_skips_marked_roots "v1" ["c"; "d"] 2 sim_wait
                (sim_api sim_vocabulary 2) sim_fault 3 interrupted_state sim_env
                resumed_state _ resumed_crawl) as [Hwithin Hskipped].
  split; [exact Hwithin|]. intros q. apply Hskipped.
  - intros char Hchar. repeat (apply elem_of_cons in Hchar as [->|Hchar]; [reflexivity|]).
    by apply elem_of_nil in Hchar.
  - by left.
  - by vm_compute.
Defined.

(** ** Branching and the filters, seen in the transcript *)

Lemma explored_refl st log : explored st log st log.
Proof. exists []. split; [done|]. intros query Hquery. by left. Qed.

Lemma explored_trans a la b lb c lc :
  explored a la b lb -> explored b lb c lc -> explored a la c lc.
Proof.
  intros (s1 & -> & H1) (s2 & -> & H2). exists (s2 ++ s1)%list. split.
  - by rewrite app_assoc.
  - intros query Hquery. rewrite map_app, elem_of_app.
    destruct (H2 query Hquery) as [Hb|[?|?]]; [|by right; left|by right; right; left].
    destruct (H1 query Hb) as [?|[?|?]]; [by left|by right; left|by right; right; right].
Qed.

Section Asked.

Context {W : Type}.
Variable version : string.
Variable character_set : list string.
Variable max_results : Z.
Variable rate_limit : W -> W.
Variable query_api : string -> W -> list string * W.
Variable disk_fault : W -> io_fault * W.

Local Abbreviation suggest_t :=
  (get_suggestions (beside_wait rate_limit) (transcribed query_api) (beside_fault disk_fault)).
Local Abbreviation dfs_t :=
  (_dfs character_set max_results (beside_wait rate_limit) (transcribed query_api)
     (beside_fault disk_fault)).

Implicit Types (st : CrawlState) (env : Env (W * list (string * list string))).

(** The answer to a query is the answer of the service. *)
Lemma get_suggestions_heard query st env :
  (suggest_t query st env).1.1 = (query_api query (rate_limit (world env).1)).1.
Proof.
  unfold get_suggestions, transcribed, beside_wait; simpl.
  by destruct (query_api query (rate_limit (world env).1)).
Qed.

Lemma get_suggestions_explored query st env :
  let r := suggest_t query st env in
  explored st (world env).2 r.1.2 (world r.2).2.
Proof.
  cbv zeta.
  destruct (get_suggestions_accounted rate_limit query_api disk_fault query st env)
    as [Hlog _].
  pose proof (get_suggestions_state (beside_wait rate_limit) (transcribed query_api)
                (beside_fault disk_fault) query st env) as Hstate.
  exists [(query, (suggest_t query st env).1.1)]. split; [done|].
  intros q Hq. rewrite Hstate in Hq. simpl in Hq.
  apply elem_of_union in Hq as [Hq|Hq]; [by left|].
  apply elem_of_singleton in Hq as ->. right; right. simpl. by left.
Qed.

Lemma dfs_explored fuel : forall prefix st env st' env',
  dfs_t fuel prefix (st, env) = Some (st', env') ->
  explored st (world env).2 st' (world env').2.
Proof.
  induction fuel as [|fuel IH]; intros prefix st env st' env' Hrun; [done|].
  rewrite dfs_unfold in Hrun.
  case_bool_decide; [inversion Hrun; subst; apply explored_refl|].
  destruct (rejected prefix) eqn:Hrejected.
  { inversion Hrun; subst. exists []. split; [done|]. intros q Hq. simpl in Hq.
    apply elem_of_union in Hq as [Hq|Hq]; [by left|].
    apply elem_of_singleton in Hq as ->. by right; left. }
  cbv zeta in Hrun.
  destruct (get_suggestions_accounted rate_limit query_api disk_fault prefix
              (mark_visited prefix st) env) as [Hfirst _].
  pose proof (get_suggestions_state (beside_wait rate_limit) (transcribed query_api)
                (beside_fault disk_fault) prefix (mark_visited prefix st) env) as Hstate.
  cbv zeta in Hfirst.
  set (r := suggest_t prefix (mark_visited prefix st) env) in *.
  assert (explored st (world env).2 r.1.2 (world r.2).2) as Hstart.
  { exists [(prefix, r.1.1)]. split; [done|].
    intros q Hq. rewrite Hstate in Hq. simpl in Hq.
    apply elem_of_union in Hq as [Hq|Hq].
    - apply elem_of_union in Hq as [Hq|Hq]; [by left|].
      apply elem_of_singleton in Hq as ->. right; right. simpl. by left.
    - apply elem_of_singleton in Hq as ->. right; right. simpl. by left. }
  clear Hstate.
  destruct (max_results <=? Z.of_nat _)%Z; [|by inversion Hrun; subst].
  revert Hrun.
  apply (for_each_invariant (fun s => explored st (world env).2 s.1 (world s.2).2)
           _ _ (r.1.2, r.2) (st', env')); [|done].
  intros char [a e] [a' e'] _ Ha Hbody; cbn [fst snd] in *.
  destruct (len (prefix ++ char) <=? max_prefix_length)%nat; [|by inversion Hbody; subst].
  eapply explored_trans; [exact Ha|by eapply IH].
Qed.

(** A prefix that is queried opens the transcript of its call with its own
    exchange; a page that is not full closes it at once. *)
Lemma dfs_first_exchange fuel prefix st env st' env' :
  dfs_t (S fuel) prefix (st, env) = Some (st', env') ->
  prefix ∉ visited_prefixes st ->
  rejected prefix = false ->
  let response := (query_api prefix (rate_limit (world env).1)).1 in
  exists later,
    (world env').2 = (later ++ (prefix, response) :: (world env).2)%list /\
    ((Z.of_nat (length response) < max_results)%Z -> later = []).
Proof.
  intros Hrun Hnew Hok response.
  rewrite dfs_unfold, bool_decide_eq_false_2, Hok in Hrun by done. cbv zeta in Hrun.
  destruct (get_suggestions_accounted rate_limit query_api disk_fault prefix
              (mark_visited prefix st) env) as [Hfirst _].
  pose proof (get_suggestions_heard prefix (mark_visited prefix st) env) as Hheard.
  cbv zeta in Hfirst. simpl in Hheard. fold response in Hheard.
  set (r := suggest_t prefix (mark_visited prefix st) env) in *.
  rewrite Hheard in Hfirst, Hrun.
  destruct (Z.leb_spec max_results (Z.of_nat (length response))) as [Hfull|Hshort].
  - enough (exists later, (world env').2
                          = (later ++ (prefix, response) :: (world env).2)%list)
      as [later Hlater] by (exists later; split; [done|lia]).
    revert Hrun.
    apply (for_each_invariant
             (fun s => exists later, (world s.2).2
                                     = (later ++ (prefix, response) :: (world env).2)%list)
             _ _ (r.1.2, r.2) (st', env')); [|by exists []].
    intros char [a e] [a' e'] _ [later Ha] Hbody; cbn [fst snd] in *.
    destruct (len (prefix ++ char) <=? max_prefix_length)%nat; [|by inversion Hbody; subst; eauto].
    apply dfs_accounted in Hbody as (sent & Hlog & _).
    exists (sent ++ later)%list. by rewrite Hlog, Ha, app_assoc.
  - injection Hrun as <- <-. exists []. by split.
Qed.

End Asked.

Section Branching.

Context {W : Type}.
Variable version : string.
Variable character_set : list string.
Variable max_results : Z.
Variable rate_limit : W -> W.
Variable query_api : string -> W -> list string * W.
Variable disk_fault : W -> io_fault * W.

Local Abbreviation suggest := (get_suggestions rate_limit query_api disk_fault).
Local Abbreviation dfs := (_dfs character_set max_results rate_limit query_api disk_fault).
Local Abbreviation exchanges :=
  (dfs_exchanges character_set max_results rate_limit query_api disk_fault).

Implicit Types (st : CrawlState) (env : Env W) (prefix : string).

(** A run and its transcript: the first exchange, and what the exchanges
    explain of the visited prefixes. *)
Lemma dfs_asked fuel prefix st env st' env' :
  dfs (S fuel) prefix (st, env) = Some (st', env') ->
  prefix ∉ visited_prefixes st ->
  rejected prefix = false ->
  let response := (query_api prefix (rate_limit (world env))).1 in
  exists later,
    exchanges (S fuel) prefix (st, env) = Some ((prefix, response) :: later) /\
    ((Z.of_nat (length response) < max_results)%Z -> later = []) /\
    (forall query,
       query ∈ visited_prefixes st' -> query ∉ visited_prefixes st ->
       rejected query = false ->
       exists answer, (query, answer) ∈ (prefix, response) :: later).
Proof.
  intros Hplain Hnew Hok response. unfold dfs_exchanges. cbn [fst snd].
  pose proof (dfs_forget character_set max_results rate_limit query_api disk_fault
                (S fuel) prefix (st, with_record env [])) as Hforget.
  unfold forget_run at 2 in Hforget. cbn [fst snd] in Hforget.
  rewrite forget_with_record, Hplain in Hforget.
  destruct (_dfs character_set max_results (beside_wait rate_limit) (transcribed query_api)
              (beside_fault disk_fault) (S fuel) prefix (st, with_record env []))
    as [[st1 env1]|] eqn:Hrun; [|done].
  injection Hforget as -> _.
  destruct (dfs_first_exchange character_set max_results rate_limit query_api disk_fault
              fuel prefix st (with_record env []) st' env1 Hrun Hnew Hok)
    as (later & Hlog & Hshort).
  apply dfs_explored in Hrun as (sent & Hsent & Hcover).
  simpl in Hlog, Hsent, Hshort. rewrite app_nil_r in Hsent.
  exists (rev later). split_and!.
  - simpl. rewrite Hlog, rev_app_distr. done.
  - intros Hfew. by rewrite (Hshort Hfew).
  - intros query Hvisited Hfresh Hquery.
    destruct (Hcover query Hvisited) as [?|[?|Hin]]; [done|congruence|].
    rewrite <- Hsent, Hlog in Hin.
    apply list_elem_of_In, in_map_iff in Hin as ([q answer] & Hq & Hin). simpl in Hq. subst q.
    exists answer. apply list_elem_of_In.
    apply in_app_or in Hin as [Hin|Hin].
    + right. by apply in_rev in Hin.
    + left. by destruct Hin as [Hin|[]].
Qed.

(** The loop over the children leaves each of them visited. *)
Lemma children_marked fuel (nexts : list string) : forall s s',
  for_each nexts (dfs fuel) s = Some s' ->
  visited_prefixes s.1 ⊆ visited_prefixes s'.1 /\
  forall next, next ∈ nexts -> next ∈ visited_prefixes s'.1.
Proof.
  induction nexts as [|next nexts IH]; intros s s' Hrun; simpl in Hrun.
  - inversion Hrun; subst. split; [done|]. intros next Hnext. by apply elem_of_nil in Hnext.
  - destruct (dfs fuel next s) as [[a e]|] eqn:Hdfs; [|done]. destruct s as [st env].
    pose proof Hdfs as Hle. apply dfs_le in Hle. destruct Hle as (_ & Hsub & _).
    apply dfs_marks in Hdfs.
    destruct (IH (a, e) s' Hrun) as [Hsub' Hall]. cbn [fst] in *.
    split; [set_solver|].
    intros q [->|Hq]%elem_of_cons; [set_solver|by apply Hall].
Qed.

(** C1.  A prefix that is queried opens the exchanges of its call.  When the
    page comes back with at least [max_results] names, the call goes on,
    depth first and in the order of the character set, with [_dfs] on
    [prefix + c] for every character [c] whose extended prefix has at most
    ten characters (the [children], as many as the character set has members
    when none is too long): at the end each of them is a visited prefix, and
    each that was not visited before and that the filters do not reject was
    sent to the service.  When the page has fewer names, the call ends with
    this one exchange: the state is the one the query left, and no child has
    become a visited prefix. *)
Theorem truncation_driven_branching k prefix st env :
  prefix ∉ visited_prefixes st ->
  rejected prefix = false ->
  let response := (query_api prefix (rate_limit (world env))).1 in
  let r := get_suggestions rate_limit query_api disk_fault prefix (mark_visited prefix st) env in
  exists st' env' later,
    _dfs character_set max_results rate_limit query_api disk_fault (dfs_depth + k)
      prefix (st, env) = Some (st', env') /\
    dfs_exchanges character_set max_results rate_limit query_api disk_fault (dfs_depth + k)
      prefix (st, env) = Some ((prefix, response) :: later) /\
    ((max_results <= Z.of_nat (length response))%Z ->
       _dfs character_set max_results rate_limit query_api disk_fault (dfs_depth + k)
         prefix (st, env)
       = for_each (children character_set prefix)
           (_dfs character_set max_results rate_limit query_api disk_fault (dfs_depth + k))
           (r.1.2, r.2) /\
       forall char,
         char ∈ character_set -> (len (prefix ++ char) <= max_prefix_length)%nat ->
         prefix ++ char ∈ visited_prefixes st' /\
         (prefix ++ char ∉ visited_prefixes st -> rejected (prefix ++ char) = false ->
          exists answer, (prefix ++ char, answer) ∈ (prefix, response) :: later)) /\
    ((Z.of_nat (length response) < max_results)%Z ->
       later = [] /\ env' = r.2 /\
       names st' = names st ∪ list_to_set response /\
       visited_prefixes st' = visited_prefixes st ∪ {[ prefix ]} /\
       request_count st' = (request_count st + 1)%Z /\
       forall char,
         char ∈ character_set -> prefix ++ char <> prefix ->
         prefix ++ char ∉ visited_prefixes st -> prefix ++ char ∉ visited_prefixes st') /\
    (forall next, next ∈ children character_set prefix <->
       exists char, char ∈ character_set /\ next = prefix ++ char /\
                    (len next <= max_prefix_length)%nat) /\
    ((forall char, char ∈ character_set -> (len (prefix ++ char) <= max_prefix_length)%nat) ->
       length (children character_set prefix) = length character_set).
Proof.
  intros Hnew Hok response r.
  destruct (dfs_total character_set max_results rate_limit query_api disk_fault
              k prefix (st, env)) as [[st' env'] Hres].
  pose proof Hres as Hasked.
  change (dfs_depth + k)%nat with (S (S max_prefix_length + k)) in Hasked.
  apply dfs_asked in Hasked as (later & Hexchanges & Hshort & Hcover); [|done|done].
  fold response in Hexchanges, Hshort, Hcover.
  pose proof (get_suggestions_response rate_limit query_api disk_fault prefix
                (mark_visited prefix st) env) as Hresponse.
  pose proof (get_suggestions_state rate_limit query_api disk_fault prefix
                (mark_visited prefix st) env) as Hstate.
  fold r in Hresponse, Hstate. fold response in Hresponse, Hstate.
  exists st', env', later. split; [done|]. split; [exact Hexchanges|].
  assert (dfs (dfs_depth + k) prefix (st, env)
          = if (max_results <=? Z.of_nat (length response))%Z
            then for_each (children character_set prefix) (dfs (dfs_depth + k)) (r.1.2, r.2)
            else Some (r.1.2, r.2)) as Hbody.
  { rewrite Hres. symmetry.
    change (dfs_depth + k)%nat with (S (S max_prefix_length + k)) in Hres.
    rewrite dfs_unfold, bool_decide_eq_false_2, Hok in Hres by done.
    cbv zeta in Hres. fold r in Hres. rewrite Hresponse in Hres.
    destruct (max_results <=? Z.of_nat (length response))%Z; [|done].
    rewrite (for_each_filter (fun char => prefix ++ char)
               (fun next => (len next <=? max_prefix_length)%nat)
               (dfs (S max_prefix_length + k))) in Hres.
    revert Hres. apply for_each_agree.
    intros next a a' _. apply dfs_fuel_S. }
  split_and!.
  - intros Hfull. rewrite (proj2 (Z.leb_le _ _) Hfull) in Hbody. split; [done|].
    intros char Hchar Hlen.
    assert (prefix ++ char ∈ visited_prefixes st') as Hvisited.
    { rewrite Hres in Hbody. symmetry in Hbody.
      apply children_marked in Hbody as [_ Hall]. apply Hall.
      apply children_spec. by exists char. }
    split; [done|]. intros Hfresh Hquery. by apply Hcover.
  - intros Hfew. rewrite (proj2 (Z.leb_gt _ _) Hfew), Hres in Hbody.
    injection Hbody as -> ->. rewrite Hstate. simpl.
    split_and!; [by apply Hshort|done|done|set_solver|done|set_solver].
  - apply children_spec.
  - intros Hall. by rewrite children_all, length_map.
Qed.

(** C3.  A prefix that is not yet visited and contains two consecutive
    spaces, or has a space at either end and a length other than one, becomes
    a visited prefix and nothing else happens: no exchange with the service
    takes place, the names, the request count, the world and the files are
    as before, and no other prefix, so no child, becomes visited.  A prefix
    of one character, the single space among them, is never rejected: the
    first exchange of its call is its own query, after which it is a visited
    prefix, the names of the answer are among the names and the request count
    has grown. *)
Theorem filters_reject_without_query k prefix st env :
  prefix ∉ visited_prefixes st ->
  ((exists a b, prefix = a ++ "  " ++ b) \/
   ((exists b, prefix = " " ++ b) \/ (exists a, prefix = a ++ " ")) /\ len prefix ≠ 1%nat ->
   forall fuel, exists st',
     _dfs character_set max_results rate_limit query_api disk_fault (S fuel)
       prefix (st, env) = Some (st', env) /\
     dfs_exchanges character_set max_results rate_limit query_api disk_fault (S fuel)
       prefix (st, env) = Some [] /\
     prefix ∈ visited_prefixes st' /\
     visited_prefixes st' = visited_prefixes st ∪ {[ prefix ]} /\
     names st' = names st /\
     request_count st' = request_count st) /\
  (len prefix = 1%nat ->
   exists st' env' later,
     _dfs character_set max_results rate_limit query_api disk_fault (dfs_depth + k)
       prefix (st, env) = Some (st', env') /\
     dfs_exchanges character_set max_results rate_limit query_api disk_fault (dfs_depth + k)
       prefix (st, env)
     = Some ((prefix, (query_api prefix (rate_limit (world env))).1) :: later) /\
     prefix ∈ visited_prefixes st' /\
     list_to_set (query_api prefix (rate_limit (world env))).1 ⊆ names st' /\
     (request_count st + 1 <= request_count st')%Z).
Proof.
  intros Hnew. split.
  - intros Hrej fuel. apply rejected_spec in Hrej.
    exists (mark_visited prefix st). split_and!.
    + by rewrite dfs_unfold, bool_decide_eq_false_2, Hrej.
    + unfold dfs_exchanges. cbn [fst snd].
      by rewrite dfs_unfold, bool_decide_eq_false_2, Hrej.
    + simpl. set_solver.
    + done.
    + done.
    + done.
  - intros Hlen.
    assert (rejected prefix = false) as Hok.
    { destruct prefix as [|c [|d rest]]; [done| |done]. apply single_char_not_rejected. }
    destruct (dfs_total character_set max_results rate_limit query_api disk_fault
                k prefix (st, env)) as [[st' env'] Hres].
    pose proof Hres as Hasked.
    change (dfs_depth + k)%nat with (S (S max_prefix_length + k)) in Hasked.
    apply dfs_asked in Hasked as (later & Hexchanges & _ & _); [|done|done].
    exists st', env', later. split; [done|]. split; [exact Hexchanges|].
    pose proof (get_suggestions_state rate_limit query_api disk_fault prefix
                  (mark_visited prefix st) env) as Hstate.
    change (dfs_depth + k)%nat with (S (S max_prefix_length + k)) in Hres.
    rewrite dfs_unfold, bool_decide_eq_false_2, Hok in Hres by done.
    cbv zeta in Hres. set (r := suggest prefix (mark_visited prefix st) env) in *.
    assert (state_le r.1.2 st') as (Hnames & Hvisited & Hcount).
    { destruct (max_results <=? Z.of_nat _)%Z.
      - revert Hres.
        apply (for_each_invariant (fun s => state_le r.1.2 s.1) _ _ (r.1.2, r.2) (st', env'));
          [|apply state_le_refl].
        intros char [a e] [a' e'] _ Ha Hbody; cbn [fst snd] in Ha |- *.
        destruct (len (prefix ++ char) <=? max_prefix_length)%nat.
        + eapply state_le_trans; [exact Ha|by eapply dfs_le].
        + by inversion Hbody; subst.
      - inversion Hres; subst. apply state_le_refl. }
    rewrite Hstate in Hnames, Hvisited, Hcount. simpl in *.
    split_and!; [set_solver|set_solver|lia].
Qed.

End Branching.

(** C1, witness: on the simulated service with pages of two names, the
    query for ["c"] returns a full page, after which ["ca"] is visited and
    was asked for; the query for ["cab"] returns one name and ends the
    call. *)
Lemma truncation_driven_branching_witness :
  (exists st' env' later,
     _dfs sim_character_set 2 sim_wait (sim_api sim_vocabulary 2) sim_fault (dfs_depth + 0)
       "c" (initial_state, sim_env) = Some (st', env') /\
     dfs_exchanges sim_character_set 2 sim_wait (sim_api sim_vocabulary 2) sim_fault
       (dfs_depth + 0) "c" (initial_state, sim_env)
     = Some (("c", ["cat"; "car"]) :: later) /\
     "ca" ∈ visited_prefixes st' /\
     exists answer, ("ca", answer) ∈ ("c", ["cat"; "car"]) :: later) /\
  (exists st' env',
     _dfs sim_character_set 2 sim_wait (sim_api sim_vocabulary 2) sim_fault (dfs_depth + 0)
       "cab" (initial_state, sim_env) = Some (st', env') /\
     dfs_exchanges sim_character_set 2 sim_wait (sim_api sim_vocabulary 2) sim_fault
       (dfs_depth + 0) "cab" (initial_state, sim_env)
     = Some [("cab", ["cab"])] /\
     visited_prefixes st' = visited_prefixes initial_state ∪ {[ "cab" ]} /\
     request_count st' = (request_count initial_state + 1)%Z).
Proof.
  split.
  - pose proof (truncation_driven_branching sim_character_set 2 sim_wait
                  (sim_api sim_vocabulary 2) sim_fault 0 "c" initial_state sim_env
                  ltac:(by vm_compute) eq_refl) as Hbranch.
    cbv zeta in Hbranch.
    destruct Hbranch as (st' & env' & later & Hrun & Hexchanges & Hfull & _).
    destruct (Hfull ltac:(by vm_compute)) as [_ Hchildren].
    destruct (Hchildren "a" ltac:(by left) ltac:(vm_compute; lia)) as [Hvisited Hasked].
    exists st', env', later. split_and!; [exact Hrun|exact Hexchanges|exact Hvisited|].
    apply Hasked; [by vm_compute|reflexivity].
  - pose proof (truncation_driven_branching sim_character_set 2 sim_wait
                  (sim_api sim_vocabulary 2) sim_fault 0 "cab" initial_state sim_env
                  ltac:(by vm_compute) eq_refl) as Hbranch.
    cbv zeta in Hbranch.
    destruct Hbranch as (st' & env' & later & Hrun & Hexchanges & _ & Hshort & _).
    destruct (Hshort ltac:(by vm_compute)) as (Hlater & _ & _ & Hvisited & Hcount & _).
    exists st', env'. split_and!; [exact Hrun| |exact Hvisited|exact Hcount].
    rewrite Hlater in Hexchanges. exact Hexchanges.
Defined.

(** C3, witness: the three prefixes of the specification.  ["ab  c"] and
    [" a"] are marked visited without an exchange; [" "] is queried. *)
Lemma filters_reject_without_query_witness :
  (exists st',
     _dfs sim_character_set 2 sim_wait (sim_api sim_vocabulary 2) sim_fault 1
       "ab  c" (initial_state, sim_env) = Some (st', sim_env) /\
     dfs_exchanges sim_character_set 2 sim_wait (sim_api sim_vocabulary 2) sim_fault 1
       "ab  c" (initial_state, sim_env) = Some [] /\
     "ab  c" ∈ visited_prefixes st' /\
     visited_prefixes st' = visited_prefixes initial_state ∪ {[ "ab  c" ]} /\
     names st' = names initial_state /\
     request_count st' = request_count initial_state) /\
  (exists st',
     _dfs sim_character_set 2 sim_wait (sim_api sim_vocabulary 2) sim_fault 1
       " a" (initial_state, sim_env) = Some (st', sim_env) /\
     dfs_exchanges sim_character_set 2 sim_wait (sim_api sim_vocabulary 2) sim_fault 1
       " a" (initial_state, sim_env) = Some [] /\
     " a" ∈ visited_prefixes st' /\
     visited_prefixes st' = visited_prefixes initial_state ∪ {[ " a" ]} /\
     names st' = names initial_state /\
     request_count st' = request_count initial_state) /\
  (exists st' env' later,
     _dfs sim_character_set 2 sim_wait (sim_api sim_vocabulary 2) sim_fault (dfs_depth + 0)
       " " (initial_state, sim_env) = Some (st', env') /\
     dfs_exchanges sim_character_set 2 sim_wait (sim_api sim_vocabulary 2) sim_fault
       (dfs_depth + 0) " " (initial_state, sim_env)
     = Some ((" ", (sim_api sim_vocabulary 2 " " (sim_wait (world sim_env))).1) :: later) /\
     " " ∈ visited_prefixes st' /\
     list_to_set (sim_api sim_vocabulary 2 " " (sim_wait (world sim_env))).1 ⊆ names st' /\
     (request_count initial_state + 1 <= request_count st')%Z).
Proof.
  split_and!.
  - apply (proj1 (filters_reject_without_query sim_character_set 2 sim_wait
                    (sim_api sim_vocabulary 2) sim_fault 0 "ab  c" initial_state sim_env
                    ltac:(by vm_compute))).
    left. by exists "ab", "c".
  - apply (proj1 (filters_reject_without_query sim_character_set 2 sim_wait
                    (sim_api sim_vocabulary 2) sim_fault 0 " a" initial_state sim_env
                    ltac:(by vm_compute))).
    right. split; [left; by exists "a"|done].
  - apply (proj2 (filters_reject_without_query sim_character_set 2 sim_wait
                    (sim_api sim_vocabulary 2) sim_fault 0 " " initial_state sim_env
                    ltac:(by vm_compute))).
    reflexivity.
Defined.
